(** * ViscousDrainage: a shallow embedding of OpenPNM's viscous drainage algorithm

    Source: [OpenPNM/Algorithms/__ViscousDrainage__.py], class [ViscousDrainage].

    Conventions of the embedding.
    - NumPy/Python floats are idealised as rationals ([Q]); [==] is numeric
      equality (Python's [==] on numbers).  Rounding, infinities and NaN are
      outside the model, and so is division by zero (zero in [Q], inf/nan in
      NumPy): statements that depend on a quotient carry the hypothesis that
      the divisor is not zero.
    - The per-pore and per-throat arrays of the algorithm object are lists,
      read with a total lookup ([l !!! i]) and written with [<[i:=v]> l].
      Indices that the code produces itself (pore and throat numbers taken
      from the network) are in range for a well-sized state; indices supplied
      by the caller, and reads of [menisci[th][0]] and [menisci[th][-1]],
      raise [IndexError] as in Python.
    - The instance [self] is an explicit [State] threaded through a state and
      exception monad [M]; a raised exception keeps the mutations made so far.
    - The network object [self._net] is read-only and is a section variable;
      the linear solver of the parent class and SciPy's [sin] and [pi] are
      section variables as well. *)

From Stdlib Require Import QArith Qpower Qround Qabs Qminmax Lqa Lia ZArith String List
  Bool Sorted.
From stdpp Require Import base list.

Open Scope Q_scope.

(** ** Numbers *)

#[global] Instance Q_inhabited : Inhabited Q := populate 0.

Definition Qltb (x y : Q) : bool := negb (Qle_bool y x).
Definition Qgtb (x y : Q) : bool := Qltb y x.
Definition Qleb (x y : Q) : bool := Qle_bool x y.
Definition Qgeb (x y : Q) : bool := Qle_bool y x.
Definition Qeqb (x y : Q) : bool := Qeq_bool x y.

(** Python's [round(x)] on a float: nearest integer, ties to the even one. *)
Definition py_round (x : Q) : Z :=
  let f := Qfloor x in
  let r := x - inject_Z f in
  if Qltb r (1#2) then f
  else if Qltb (1#2) r then (f + 1)%Z
  else if Z.even f then f else (f + 1)%Z.

(** [sp.sum] of a one-dimensional array. *)
Definition sp_sum (l : list Q) : Q := fold_left Qplus l 0.

(** [sp.multiply] of two arrays of the same shape. *)
Definition sp_multiply (a b : list Q) : list Q :=
  map (fun p => fst p * snd p) (combine a b).

(** [sp.where(flags)[0]]: the indices whose flag is set, ascending. *)
Fixpoint where_from (i : nat) (flags : list bool) : list nat :=
  match flags with
  | [] => []
  | b :: rest => if b then i :: where_from (S i) rest else where_from (S i) rest
  end.
Definition sp_where (flags : list bool) : list nat := where_from 0 flags.

(** [sp.zeros(n)] and [sp.ones(n)*c]. *)
Definition sp_zeros (n : nat) : list Q := replicate n 0.
Definition sp_full (n : nat) (c : Q) : list Q := replicate n c.

(** ** Exceptions *)

Inductive exn : Type :=
| Exception (msg : string)
| UnboundLocalError (name : string)
| AttributeError (name : string)
| IndexError.

Inductive outcome (A : Type) : Type :=
| Ok (a : A)
| Raise (e : exn).
Arguments Ok {A} a.
Arguments Raise {A} e.

(** ** The collaborators: network and phases *)

Record Network := mkNetwork {
  Np : nat;
  Nt : nat;
  throat_conns : list (nat * nat);   (* net['throat.conns'], lower index first *)
  pore_volume : list Q;              (* net['pore.volume'] *)
  throat_volume : list Q;            (* net['throat.volume'] *)
  throat_area : list Q;              (* net['throat.area'] *)
  throat_length : list Q             (* net['throat.length'] *)
}.

Record Phase := mkPhase {
  pore_viscosity : list Q;           (* phase['pore.viscosity'] *)
  throat_capillary_pressure : list Q (* phase[entry_pressure] *)
}.

(** ** The algorithm object *)

Record State := mkState {
  pore_inlets : list bool;           (* self['pore.inlets'] *)
  pore_outlets : list bool;          (* self['pore.outlets'] *)
  throat_entry_pressure : list Q;    (* self['throat.entry_pressure'] *)
  pore_inv_frac : list Q;            (* self['pore.inv_frac'] *)
  throat_inv_frac : list Q;          (* self['throat.inv_frac'] *)
  pore_contested : list bool;        (* self['pore.contested'] *)
  throat_contested : list bool;      (* self['throat.contested'] *)
  pore_invaded : list bool;          (* self['pore.invaded'] *)
  throat_conductance : list Q;       (* self['throat.conductance'] *)
  pore_pressure : list Q;            (* self['pore.pressure'] *)
  _phase : Phase;
  _inv_phase : Phase;
  _def_phase : Phase;
  _inj_rate : Q;
  _th_q : list Q;
  _pore_qsum : list Q;
  _max_pc : list Q;
  _menisci : list (list Q);
  _throat_sup_fact : list Q;
  _sat_tol : Q;
  _max_steps : Z;
  _ts_num : Z;
  _total_time : Q;
  break_through_time : Q;
  break_through_steps : Z;
  _net_vol : Q;
  _total_def_out : Q;
  _total_inv_out : Q;
  _def_out_rate : Q;
  _inv_out_rate : Q;
  _def_out : Q;
  _inv_out : Q;
  _gdef : option (list Q);           (* None: the attribute was never assigned *)
  _outlets : option (list nat);      (* None: the attribute was never assigned *)
  _zero_dt : Z
}.

(** Field assignment [self.f = v]: the record rebuilt with one field replaced. *)
Definition eta_State (s : State) : State :=
  mkState (pore_inlets s) (pore_outlets s) (throat_entry_pressure s)
    (pore_inv_frac s) (throat_inv_frac s) (pore_contested s)
    (throat_contested s) (pore_invaded s) (throat_conductance s)
    (pore_pressure s) (_phase s) (_inv_phase s) (_def_phase s) (_inj_rate s)
    (_th_q s) (_pore_qsum s) (_max_pc s) (_menisci s) (_throat_sup_fact s)
    (_sat_tol s) (_max_steps s) (_ts_num s) (_total_time s)
    (break_through_time s) (break_through_steps s) (_net_vol s)
    (_total_def_out s) (_total_inv_out s) (_def_out_rate s) (_inv_out_rate s)
    (_def_out s) (_inv_out s) (_gdef s) (_outlets s) (_zero_dt s).

Ltac assign_field proj :=
  let v := fresh "v" in
  let s := fresh "s" in
  intros v s;
  let body := eval cbv beta delta [eta_State] in (eta_State s) in
  let abstracted := eval pattern (proj s) in body in
  lazymatch abstracted with
  | ?g _ => let r := eval cbv beta in (g v) in exact r
  end.

Definition upd_pore_inlets : list bool -> State -> State.
Proof. assign_field pore_inlets. Defined.
Definition upd_pore_outlets : list bool -> State -> State.
Proof. assign_field pore_outlets. Defined.
Definition upd_throat_entry_pressure : list Q -> State -> State.
Proof. assign_field throat_entry_pressure. Defined.
Definition upd_pore_inv_frac : list Q -> State -> State.
Proof. assign_field pore_inv_frac. Defined.
Definition upd_throat_inv_frac : list Q -> State -> State.
Proof. assign_field throat_inv_frac. Defined.
Definition upd_pore_contested : list bool -> State -> State.
Proof. assign_field pore_contested. Defined.
Definition upd_throat_contested : list bool -> State -> State.
Proof. assign_field throat_contested. Defined.
Definition upd_pore_invaded : list bool -> State -> State.
Proof. assign_field pore_invaded. Defined.
Definition upd_throat_conductance : list Q -> State -> State.
Proof. assign_field throat_conductance. Defined.
Definition upd_pore_pressure : list Q -> State -> State.
Proof. assign_field pore_pressure. Defined.
Definition upd_inv_phase : Phase -> State -> State.
Proof. assign_field _inv_phase. Defined.
Definition upd_def_phase : Phase -> State -> State.
Proof. assign_field _def_phase. Defined.
Definition upd_inj_rate : Q -> State -> State.
Proof. assign_field _inj_rate. Defined.
Definition upd_th_q : list Q -> State -> State.
Proof. assign_field _th_q. Defined.
Definition upd_pore_qsum : list Q -> State -> State.
Proof. assign_field _pore_qsum. Defined.
Definition upd_max_pc : list Q -> State -> State.
Proof. assign_field _max_pc. Defined.
Definition upd_menisci : list (list Q) -> State -> State.
Proof. assign_field _menisci. Defined.
Definition upd_throat_sup_fact : list Q -> State -> State.
Proof. assign_field _throat_sup_fact. Defined.
Definition upd_sat_tol : Q -> State -> State.
Proof. assign_field _sat_tol. Defined.
Definition upd_max_steps : Z -> State -> State.
Proof. assign_field _max_steps. Defined.
Definition upd_ts_num : Z -> State -> State.
Proof. assign_field _ts_num. Defined.
Definition upd_total_time : Q -> State -> State.
Proof. assign_field _total_time. Defined.
Definition upd_break_through_time : Q -> State -> State.
Proof. assign_field break_through_time. Defined.
Definition upd_break_through_steps : Z -> State -> State.
Proof. assign_field break_through_steps. Defined.
Definition upd_net_vol : Q -> State -> State.
Proof. assign_field _net_vol. Defined.
Definition upd_total_def_out : Q -> State -> State.
Proof. assign_field _total_def_out. Defined.
Definition upd_total_inv_out : Q -> State -> State.
Proof. assign_field _total_inv_out. Defined.
Definition upd_def_out_rate : Q -> State -> State.
Proof. assign_field _def_out_rate. Defined.
Definition upd_inv_out_rate : Q -> State -> State.
Proof. assign_field _inv_out_rate. Defined.
Definition upd_def_out : Q -> State -> State.
Proof. assign_field _def_out. Defined.
Definition upd_inv_out : Q -> State -> State.
Proof. assign_field _inv_out. Defined.
Definition upd_gdef : option (list Q) -> State -> State.
Proof. assign_field _gdef. Defined.
Definition upd_outlets : option (list nat) -> State -> State.
Proof. assign_field _outlets. Defined.
Definition upd_zero_dt : Z -> State -> State.
Proof. assign_field _zero_dt. Defined.

(** ** The state and exception monad *)

Definition M (A : Type) : Type := State -> outcome A * State.

Definition ret {A} (a : A) : M A := fun s => (Ok a, s).
Definition raise {A} (e : exn) : M A := fun s => (Raise e, s).
Definition bind {A B} (m : M A) (k : A -> M B) : M B :=
  fun s => match m s with
           | (Ok a, s') => k a s'
           | (Raise e, s') => (Raise e, s')
           end.
Definition get {A} (proj : State -> A) : M A := fun s => (Ok (proj s), s).
Definition modify (f : State -> State) : M unit := fun s => (Ok tt, f s).

Declare Scope vd_scope.
Delimit Scope vd_scope with vd.
Notation "x <- m ;; k" := (bind m (fun x => k))
  (at level 100, m at next level, k at level 200, right associativity) : vd_scope.
Notation "m ;; k" := (bind m (fun _ => k))
  (at level 100, k at level 200, right associativity) : vd_scope.
Open Scope vd_scope.

Definition when (b : bool) (m : M unit) : M unit := if b then m else ret tt.

(** [for x in l: body(x)]. *)
Fixpoint for_each {A} (l : list A) (body : A -> M unit) : M unit :=
  match l with
  | [] => ret tt
  | x :: rest => body x ;; for_each rest body
  end.

(** A [for] loop that carries local variables [acc] from one round to the next. *)
Fixpoint for_fold {A B} (l : list A) (acc : B) (body : B -> A -> M B) : M B :=
  match l with
  | [] => ret acc
  | x :: rest => acc' <- body acc x ;; for_fold rest acc' body
  end.

(** [seq[0]] and [seq[-1]] of a Python list. *)
Definition py_first {A} (l : list A) : M A :=
  match l with
  | [] => raise IndexError
  | x :: _ => ret x
  end.
Definition py_last {A} (l : list A) : M A :=
  match last l with
  | None => raise IndexError
  | Some x => ret x
  end.
(** [del seq[-1]] and [del seq[0]] on a non-empty list. *)
Definition del_last {A} (l : list A) : list A := removelast l.
Definition del_first {A} (l : list A) : list A := tail l.

(** [self[key][i]] read and [self[key][i] = v] write of one array element. *)
Definition load {A} `{Inhabited A} (proj : State -> list A) (i : nat) : M A :=
  get (fun s => proj s !!! i).
Definition store {A} (proj : State -> list A) (upd : list A -> State -> State)
    (i : nat) (v : A) : M unit :=
  modify (fun s => upd (<[i:=v]> (proj s)) s).

(** NumPy fancy indexing [arr[Ps]] and fancy assignment [arr[Ps] = v]. *)
Fixpoint take_indices {A} (arr : list A) (Ps : list nat) : M (list A) :=
  match Ps with
  | [] => ret []
  | p :: rest =>
      match arr !! p with
      | None => raise IndexError
      | Some x => xs <- take_indices arr rest ;; ret (x :: xs)
      end
  end.
Definition put_indices {A} (arr : list A) (Ps : list nat) (v : A) : list A :=
  fold_left (fun a p => <[p:=v]> a) Ps arr.

(** Python's builtin [sum] over a boolean array: the number of set flags. *)
Definition count_true (l : list bool) : nat := length (List.filter id l).

(** ** The algorithm *)

Section ViscousDrainage.

(** [self._net]. *)
Variable net : Network.
(** [scipy.sin] and [scipy.pi] on the number model. *)
Variable sp_sin : Q -> Q.
Variable sp_pi : Q.
(** [GenericLinearTransport.solve] on the system assembled by
    [_build_coefficient_matrix] and [_build_RHS_matrix]: it reads the
    conductances and boundary flags of the object and the capillary
    right-hand side, and yields the pore pressures. *)
Variable linear_solve : State -> list Q -> list Q.

Definition conns (th : nat) : nat * nat := throat_conns net !!! th.

(** Modelled from the spec: [GenericNetwork.find_neighbor_throats] is not in
    the sources at hand; section 6 of the specification gives it as the
    neighbour-throat query with an intersection / not-intersection filter
    over a pore set.  With one pore it lists the throats that touch it;
    [intersection] keeps the throats with both ends in the set,
    [not_intersection] those with exactly one end in it. *)
Definition find_neighbor_throats (p : nat) : list nat :=
  sp_where (map (fun c => Nat.eqb (fst c) p || Nat.eqb (snd c) p)
                (throat_conns net)).
Definition in_pores (Ps : list nat) (p : nat) : bool := existsb (Nat.eqb p) Ps.
Definition find_neighbor_throats_intersection (Ps : list nat) : list nat :=
  sp_where (map (fun c => in_pores Ps (fst c) && in_pores Ps (snd c))
                (throat_conns net)).
Definition find_neighbor_throats_not_intersection (Ps : list nat) : list nat :=
  sp_where (map (fun c => xorb (in_pores Ps (fst c)) (in_pores Ps (snd c)))
                (throat_conns net)).

(** *** Helper methods (lines 570-699) *)

(** One entry of [_get_supply_facts] (lines 592-599). *)
Definition supply_fact (ref_pore : nat) (s : State) (th : nat) : Q :=
  let ps := conns th in
  if Nat.eqb ref_pore (snd ps)
  then (_throat_sup_fact s !!! th)
       * Qpower (-1) (Z.of_nat (length (_menisci s !!! th)))
  else _throat_sup_fact s !!! th.

Definition _get_supply_facts (throats : list nat) (ref_pore : nat) (s : State)
    : list Q :=
  map (supply_fact ref_pore s) throats.

(** [self._pc_func = lambda x: sp.sin(sp.pi * x)] (line 128). *)
Definition _pc_func (x : Q) : Q := sp_sin (sp_pi * x).

(** The loop body of [_sum_fpcap]: the pair is [(fpc, f)]. *)
Definition fpcap_step (max_pc : Q) (acc : Q * Q) (x : Q) : Q * Q :=
  (fst acc + snd acc * _pc_func x * max_pc, snd acc * -1).

Definition _sum_fpcap (th ref_pore : nat) (s : State) : Q :=
  let ps := conns th in
  let men := _menisci s !!! th in
  let walk := if Nat.eqb ref_pore (snd ps) then rev men else men in
  let fpc := 0 in
  let f := -1 * (_get_supply_facts [th] ref_pore s !!! 0%nat) in
  fst (fold_left (fpcap_step (_max_pc s !!! th)) walk (fpc, f)).

Definition _set_dx_max (th : nat) : M Q :=
  q <- load _th_q th ;;
  men <- load _menisci th ;;
  x <- (if Qltb q 0 then py_last men else py_first men) ;;
  let dx_max := 0.03 in
  if Qltb q 0 && Qgtb x 0.50 then
    let dx_max := 0.30 in
    m0 <- py_first men ;;
    let dx_max := if Qltb m0 0.50 then 0.03 else dx_max in
    let dx_max := if Qgtb dx_max (1 - x) then 1 - x else dx_max in
    ret dx_max
  else if Qgtb q 0 && Qltb x 0.50 then
    let dx_max := 0.30 in
    m1 <- py_last men ;;
    let dx_max := if Qgtb m1 0.50 then 0.03 else dx_max in
    let dx_max := if Qgtb dx_max x then x else dx_max in
    ret dx_max
  else ret dx_max.

Definition _set_dv_max (pore : nat) (q : Q) (s : State) : Q :=
  let dv_max := 0.25 in
  let frac := pore_inv_frac s !!! pore in
  if Qgtb q 0 && Qltb (1 - frac) dv_max then 1 - frac
  else if Qltb q 0 && Qltb frac dv_max then frac
  else dv_max.

Definition _advance_zero_vol_throat (th : nat) : M unit :=
  let p1 := fst (conns th) in
  let p2 := snd (conns th) in
  let phase := 1 in
  q <- load _th_q th ;;
  phase <- (if Qltb q 0 then
              inv1 <- load pore_invaded p1 ;;
              let phase := if negb inv1 then 0 else phase in
              store _menisci upd_menisci th [1] ;;
              ret phase
            else
              inv2 <- load pore_invaded p2 ;;
              let phase := if negb inv2 then 0 else phase in
              store _menisci upd_menisci th [0] ;;
              ret phase) ;;
  store throat_inv_frac upd_throat_inv_frac th phase.

Definition _set_menisci (base_pore : nat) (Ts : list nat) : M unit :=
  for_each Ts (fun th =>
    let ps := conns th in
    q <- load _th_q th ;;
    if Nat.eqb base_pore (snd ps) then
      if Qltb q 0 then ret tt
      else
        men <- load _menisci th ;;
        store _menisci upd_menisci th (men ++ [1]) ;;
        store throat_contested upd_throat_contested th true
    else
      if Qgtb q 0 then ret tt
      else
        men <- load _menisci th ;;
        store _menisci upd_menisci th (0 :: men) ;;
        sf <- load _throat_sup_fact th ;;
        store _throat_sup_fact upd_throat_sup_fact th (sf * -1) ;;
        store throat_contested upd_throat_contested th true).

(** [Ts[Ts_sf == sf]]: selection by a boolean mask. *)
Definition mask_select (Ts : list nat) (Ts_sf : list Q) (sf : Q) : list nat :=
  map fst (List.filter (fun p => Qeqb (snd p) sf) (combine Ts Ts_sf)).

Definition _fill_pore (pore : nat) : M unit :=
  frac <- load pore_inv_frac pore ;;
  let rounded := py_round frac in
  store pore_inv_frac upd_pore_inv_frac pore (inject_Z rounded) ;;
  sf <- (if Z.eqb rounded 1 then
           store pore_invaded upd_pore_invaded pore true ;; ret (-1)
         else
           store pore_invaded upd_pore_invaded pore false ;; ret 1) ;;
  let Ts := find_neighbor_throats pore in
  Ts_sf <- get (_get_supply_facts Ts pore) ;;
  _set_menisci pore (mask_select Ts Ts_sf sf) ;;
  Ts_sf <- get (_get_supply_facts Ts pore) ;;
  sf0 <- py_first Ts_sf ;;
  store pore_contested upd_pore_contested pore
        (negb (forallb (fun x => Qeqb x sf0) Ts_sf)).

(** *** The conductance update and the right-hand side (lines 313-346) *)

(** [sp.average] of the two endpoint values. *)
Definition average2 (arr : list Q) (ps : nat * nat) : Q :=
  (arr !!! fst ps + arr !!! snd ps) / 2.

(** The viscosity ratio [M = dvisc/ivisc] of a throat (lines 320-323). *)
Definition viscosity_ratio (th : nat) (s : State) : Q :=
  let pores := conns th in
  let dvisc := average2 (pore_viscosity (_def_phase s)) pores in
  let ivisc := average2 (pore_viscosity (_inv_phase s)) pores in
  dvisc / ivisc.

(** [self._gdef]: only [run] assigns it (line 220). *)
Definition read_gdef : M (list Q) :=
  g <- get _gdef ;;
  match g with
  | None => raise (AttributeError "_gdef")
  | Some g => ret g
  end.

(** The body of the loop of [_update_coefficient_matrix]. *)
Definition update_conductance (th : nat) : M unit :=
  M <- get (viscosity_ratio th) ;;
  frac <- load throat_inv_frac th ;;
  let frac := 1 - frac + frac * M in
  gdef <- read_gdef ;;
  store throat_conductance upd_throat_conductance th (frac * (gdef !!! th)).

(** The matrix itself is assembled by the parent class from
    [self['throat.conductance']]; the model keeps the conductances. *)
Definition _update_coefficient_matrix : M unit :=
  for_each (seq 0 (Nt net)) update_conductance.

Definition _update_rhs : M (list Q) :=
  let rhs_pcap_data := sp_zeros (Np net) in
  ths <- get (fun s => sp_where (throat_contested s)) ;;
  for_fold ths rhs_pcap_data (fun rhs th =>
    for_fold [fst (conns th); snd (conns th)] rhs (fun rhs pore =>
      g <- load throat_conductance th ;;
      fpc <- get (_sum_fpcap th pore) ;;
      ret (<[pore := rhs !!! pore + g * fpc]> rhs))).

Definition solve (b : list Q) : M unit :=
  modify (fun s => upd_pore_pressure (linear_solve s b) s).

(** *** The time step (lines 348-417) *)

(** [q = -g * (pr1 - pr2 + fpc)] for a throat (lines 366-372, 397-402,
    519-523). *)
Definition throat_flow (th : nat) (s : State) : Q :=
  let p1 := fst (conns th) in
  let p2 := snd (conns th) in
  let pr1 := pore_pressure s !!! p1 in
  let pr2 := pore_pressure s !!! p2 in
  let g := throat_conductance s !!! th in
  let fpc := _sum_fpcap th p1 s in
  - g * (pr1 - pr2 + fpc).

Definition dt_throat_flow (dt : Q) (th : nat) : M Q :=
  let dt := if Qeqb (throat_volume net !!! th) 0 then 0 else dt in
  q <- get (throat_flow th) ;;
  store _th_q upd_th_q th q ;;
  ret dt.

Definition dt_throat_travel (dt : Q) (th : nat) : M Q :=
  dx_max <- _set_dx_max th ;;
  q <- load _th_q th ;;
  let v := q / (throat_area net !!! th) in
  if Qeqb v 0 then ret dt
  else
    let dt_new := dx_max * (throat_length net !!! th) / Qabs v in
    ret (if Qltb dt_new dt then dt_new else dt).

Definition dt_pore_supply (p : nat) (qsum : Q) (th_sf : nat * Q) : M Q :=
  let th := fst th_sf in
  let p2 := snd (conns th) in
  q <- get (throat_flow th) ;;
  store _th_q upd_th_q th q ;;
  let q := if Nat.eqb p p2 then -1 * q else q in
  ret (if Qgtb (snd th_sf) 0 then qsum + q else qsum).

Definition dt_pore_fill (dt : Q) (p : nat) : M Q :=
  let dt := if Qeqb (pore_volume net !!! p) 0 then 0 else dt in
  let con_ts := find_neighbor_throats p in
  con_ts_sf <- get (_get_supply_facts con_ts p) ;;
  qsum <- for_fold (combine con_ts con_ts_sf) 0 (dt_pore_supply p) ;;
  store _pore_qsum upd_pore_qsum p qsum ;;
  dv_max <- get (_set_dv_max p qsum) ;;
  if Qeqb qsum 0 then ret dt
  else
    let dt_new := dv_max * (pore_volume net !!! p) / Qabs qsum in
    ret (if Qltb dt_new dt then dt_new else dt).

Definition _calculate_dt : M Q :=
  net_vol <- get _net_vol ;;
  inj_rate <- get _inj_rate ;;
  let dt := net_vol / inj_rate * 0.01 in
  modify (upd_th_q (sp_zeros (Nt net))) ;;
  modify (upd_pore_qsum (sp_zeros (Np net))) ;;
  ths <- get (fun s => sp_where (throat_contested s)) ;;
  dt <- for_fold ths dt dt_throat_flow ;;
  ths <- get (fun s => sp_where (throat_contested s)) ;;
  dt <- for_fold ths dt dt_throat_travel ;;
  ps <- get (fun s => sp_where (pore_contested s)) ;;
  for_fold ps dt dt_pore_fill.

(** *** The interface advance (lines 419-501) *)

(** The boundary check of one throat (lines 450-463): the pore the
    meniscus moved into, if any, and the saturation adjustment. *)
Definition round_to_pore (th : nat) (v : Q) : M (option nat * Q) :=
  men <- load _menisci th ;;
  sat_tol <- get _sat_tol ;;
  sf <- load _throat_sup_fact th ;;
  m_last <- py_last men ;;
  if Qgtb m_last (1 - sat_tol) && Qltb v 0 then
    store _menisci upd_menisci th (del_last men) ;;
    ret (Some (snd (conns th)), (1 - m_last) * sf)
  else
    m_first <- py_first men ;;
    if Qltb m_first sat_tol && Qgtb v 0 then
      store _menisci upd_menisci th (del_first men) ;;
      store _throat_sup_fact upd_throat_sup_fact th (sf * -1) ;;
      ret (Some (fst (conns th)), m_first * sf)
    else ret (None, 0).

(** The body of the loop over the contested throats (lines 427-476). *)
Definition advance_throat (dt : Q) (th : nat) : M unit :=
  q <- load _th_q th ;;
  let v := q / (throat_area net !!! th) in
  let dx := (- v * dt) / (throat_length net !!! th) in
  men <- load _menisci th ;;
  store _menisci upd_menisci th (map (fun m => m + dx) men) ;;
  sf <- load _throat_sup_fact th ;;
  let ph_frac := dx * sf in
  let ph_frac := if Nat.eqb (length men mod 2) 0 then 0 else ph_frac in
  frac <- load throat_inv_frac th ;;
  store throat_inv_frac upd_throat_inv_frac th (frac + ph_frac) ;;
  v <- (if Qeqb (throat_volume net !!! th) 0 then
          men <- load _menisci th ;;
          m <- py_first men ;;
          _advance_zero_vol_throat th ;;
          men <- load _menisci th ;;
          m' <- py_first men ;;
          let dx := m' - m in
          ret (- dx)
        else ret v) ;;
  rounded <- round_to_pore th v ;;
  match fst rounded with
  | Some pore =>
      let sat_adj := snd rounded in
      frac <- load throat_inv_frac th ;;
      store throat_inv_frac upd_throat_inv_frac th (frac + sat_adj) ;;
      pfrac <- load pore_inv_frac pore ;;
      store pore_inv_frac upd_pore_inv_frac pore (pfrac + - sat_adj) ;;
      store pore_contested upd_pore_contested pore true
  | None => ret tt
  end ;;
  men <- load _menisci th ;;
  when (Nat.eqb (length men) 0)
       (store throat_contested upd_throat_contested th false).

(** The body of the loop over the contested pores (lines 479-501). *)
Definition advance_pore (dt : Q) (p : nat) : M unit :=
  qsum <- load _pore_qsum p ;;
  let vol := pore_volume net !!! p in
  (if Qeqb vol 0 then
     if Qgtb qsum 0
     then store pore_inv_frac upd_pore_inv_frac p 1
     else store pore_inv_frac upd_pore_inv_frac p 0
   else
     frac <- load pore_inv_frac p ;;
     store pore_inv_frac upd_pore_inv_frac p (frac + dt * qsum / vol)) ;;
  frac <- load pore_inv_frac p ;;
  sat_tol <- get _sat_tol ;;
  if Qgtb frac (1 - sat_tol) then when (Qgeb qsum 0) (_fill_pore p)
  else if Qltb frac sat_tol then when (Qleb qsum 0) (_fill_pore p)
  else ret tt.

Definition _advance_interface (dt : Q) : M unit :=
  contested_pores <- get (fun s => sp_where (pore_contested s)) ;;
  ths <- get (fun s => sp_where (throat_contested s)) ;;
  for_each ths (advance_throat dt) ;;
  for_each contested_pores (advance_pore dt).

(** *** Outflow accounting (lines 503-535) *)

Definition read_outlets : M (list nat) :=
  o <- get _outlets ;;
  match o with
  | None => raise (AttributeError "_outlets")
  | Some ps => ret ps
  end.

Definition fluid_out_throat (p : nat) (def_out_rate : Q) (th : nat) : M Q :=
  let p2 := snd (conns th) in
  q <- get (throat_flow th) ;;
  store _th_q upd_th_q th q ;;
  let q := if Nat.eqb p p2 then -1 * q else q in
  invaded <- load pore_invaded p ;;
  if invaded then
    modify (fun s => upd_inv_out_rate (_inv_out_rate s + q) s) ;;
    ret def_out_rate
  else ret (def_out_rate + q).

Definition _calc_fluid_out (dt : Q) : M unit :=
  modify (upd_def_out 0) ;;
  modify (upd_inv_out 0) ;;
  let def_out_rate := 0 in
  modify (upd_inv_out_rate 0) ;;
  outlets <- read_outlets ;;
  def_out_rate <- for_fold outlets def_out_rate (fun rate p =>
    for_fold (find_neighbor_throats p) rate (fluid_out_throat p)) ;;
  modify (fun s => upd_inv_out (_inv_out_rate s * dt) s) ;;
  modify (upd_def_out (def_out_rate * dt)) ;;
  modify (fun s => upd_total_inv_out (_total_inv_out s + _inv_out_rate s * dt) s) ;;
  modify (fun s => upd_total_def_out (_total_def_out s + def_out_rate * dt) s).

(** *** The outer loop (lines 246-311) *)

(** [sp.where(self['pore.inv_frac'][self._outlets] > 1-self._sat_tol)[0]]. *)
Definition breakthrough_test (outlets : list nat) (s : State) : list nat :=
  sp_where (map (fun p => Qgtb (pore_inv_frac s !!! p) (1 - _sat_tol s)) outlets).

(** Lines 282-285. *)
Definition record_break_through : M unit :=
  outlets <- read_outlets ;;
  test <- get (breakthrough_test outlets) ;;
  bt <- get break_through_time ;;
  when (Nat.ltb 0 (length test) && Qltb bt 0)
    (modify (fun s => upd_break_through_time (_total_time s) s) ;;
     modify (fun s => upd_break_through_steps (_ts_num s) s)).

(** Line 288. *)
Definition steady_state (s : State) : bool :=
  Qltb (Qabs (_inv_out_rate s - _inj_rate s) / _inj_rate s) (1 # 1000000000).

(** Line 291. *)
Definition max_steps_reached (s : State) : bool :=
  (_ts_num s >? _max_steps s)%Z.

(** Lines 255-280 of one round: the physics of the step.  The snapshot
    export and the log messages write to the phases, the network and the
    log file only, and are left out. *)
Definition step_physics : M unit :=
  _update_coefficient_matrix ;;
  b <- _update_rhs ;;
  solve b ;;
  dt <- _calculate_dt ;;
  when (Qeqb dt 0) (modify (fun s => upd_zero_dt (_zero_dt s + 1)%Z s)) ;;
  _advance_interface dt ;;
  modify (fun s => upd_total_time (_total_time s + dt) s) ;;
  _calc_fluid_out dt.

(** One round of [while True]; the result tells whether the loop is left. *)
Definition outer_iteration : M bool :=
  step_physics ;;
  record_break_through ;;
  steady <- get steady_state ;;
  if steady then ret true
  else
    over <- get max_steps_reached ;;
    if over then ret true
    else
      modify (fun s => upd_ts_num (_ts_num s + 1)%Z s) ;;
      ret false.

(** [while True] with a bound on the number of rounds; [false] means the
    bound was hit before a [break]. *)
Fixpoint outer_loop (fuel : nat) : M bool :=
  match fuel with
  | O => ret false
  | S fuel' =>
      done <- outer_iteration ;;
      if done then ret true else outer_loop fuel'
  end.

(** [mass_bal] of line 302. *)
Definition mass_balance (s : State) : Q :=
  let q_inj := _total_time s * _inj_rate s in
  let tot_vol := sp_sum (sp_multiply (pore_volume net) (pore_inv_frac s))
                 + sp_sum (sp_multiply (throat_volume net) (throat_inv_frac s)) in
  (q_inj - tot_vol - _total_inv_out s) / _net_vol s.

Definition _do_outer_iteration_stage (fuel : nat) : M bool :=
  modify (upd_zero_dt 0%Z) ;;
  outer_loop fuel.

Definition run (fuel : nat) : M bool :=
  inlets <- get pore_inlets ;;
  when (Nat.eqb (length inlets) 0)
       (raise (Exception "Inlet pores have not been specified")) ;;
  outlets <- get pore_outlets ;;
  when (Nat.eqb (length outlets) 0)
       (raise (Exception "Outlet pores have not been specified")) ;;
  modify (fun s => upd_gdef (Some (throat_conductance s)) s) ;;
  tot_vol <- get (fun s =>
    sp_sum (sp_multiply (pore_volume net) (pore_inv_frac s))
    + sp_sum (sp_multiply (throat_volume net) (throat_inv_frac s))) ;;
  modify (fun s => upd_total_time (tot_vol / _inj_rate s) s) ;;
  _do_outer_iteration_stage fuel.

Definition restart_simulation (max_steps : Z) (fuel : nat) : M bool :=
  modify (upd_max_steps max_steps) ;;
  _do_outer_iteration_stage fuel.

(** *** Setup and boundary pores (lines 35-204) *)

(** Modelled from the spec: [Core.__setitem__] is not in the sources at
    hand; assigning a scalar to a ['pore.*'] key stores an array with one
    entry per pore, all equal to the scalar (the specification's dense
    per-element arrays, section 9). *)
Definition broadcast_pores {A} (v : A) : list A := replicate (Np net) v.

(** Lines 95-132: the assignments of [setup] after its checks.
    [conductance] is the array the parent's [setup] stores under
    ['throat.conductance']. *)
Definition setup_body (invading_phase defending_phase : Phase)
    (injection_rate : Q) (conductance : list Q) (sat_tol : Q) (max_steps : Z)
    : M unit :=
  modify (upd_pore_inlets (broadcast_pores false)) ;;
  modify (upd_pore_outlets (broadcast_pores false)) ;;
  modify (upd_throat_entry_pressure (throat_capillary_pressure invading_phase)) ;;
  modify (upd_pore_inv_frac (sp_zeros (Np net))) ;;
  modify (upd_throat_inv_frac (sp_zeros (Nt net))) ;;
  modify (upd_pore_contested (replicate (Np net) false)) ;;
  modify (upd_throat_contested (replicate (Nt net) false)) ;;
  modify (upd_pore_invaded (replicate (Np net) false)) ;;
  modify (upd_inv_phase invading_phase) ;;
  modify (upd_def_phase defending_phase) ;;
  modify (upd_inj_rate injection_rate) ;;
  modify (upd_th_q (sp_zeros (Nt net))) ;;
  modify (upd_pore_qsum (sp_zeros (Np net))) ;;
  modify (upd_max_pc (throat_capillary_pressure invading_phase)) ;;
  modify (upd_menisci (replicate (Nt net) [])) ;;
  modify (upd_throat_sup_fact (sp_full (Nt net) (1 * -1))) ;;
  modify (upd_sat_tol sat_tol) ;;
  modify (upd_max_steps max_steps) ;;
  modify (upd_ts_num 0%Z) ;;
  modify (upd_total_time 0) ;;
  modify (upd_break_through_time (-1)) ;;
  modify (upd_break_through_steps 0%Z) ;;
  modify (upd_net_vol (sp_sum (pore_volume net) + sp_sum (throat_volume net))) ;;
  modify (upd_total_def_out 0) ;;
  modify (upd_total_inv_out 0) ;;
  modify (upd_def_out_rate 0) ;;
  modify (upd_inv_out_rate 0) ;;
  modify (upd_throat_conductance conductance).

(** Reading a local variable: [None] is a local that no assignment has
    bound yet. *)
Definition read_local {A} (name : string) (binding : option A) : M A :=
  match binding with
  | None => raise (UnboundLocalError name)
  | Some v => ret v
  end.

(** [setup] (lines 35-132).  [defending_phase] is assigned in the body
    (line 93) and is not among the parameters (lines 35-44), so it is a
    local variable, unbound when line 92 reads it. *)
Definition setup (invading_phase : option Phase) (injection_rate : option Q)
    (conductance : list Q) (sat_tol : Q) (max_steps : Z) : M unit :=
  let defending_phase : option (option Phase) := None in
  match injection_rate with
  | None => raise (Exception "Error - injection rate must be specified")
  | Some rate =>
      match invading_phase with
      | None => raise (Exception "Error - Invading phase phase must be specified")
      | Some inv =>
          bound <- read_local "defending_phase" defending_phase ;;
          defending <- match bound with
                       | None => get _phase
                       | Some d => ret d
                       end ;;
          setup_body inv defending rate conductance sat_tol max_steps
      end
  end.

(** [mode in ['clear', 'overwrite']] and [mode is 'remove']; CPython
    interns such literals, so the identity test agrees with equality for a
    literal argument. *)
Definition clears (mode : string) : bool :=
  String.eqb mode "clear" || String.eqb mode "overwrite".
Definition is_remove (mode : string) : bool := String.eqb mode "remove".

(** The loop of lines 174-179. *)
Definition inlet_meniscus (th : nat) : M unit :=
  let pore1 := fst (conns th) in
  let pore2 := snd (conns th) in
  invaded1 <- load pore_invaded pore1 ;;
  if invaded1 then _set_menisci pore1 [th] else _set_menisci pore2 [th].

(** [set_inlets] (lines 134-181); [Ps] is what [_parse_locations] returns.
    The boundary condition is registered with the parent class and read by
    the solver only. *)
Definition set_inlets (Ps : list nat) (mode : string) : M unit :=
  when (clears mode) (modify (upd_pore_inlets (broadcast_pores false))) ;;
  outlets <- get pore_outlets ;;
  picked <- take_indices outlets Ps ;;
  when (Nat.ltb 0 (count_true picked))
       (raise (Exception "Some inlets are already defined as outlets")) ;;
  let bool_val := if is_remove mode then false else true in
  modify (fun s => upd_pore_inlets (put_indices (pore_inlets s) Ps bool_val) s) ;;
  inlets <- get (fun s => sp_where (pore_inlets s)) ;;
  modify (fun s => upd_pore_inv_frac (put_indices (pore_inv_frac s) inlets 1) s) ;;
  modify (fun s => upd_pore_invaded (put_indices (pore_invaded s) inlets true) s) ;;
  let filled_throats := find_neighbor_throats_intersection inlets in
  modify (fun s =>
    upd_throat_inv_frac (put_indices (throat_inv_frac s) filled_throats 1) s) ;;
  let interface := find_neighbor_throats_not_intersection inlets in
  modify (fun s =>
    upd_throat_contested (put_indices (throat_contested s) interface true) s) ;;
  for_each interface inlet_meniscus.

(** [set_outlets] (lines 183-204). *)
Definition set_outlets (Ps : list nat) (mode : string) : M unit :=
  when (clears mode) (modify (upd_pore_outlets (broadcast_pores false))) ;;
  inlets <- get pore_inlets ;;
  picked <- take_indices inlets Ps ;;
  when (Nat.ltb 0 (count_true picked))
       (raise (Exception "Some outlets are already defined as inlets")) ;;
  let bool_val := if is_remove mode then false else true in
  modify (fun s => upd_pore_outlets (put_indices (pore_outlets s) Ps bool_val) s) ;;
  modify (fun s => upd_outlets (Some (sp_where (pore_outlets s))) s).

End ViscousDrainage.

(** ** Throat centroids ([Geometry/models/throat_centroid.py]) *)

Module throat_centroid.

(** One row of a vertex array: the three coordinates of a vertex. *)
Definition vertex : Type := Q * Q * Q.

(** [vert[:,0]], [vert[:,1]] and [vert[:,2]]. *)
Definition column0 (vert : list vertex) : list Q := map (fun v => v.1.1) vert.
Definition column1 (vert : list vertex) : list Q := map (fun v => v.1.2) vert.
Definition column2 (vert : list vertex) : list Q := map (fun v => v.2) vert.

(** [ndarray.mean] of a one-dimensional array. *)
Definition mean (l : list Q) : Q := sp_sum l / inject_Z (Z.of_nat (length l)).

(** [voronoi] (lines 9-18); [verts] is [geometry['throat.offset_vertices']],
    one vertex array per throat. *)
Definition voronoi (verts : list (list vertex)) : list vertex :=
  map (fun vert => (mean (column0 vert), mean (column1 vert), mean (column2 vert)))
      verts.

End throat_centroid.

(** ** Labels of the dual network ([Network/__DelaunayVoronoiDual__.py]) *)

Module DelaunayVoronoiDual.

(** [arr[0:n] = v] and [arr[n:] = v] on a one-dimensional array; a slice
    that reaches past the end is cut to the array. *)
Definition assign_upto {A} (arr : list A) (n : nat) (v : A) : list A :=
  replicate (Nat.min n (length arr)) v ++ drop n arr.
Definition assign_from {A} (arr : list A) (n : nat) (v : A) : list A :=
  take n arr ++ replicate (length arr - n) v.

(** [arr[Ts] = v] for a boolean mask [Ts] over the array. *)
Definition assign_mask {A} (arr : list A) (Ts : list bool) (v : A) : list A :=
  zip_with (fun (m : bool) x => if m then v else x) Ts arr.

(** [sp.all(conns < Npts, axis=1)] and [sp.all(conns >= Npts, axis=1)]. *)
Definition all_below (Npts : nat) (conns : list (nat * nat)) : list bool :=
  map (fun c => Nat.ltb c.1 Npts && Nat.ltb c.2 Npts) conns.
Definition all_from (Npts : nat) (conns : list (nat * nat)) : list bool :=
  map (fun c => Nat.leb Npts c.1 && Nat.leb Npts c.2) conns.

(** The label arrays of lines 157-168. *)
Record Labels : Type := mkLabels {
  pore_delaunay : list bool;
  pore_voronoi : list bool;
  throat_delaunay : list bool;
  throat_voronoi : list bool
}.

(** Lines 157-168 of [__init__]: [Npts] base points come first among the
    [Np] pores, [conns] is ['throat.conns'].  A scalar stored under a
    ['pore.*'] or ['throat.*'] key fills an array with one entry per pore
    or throat. *)
Definition label_by_type (Npts Np : nat) (conns : list (nat * nat)) : Labels :=
  let Nt := length conns in
  {| pore_delaunay := assign_upto (replicate Np false) Npts true;
     pore_voronoi := assign_from (replicate Np false) Npts true;
     throat_delaunay := assign_mask (replicate Nt false) (all_below Npts conns) true;
     throat_voronoi := assign_mask (replicate Nt false) (all_from Npts conns) true |}.

End DelaunayVoronoiDual.
(** * Specification-side definitions *)

(** The state a failed registration leaves behind: the mode's reset of the
    caller's own flag array has already happened. *)
Definition after_failed_set_inlets (net : Network) (mode : string) (s : State)
    : State :=
  if clears mode then upd_pore_inlets (replicate (Np net) false) s else s.
Definition after_failed_set_outlets (net : Network) (mode : string) (s : State)
    : State :=
  if clears mode then upd_pore_outlets (replicate (Np net) false) s else s.


(** ** Reasoning about the monad *)

(** [m] maintains [P], whether it returns or raises. *)
Definition keeps {A} (P : State -> Prop) (m : M A) : Prop :=
  forall s, P s -> P (snd (m s)).

(** Every exception [m] can raise satisfies [E]. *)
Definition raises_only {A} (E : exn -> Prop) (m : M A) : Prop :=
  forall s e s', m s = (Raise e, s') -> E e.

(** Total correctness: from a state in [P], [m] returns and establishes [R]. *)
Definition hoare {A} (P : State -> Prop) (m : M A) (R : A -> State -> Prop)
    : Prop :=
  forall s, P s -> exists a s', m s = (Ok a, s') /\ R a s'.

(** Exceptions other than the ones raised with [raise Exception(...)]. *)
Definition not_plain_exception (e : exn) : Prop :=
  forall msg, e <> Exception msg.

(** The flag arrays have one entry per pore. *)
Definition flags_sized (net : Network) (s : State) : Prop :=
  length (pore_inlets s) = Np net /\ length (pore_outlets s) = Np net.

(** The objects a caller can hold after the assignments of [setup]: any
    sequence of [set_inlets], [set_outlets], [run] and [restart_simulation]
    calls, failed ones included, may follow. *)
Inductive configured (net : Network) (sp_sin : Q -> Q) (sp_pi : Q)
    (linear_solve : State -> list Q -> list Q) : State -> Prop :=
| configured_setup : forall s inv def rate cond tol ms,
    configured net sp_sin sp_pi linear_solve
      (snd (setup_body net inv def rate cond tol ms s))
| configured_inlets : forall s Ps mode,
    configured net sp_sin sp_pi linear_solve s ->
    configured net sp_sin sp_pi linear_solve (snd (set_inlets net Ps mode s))
| configured_outlets : forall s Ps mode,
    configured net sp_sin sp_pi linear_solve s ->
    configured net sp_sin sp_pi linear_solve (snd (set_outlets net Ps mode s))
| configured_run : forall s fuel,
    configured net sp_sin sp_pi linear_solve s ->
    configured net sp_sin sp_pi linear_solve
      (snd (run net sp_sin sp_pi linear_solve fuel s))
| configured_restart : forall s max_steps fuel,
    configured net sp_sin sp_pi linear_solve s ->
    configured net sp_sin sp_pi linear_solve
      (snd (restart_simulation net sp_sin sp_pi linear_solve max_steps fuel s)).

(** ** Example data *)

(** A chain of three pores and two throats, all of unit size. *)
Definition chain : Network :=
  mkNetwork 3 2 [(0, 1); (1, 2)]%nat [1; 1; 1] [1; 1] [1; 1] [1; 1].

Definition water : Phase := mkPhase [1; 1; 1] [1; 1].

(** An object on which nothing has been assigned yet. *)
Definition blank : State :=
  mkState [] [] [] [] [] [] [] [] [] [] water water water 0 [] [] [] [] [] 0
    0%Z 0%Z 0 0 0%Z 0 0 0 0 0 0 0 None None 0%Z.

(** The chain after the assignments of [setup], with unit injection rate and
    conductances, tolerance [1e-6] and at most 100 steps. *)
Definition chain_ready : State :=
  Eval vm_compute in
  snd (setup_body chain water water 1 [1; 1] (1 # 1000000) 100%Z blank).

(** Pore 0 registered as inlet, pore 2 as outlet. *)
Definition chain_in_out : State :=
  Eval vm_compute in
  snd (set_outlets chain [2%nat] "add" (snd (set_inlets chain [0%nat] "add" chain_ready))).

(** Stand-ins for the collaborators in the examples: Bhaskara's rational
    approximation of the sine with [22/7] for pi, and a solver that answers
    with a fixed pressure drop of one unit per pore along the chain. *)
Definition approx_pi : Q := 22 # 7.
Definition approx_sin (y : Q) : Q :=
  16 * y * (approx_pi - y) / (5 * approx_pi * approx_pi - 4 * y * (approx_pi - y)).
Definition chain_solve (s : State) (b : list Q) : list Q := [2; 1; 0].

(** ** The step bound of section 4.5.1, in the specification's words *)

(** [cap bound room]: the bound, unless it would overshoot the room left. *)
Definition cap (bound room : Q) : Q := if Qgtb bound room then room else bound.

(** [q] is the flow in the throat (negative: away from the reference pore,
    the lower-indexed one), [m_first] the meniscus nearest the reference pore
    and [m_last] the one farthest from it.  Default 3%; a meniscus moving
    away and past the midpoint may travel 30% unless the other end's meniscus
    is still before the midpoint, and never beyond position 1; symmetrically
    towards the reference pore and position 0. *)
Definition dx_max_policy (q m_first m_last : Q) : Q :=
  if Qltb q 0 && Qgtb m_last 0.50 then
    cap (if Qltb m_first 0.50 then 0.03 else 0.30) (1 - m_last)
  else if Qgtb q 0 && Qltb m_first 0.50 then
    cap (if Qgtb m_last 0.50 then 0.03 else 0.30) m_first
  else 0.03.

(** ** The capillary sum of section 4.4, in the specification's words *)

(** The menisci of a throat in the order in which they are met from the
    reference pore outward: positions are measured from the lower-indexed
    pore, so from the other end the list is read backwards. *)
Definition walk_from (net : Network) (th ref_pore : nat) (s : State) : list Q :=
  if Nat.eqb ref_pore (snd (conns net th))
  then rev (_menisci s !!! th)
  else _menisci s !!! th.

(** [1] for an even count, [-1] for an odd one. *)
Definition alt (n : nat) : Q := if Nat.even n then 1 else -1.

(** The supply factor of a throat as seen from a reference pore.  The
    stored sign is the one seen from the lower-indexed pore; every meniscus
    is a change of phase, so the other end sees the same sign across an even
    number of menisci and the opposite sign across an odd number. *)
Definition supply_seen_from (net : Network) (th ref_pore : nat) (s : State) : Q :=
  if Nat.eqb ref_pore (snd (conns net th))
  then _throat_sup_fact s !!! th * alt (length (_menisci s !!! th))
  else _throat_sup_fact s !!! th.

(** The sign of the first meniscus: opposite to the supply factor of the
    throat as seen from the reference pore. *)
Definition first_sign (net : Network) (th ref_pore : nat) (s : State) : Q :=
  - supply_seen_from net th ref_pore s.

(** [sign * weight m1 - sign * weight m2 + sign * weight m3 - ...]: every
    meniscus contributes with the sign opposite to the one before it. *)
Fixpoint alternating_sum (sign : Q) (weight : Q -> Q) (ms : list Q) : Q :=
  match ms with
  | [] => 0
  | m :: rest => sign * weight m + alternating_sum (- sign) weight rest
  end.

(** ** The conductance mixing of section 4.3, in the specification's words *)

Definition mixed_conductance (base f M : Q) : Q := base * (1 - f + f * M).

(** The mean of a per-pore property over the two endpoint pores of a throat. *)
Definition endpoint_mean (net : Network) (property : list Q) (th : nat) : Q :=
  (property !!! fst (conns net th) + property !!! snd (conns net th)) / 2.

(** The value line 327 stores for a throat, [gdef] being [self._gdef]. *)
Definition stored_conductance (net : Network) (gdef : list Q) (s : State)
    (th : nat) : Q :=
  (1 - throat_inv_frac s !!! th
   + throat_inv_frac s !!! th * viscosity_ratio net th s)
  * (gdef !!! th).

(** The chain during a run, its first throat half invaded: the invading
    phase is two to four times as viscous as the defending one along the
    chain, and the conductances captured by [run] are 2 and 3. *)
Definition syrup : Phase := mkPhase [2; 2; 4] [1; 1].
Definition chain_mixing : State :=
  Eval vm_compute in
  upd_inv_phase syrup
    (upd_throat_inv_frac [1 # 2; 0]
       (upd_gdef (Some [2; 3]) chain_in_out)).

(** ** Breakthrough *)






(** ** Meniscus ordering *)

(** Positions in a throat are listed from the lower-indexed pore outward. *)
Definition ascending (l : list Q) : Prop := Sorted Qle l.

(** Positions are fractions of the throat length. *)
Definition within_throat (l : list Q) : Prop :=
  Forall (fun m => 0 <= m /\ m <= 1) l.

(** What the advance step maintains for a throat with flow [q]: the menisci
    are in order, none lies behind the end the flow comes from. *)
Definition in_flow_range (q : Q) (l : list Q) : Prop :=
  (q <= 0 -> Forall (fun m => 0 <= m) l) /\ (0 <= q -> Forall (fun m => m <= 1) l).
Definition ordered_for (q : Q) (l : list Q) : Prop :=
  StronglySorted Qle l /\ in_flow_range q l.
Definition ordered (s : State) : Prop :=
  forall th, ordered_for (_th_q s !!! th) (_menisci s !!! th).

(** The unit chain after the pressure solve of the first step, and after
    the time step of that round has been computed (it is [0.03]). *)
Definition chain_solved : State :=
  Eval vm_compute in
  snd ((_update_coefficient_matrix chain ;;
        b <- _update_rhs chain approx_sin approx_pi ;;
        solve chain_solve b)
       (upd_gdef (Some (throat_conductance chain_in_out)) chain_in_out)).
Definition chain_timed : State :=
  Eval vm_compute in snd (_calculate_dt chain approx_sin approx_pi chain_solved).

(** The chain with three menisci in its first throat and two in its second,
    both throats carrying a unit flow towards the outlet, and the middle
    pore 99% full, contested and still filling. *)
Definition chain_crowded : State :=
  Eval vm_compute in
  upd_menisci [[1 # 5; 7 # 10; 99 # 100]; [1 # 100; 1 # 2]]
    (upd_throat_contested [true; true]
       (upd_pore_qsum [0; 1; 0]
          (upd_th_q [-1; -1]
             (upd_pore_contested [false; true; false]
                (upd_pore_inv_frac [1; 99 # 100; 0] chain_timed))))).

(** ** Running monadic code to completion *)

(** From [s], [m] returns a value and a state that satisfy [R]. *)
Definition runs_to {A} (m : M A) (s : State) (R : A -> State -> Prop) : Prop :=
  exists a s', m s = (Ok a, s') /\ R a s'.

(** ** The zero-volume throat rule of section 4.6.1 *)

(** [dx] of line 431. *)
Definition throat_shift (net : Network) (dt : Q) (th : nat) (s : State) : Q :=
  (- (_th_q s !!! th / throat_area net !!! th) * dt) / throat_length net !!! th.

(** The pore the flow comes from: the lower-indexed one when the computed
    flow is negative (lines 647-656). *)
Definition upstream_pore (net : Network) (th : nat) (s : State) : nat :=
  if Qltb (_th_q s !!! th) 0 then fst (conns net th) else snd (conns net th).

(** The end of the throat the flow runs to, as a meniscus position. *)
Definition far_boundary (th : nat) (s : State) : Q :=
  if Qltb (_th_q s !!! th) 0 then 1 else 0.

(** The phase of the upstream pore: 1 when it is flagged invaded. *)
Definition zero_vol_phase (net : Network) (th : nat) (s : State) : Q :=
  if (pore_invaded s !!! upstream_pore net th s : bool) then 1 else 0.

(** Position [m] lies at the end the flow runs to, or beyond it. *)
Definition at_far_boundary (th : nat) (s : State) (m : Q) : Prop :=
  if Qltb (_th_q s !!! th) 0 then 1 <= m else m <= 0.

(** What the rounds of the throat loop leave alone: the flows, the invaded
    flags, the tolerance, the array sizes, and the entries of the throats
    that were not [touched]. *)
Definition throats_frame (touched : nat -> Prop) (s0 s : State) : Prop :=
  _th_q s = _th_q s0 /\ pore_invaded s = pore_invaded s0 /\ _sat_tol s = _sat_tol s0
  /\ length (_menisci s) = length (_menisci s0)
  /\ length (throat_inv_frac s) = length (throat_inv_frac s0)
  /\ length (throat_contested s) = length (throat_contested s0)
  /\ forall u, ~ touched u ->
       _menisci s !!! u = _menisci s0 !!! u
       /\ throat_inv_frac s !!! u = throat_inv_frac s0 !!! u
       /\ throat_contested s !!! u = throat_contested s0 !!! u.

(** Every throat of [l] has a meniscus list, and it is not empty. *)
Definition ready (l : list nat) (s : State) : Prop :=
  forall u, In u l -> (u < length (_menisci s))%nat /\ _menisci s !!! u <> [].

(** The state [s'] in which the round of a zero-volume throat [th], started
    in [s] with first meniscus [m0], leaves the throat. *)
Definition zero_vol_outcome (net : Network) (dt : Q) (th : nat) (m0 : Q)
    (s s' : State) : Prop :=
  throat_inv_frac s' !!! th == zero_vol_phase net th s
  /\ (at_far_boundary th s (m0 + throat_shift net dt th s) ->
      _menisci s' !!! th = [far_boundary th s]
      /\ throat_contested s' !!! th = throat_contested s !!! th)
  /\ (~ at_far_boundary th s (m0 + throat_shift net dt th s) ->
      _menisci s' !!! th = [] /\ throat_contested s' !!! th = false).

(** The chain with a first throat of zero volume: registered inlet and
    outlet, as [run] hands it to the outer loop, after the pressure solve of
    the first step, and after the time step of that round has been computed
    (it is [0]). *)
Definition chain_thin : Network :=
  mkNetwork 3 2 [(0, 1); (1, 2)]%nat [1; 1; 1] [0; 1] [1; 1] [1; 1].
Definition thin_in_out : State :=
  Eval vm_compute in
  snd (set_outlets chain_thin [2%nat] "add"
        (snd (set_inlets chain_thin [0%nat] "add"
           (snd (setup_body chain_thin water water 1 [1; 1] (1 # 1000000)
                   100%Z blank))))).
Definition thin_start : State :=
  Eval vm_compute in upd_gdef (Some (throat_conductance thin_in_out)) thin_in_out.
Definition thin_solved : State :=
  Eval vm_compute in
  snd ((_update_coefficient_matrix chain_thin ;;
        b <- _update_rhs chain_thin approx_sin approx_pi ;;
        solve chain_solve b) thin_start).
Definition thin_timed : State :=
  Eval vm_compute in
  snd (_calculate_dt chain_thin approx_sin approx_pi thin_solved).

(** ** The time step *)

(** The first guess of line 355: the time to inject 1% of the network volume. *)
Definition initial_dt (s : State) : Q := _net_vol s / _inj_rate s * 0.01.

(** [s] differs from [s0] in the flow arrays [_th_q] and [_pore_qsum] at most. *)
Definition flows_of (s0 s : State) : Prop :=
  exists q qs, s = upd_th_q q (upd_pore_qsum qs s0).


(** The bound of lines 376-383 for a throat with flow [q] and menisci [men]. *)
Definition travel_bounded (net : Network) (th : nat) (q : Q) (men : list Q)
    (d : Q) : Prop :=
  forall m0 rest, men = m0 :: rest ->
    ~ q / throat_area net !!! th == 0 ->
    d <= dx_max_policy q m0 (List.last rest m0) * throat_length net !!! th
         / Qabs (q / throat_area net !!! th).

(** The bound of lines 412-416 for a pore with net inflow [qsum]. *)
Definition fill_bounded (net : Network) (p : nat) (s : State) (d : Q) : Prop :=
  (Qeqb (pore_volume net !!! p) 0 = true -> d <= 0)
  /\ (~ _pore_qsum s !!! p == 0 ->
      d <= _set_dv_max p (_pore_qsum s !!! p) s * pore_volume net !!! p
           / Qabs (_pore_qsum s !!! p)).

(** What [_calculate_dt] needs of a state. *)
Definition step_ready (net : Network) (s : State) : Prop :=
  0 <= initial_dt s
  /\ length (throat_contested s) = Nt net
  /\ length (pore_contested s) = Np net
  /\ (forall th, In th (sp_where (throat_contested s)) ->
        0 < throat_area net !!! th /\ 0 < throat_length net !!! th
        /\ ascending (_menisci s !!! th) /\ within_throat (_menisci s !!! th))
  /\ (forall p, In p (sp_where (pore_contested s)) ->
        0 <= pore_volume net !!! p
        /\ 0 <= pore_inv_frac s !!! p /\ pore_inv_frac s !!! p <= 1).


(** [s] differs from [s0] in the flow arrays only, [_th_q] has one entry per
    throat, and the entries of the throats [ths] hold the flow that line 372
    computes from [s0]. *)
Definition flows_set (net : Network) (sp_sin : Q -> Q) (sp_pi : Q) (s0 : State)
    (ths : list nat) (s : State) : Prop :=
  flows_of s0 s /\ length (_th_q s) = Nt net
  /\ forall th, In th ths ->
       _th_q s !!! th = throat_flow net sp_sin sp_pi th s0.

(** The chain with its first throat flooded and the middle pore 98% full and
    contested, after the pressure solve; the time step computed from it, and
    the state that computation leaves. *)
Definition chain_filling : State :=
  Eval vm_compute in
  upd_pore_contested [false; true; false]
    (upd_pore_inv_frac [1; 0.98; 0]
       (upd_throat_inv_frac [1; 0]
          (upd_throat_contested [false; false]
             (upd_menisci [[]; []] chain_solved)))).
Definition chain_filling_dt : Q :=
  Eval vm_compute in
  match fst (_calculate_dt chain approx_sin approx_pi chain_filling) with
  | Ok d => d
  | Raise _ => 0
  end.
Definition chain_filling_timed : State :=
  Eval vm_compute in snd (_calculate_dt chain approx_sin approx_pi chain_filling).

(** The time step of the first round on the unit chain. *)
Definition chain_dt : Q :=
  Eval vm_compute in
  match fst (_calculate_dt chain approx_sin approx_pi chain_solved) with
  | Ok d => d
  | Raise _ => 0
  end.

(** ** The contested flags *)

(** A throat is flagged contested exactly when it holds a meniscus. *)
Definition menisci_flagged (s : State) : Prop :=
  length (throat_contested s) = length (_menisci s)
  /\ forall th, (th < length (_menisci s))%nat ->
       (throat_contested s !!! th = true <-> _menisci s !!! th <> []).

(** The chain with a middle pore of no volume; the time step computed on it
    from the state with that pore contested, and the state that leaves. *)
Definition chain_point : Network :=
  mkNetwork 3 2 [(0, 1); (1, 2)]%nat [1; 0; 1] [1; 1] [1; 1] [1; 1].
Definition chain_point_dt : Q :=
  Eval vm_compute in
  match fst (_calculate_dt chain_point approx_sin approx_pi chain_filling) with
  | Ok d => d
  | Raise _ => 1
  end.
Definition chain_point_timed : State :=
  Eval vm_compute in
  snd (_calculate_dt chain_point approx_sin approx_pi chain_filling).

(** ** Throat centroids *)

(** [c] lies in the box spanned by the corners [lo] and [hi]. *)
Definition in_box (lo hi c : throat_centroid.vertex) : Prop :=
  (lo.1.1 <= c.1.1 /\ c.1.1 <= hi.1.1)
  /\ (lo.1.2 <= c.1.2 /\ c.1.2 <= hi.1.2)
  /\ (lo.2 <= c.2 /\ c.2 <= hi.2).

(** Moving a vertex by [d]; equality of vertices as rationals. *)
Definition translate (d v : throat_centroid.vertex) : throat_centroid.vertex :=
  (v.1.1 + d.1.1, v.1.2 + d.1.2, v.2 + d.2).
Definition vertex_eq (a b : throat_centroid.vertex) : Prop :=
  a.1.1 == b.1.1 /\ a.1.2 == b.1.2 /\ a.2 == b.2.

(** The faces of a unit cube at the origin that meet in it, as two throats. *)
Definition cube_faces : list (list throat_centroid.vertex) :=
  [ [(0, 0, 0); (1, 0, 0); (1, 1, 0); (0, 1, 0)];
    [(0, 0, 0); (0, 0, 1); (0, 1, 1); (0, 1, 0)] ].

(** ** The clock of a round *)

(** The state is ready for a step and its clock is that of [s0]. *)
Definition clock_at (net : Network) (s0 s : State) : Prop :=
  step_ready net s /\ initial_dt s = initial_dt s0
  /\ _total_time s = _total_time s0 /\ _zero_dt s = _zero_dt s0.

(** The unit chain after the physics of its first round. *)
Definition chain_stepped : State :=
  Eval vm_compute in
  snd (step_physics chain approx_sin approx_pi chain_solve chain_solved).

(** ** Breakthrough over a run of the loop *)



(** * Properties *)

(** ** Comparisons *)

Lemma Qltb_lt (x y : Q) : Qltb x y = true <-> x < y.
Proof.
  unfold Qltb. rewrite negb_true_iff. split; intros H.
  - apply Qnot_le_lt. intros Hle. apply Qle_bool_iff in Hle. congruence.
  - destruct (Qle_bool y x) eqn:E; [|reflexivity].
    apply Qle_bool_iff in E. exfalso. apply (Qlt_not_le _ _ H E).
Qed.

Lemma Qltb_ge (x y : Q) : Qltb x y = false <-> y <= x.
Proof.
  unfold Qltb. rewrite negb_false_iff. apply Qle_bool_iff.
Qed.

Lemma Qgtb_gt (x y : Q) : Qgtb x y = true <-> y < x.
Proof. apply Qltb_lt. Qed.

Lemma Qgtb_le (x y : Q) : Qgtb x y = false <-> x <= y.
Proof. apply Qltb_ge. Qed.

Lemma Qleb_le (x y : Q) : Qleb x y = true <-> x <= y.
Proof. apply Qle_bool_iff. Qed.

Lemma Qgeb_ge (x y : Q) : Qgeb x y = true <-> y <= x.
Proof. apply Qle_bool_iff. Qed.

Lemma Qeqb_eq (x y : Q) : Qeqb x y = true <-> x == y.
Proof. apply Qeq_bool_iff. Qed.

Lemma Qeqb_neq (x y : Q) : Qeqb x y = false <-> ~ x == y.
Proof.
  split; intros H.
  - intros E. apply Qeqb_eq in E. congruence.
  - destruct (Qeqb x y) eqn:E; [|reflexivity]. apply Qeqb_eq in E. contradiction.
Qed.

Ltac q_reflect :=
  repeat match goal with
         | H : Qltb _ _ = true |- _ => apply Qltb_lt in H
         | H : Qltb _ _ = false |- _ => apply Qltb_ge in H
         | H : Qgtb _ _ = true |- _ => apply Qgtb_gt in H
         | H : Qgtb _ _ = false |- _ => apply Qgtb_le in H
         | H : Qleb _ _ = true |- _ => apply Qleb_le in H
         | H : Qgeb _ _ = true |- _ => apply Qgeb_ge in H
         | H : Qeqb _ _ = true |- _ => apply Qeqb_eq in H
         | H : Qeqb _ _ = false |- _ => apply Qeqb_neq in H
         end.

(** ** Setup *)

(** C1 (the code departs from the claim): [setup] never completes.
    Without an injection rate or without an invading phase it raises the
    configuration error of lines 87 and 90; with both supplied it raises
    [UnboundLocalError] at line 92, before any per-element field has been
    initialised, and the object is left as it was. *)
Theorem setup_never_completes :
  forall (net : Network) (invading_phase : option Phase)
         (injection_rate : option Q) (conductance : list Q) (sat_tol : Q)
         (max_steps : Z) (s : State),
    setup net invading_phase injection_rate conductance sat_tol max_steps s =
    (Raise
       match injection_rate, invading_phase with
       | None, _ => Exception "Error - injection rate must be specified"
       | Some _, None => Exception "Error - Invading phase phase must be specified"
       | Some _, Some _ => UnboundLocalError "defending_phase"
       end, s).
Proof.
  intros net inv rate cond tol ms s.
  unfold setup. destruct rate as [r|]; [|reflexivity].
  destruct inv as [i|]; reflexivity.
Qed.

(** ** Inlet and outlet registration *)

Lemma take_indices_in_range {A} (arr : list A) (Ps : list nat) (s : State) :
  Forall (fun p => (p < length arr)%nat) Ps ->
  exists xs, take_indices arr Ps s = (Ok xs, s)
             /\ Forall2 (fun p x => arr !! p = Some x) Ps xs.
Proof.
  induction 1 as [|p rest Hp _ IH].
  - exists []. split; [reflexivity|constructor].
  - destruct IH as (xs & Hrun & Hxs).
    destruct (lookup_lt_is_Some_2 arr p Hp) as [x Hx].
    exists (x :: xs). split.
    + simpl. rewrite Hx. unfold bind. rewrite Hrun. reflexivity.
    + constructor; assumption.
Qed.

Lemma count_true_pos (xs : list bool) :
  In true xs -> Nat.ltb 0 (count_true xs) = true.
Proof.
  intros Hin. apply Nat.ltb_lt. unfold count_true.
  assert (Hf : In true (List.filter id xs)).
  { apply List.filter_In. split; [assumption|reflexivity]. }
  destruct (List.filter id xs); [destruct Hf|simpl; lia].
Qed.

Lemma picked_overlap (arr : list bool) (Ps : list nat) (xs : list bool) :
  Forall2 (fun p x => arr !! p = Some x) Ps xs ->
  (exists p, In p Ps /\ arr !! p = Some true) ->
  In true xs.
Proof.
  induction 1 as [|p x Ps' xs' Hpx _ IH]; intros (q & Hq & Hset).
  - destruct Hq.
  - destruct Hq as [->|Hq].
    + left. congruence.
    + right. apply IH. exists q. split; assumption.
Qed.

(** C9, amended: when a requested pore (all of them valid indices) already
    has the opposite role, [set_inlets] and [set_outlets] raise their
    configuration error for every mode; the flag array of the opposite role
    is untouched, and so is the caller's own one unless the mode is ['clear']
    or ['overwrite'], in which case it has been reset to all-False before the
    check. *)
Theorem overlap_is_rejected :
  forall (net : Network) (Ps : list nat) (mode : string) (s : State),
    Forall (fun p => (p < length (pore_outlets s))%nat) Ps ->
    Forall (fun p => (p < length (pore_inlets s))%nat) Ps ->
    ((exists p, In p Ps /\ pore_outlets s !! p = Some true) ->
     set_inlets net Ps mode s =
       (Raise (Exception "Some inlets are already defined as outlets"),
        after_failed_set_inlets net mode s)
     /\ pore_outlets (after_failed_set_inlets net mode s) = pore_outlets s
     /\ (clears mode = false ->
         pore_inlets (after_failed_set_inlets net mode s) = pore_inlets s))
    /\
    ((exists p, In p Ps /\ pore_inlets s !! p = Some true) ->
     set_outlets net Ps mode s =
       (Raise (Exception "Some outlets are already defined as inlets"),
        after_failed_set_outlets net mode s)
     /\ pore_inlets (after_failed_set_outlets net mode s) = pore_inlets s
     /\ (clears mode = false ->
         pore_outlets (after_failed_set_outlets net mode s) = pore_outlets s)).
Proof.
  intros net Ps mode s Hout Hin. split; intros Hov.
  - split; [|split].
    + unfold set_inlets, after_failed_set_inlets.
      set (s1 := if clears mode then _ else s).
      assert (Hs1 : pore_outlets s1 = pore_outlets s)
        by (subst s1; destruct (clears mode); reflexivity).
      assert (Hwhen : when (clears mode)
                (modify (upd_pore_inlets (broadcast_pores net false))) s
              = (Ok tt, s1))
        by (subst s1; destruct (clears mode); reflexivity).
      unfold bind at 1. rewrite Hwhen.
      unfold bind at 1. unfold get at 1.
      rewrite Hs1.
      destruct (take_indices_in_range (pore_outlets s) Ps s1 Hout)
        as (xs & Hrun & Hxs).
      unfold bind at 1. rewrite Hrun.
      unfold bind at 1.
      rewrite (count_true_pos xs (picked_overlap _ _ _ Hxs Hov)).
      reflexivity.
    + unfold after_failed_set_inlets. destruct (clears mode); reflexivity.
    + intros Hm. unfold after_failed_set_inlets. rewrite Hm. reflexivity.
  - split; [|split].
    + unfold set_outlets, after_failed_set_outlets.
      set (s1 := if clears mode then _ else s).
      assert (Hs1 : pore_inlets s1 = pore_inlets s)
        by (subst s1; destruct (clears mode); reflexivity).
      assert (Hwhen : when (clears mode)
                (modify (upd_pore_outlets (broadcast_pores net false))) s
              = (Ok tt, s1))
        by (subst s1; destruct (clears mode); reflexivity).
      unfold bind at 1. rewrite Hwhen.
      unfold bind at 1. unfold get at 1.
      rewrite Hs1.
      destruct (take_indices_in_range (pore_inlets s) Ps s1 Hin)
        as (xs & Hrun & Hxs).
      unfold bind at 1. rewrite Hrun.
      unfold bind at 1.
      rewrite (count_true_pos xs (picked_overlap _ _ _ Hxs Hov)).
      reflexivity.
    + unfold after_failed_set_outlets. destruct (clears mode); reflexivity.
    + intros Hm. unfold after_failed_set_outlets. rewrite Hm. reflexivity.
Qed.

(** With pore 0 the inlet and pore 2 the outlet of the chain, asking for
    pore 2 as the only inlet in mode ['overwrite'] fails, and the inlet flag
    of pore 0 is gone. *)
Lemma overwrite_resets_inlets_before_failing :
  fst (set_inlets chain [2%nat] "overwrite" chain_in_out)
    = Raise (Exception "Some inlets are already defined as outlets")
  /\ pore_inlets chain_in_out = [true; false; false]
  /\ pore_inlets (snd (set_inlets chain [2%nat] "overwrite" chain_in_out))
     = [false; false; false].
Proof. vm_compute. repeat split. Qed.

Lemma overlap_is_rejected_witness :
  Forall (fun p => (p < length (pore_outlets chain_in_out))%nat) [2%nat]
  /\ (exists p, In p [2%nat] /\ pore_outlets chain_in_out !! p = Some true)
  /\ set_inlets chain [2%nat] "add" chain_in_out =
       (Raise (Exception "Some inlets are already defined as outlets"),
        after_failed_set_inlets chain "add" chain_in_out).
Proof.
  assert (H1 : Forall (fun p => (p < length (pore_outlets chain_in_out))%nat)
                      [2%nat])
    by (repeat constructor).
  assert (H2 : Forall (fun p => (p < length (pore_inlets chain_in_out))%nat)
                      [2%nat])
    by (repeat constructor).
  assert (H3 : exists p, In p [2%nat] /\ pore_outlets chain_in_out !! p = Some true)
    by (exists 2%nat; split; [left; reflexivity | reflexivity]).
  split; [exact H1|]. split; [exact H3|].
  exact (proj1 (proj1 (overlap_is_rejected chain [2%nat] "add" chain_in_out
                         H1 H2) H3)).
Defined.

(** ** Invariants of monadic code *)

Lemma keeps_ret {A} (P : State -> Prop) (a : A) : keeps P (ret a).
Proof. intros s H. exact H. Qed.

Lemma keeps_raise {A} (P : State -> Prop) (e : exn) : keeps P (@raise A e).
Proof. intros s H. exact H. Qed.

Lemma keeps_get {A} (P : State -> Prop) (proj : State -> A) : keeps P (get proj).
Proof. intros s H. exact H. Qed.

Lemma keeps_load {A} `{Inhabited A} (P : State -> Prop) (proj : State -> list A)
    (i : nat) : keeps P (load proj i).
Proof. intros s Hs. exact Hs. Qed.

Lemma keeps_modify (P : State -> Prop) (f : State -> State) :
  (forall s, P s -> P (f s)) -> keeps P (modify f).
Proof. intros Hf s H. apply Hf, H. Qed.

Lemma keeps_store {A} (P : State -> Prop) (proj : State -> list A)
    (upd : list A -> State -> State) (i : nat) (v : A) :
  (forall s, P s -> P (upd (<[i:=v]> (proj s)) s)) ->
  keeps P (store proj upd i v).
Proof. intros Hf s H. apply Hf, H. Qed.

Lemma keeps_bind {A B} (P : State -> Prop) (m : M A) (k : A -> M B) :
  keeps P m -> (forall a, keeps P (k a)) -> keeps P (bind m k).
Proof.
  intros Hm Hk s H. unfold bind.
  specialize (Hm s H). destruct (m s) as [[a|e] s']; simpl in *.
  - apply Hk, Hm.
  - exact Hm.
Qed.

Lemma keeps_when (P : State -> Prop) (b : bool) (m : M unit) :
  keeps P m -> keeps P (when b m).
Proof. intros Hm. destruct b; [exact Hm|apply keeps_ret]. Qed.

Lemma keeps_for_each {A} (P : State -> Prop) (l : list A) (body : A -> M unit) :
  (forall x, keeps P (body x)) -> keeps P (for_each l body).
Proof.
  intros Hb. induction l as [|x l IH]; simpl.
  - apply keeps_ret.
  - apply keeps_bind; [apply Hb|intros _; exact IH].
Qed.

Lemma keeps_for_fold {A B} (P : State -> Prop) (l : list A) (acc : B)
    (body : B -> A -> M B) :
  (forall acc x, keeps P (body acc x)) -> keeps P (for_fold l acc body).
Proof.
  intros Hb. revert acc. induction l as [|x l IH]; intros acc; simpl.
  - apply keeps_ret.
  - apply keeps_bind; [apply Hb|intros acc'; apply IH].
Qed.

Lemma keeps_py_first {A} (P : State -> Prop) (l : list A) : keeps P (py_first l).
Proof. destruct l; intros s H; exact H. Qed.

Lemma keeps_py_last {A} (P : State -> Prop) (l : list A) : keeps P (py_last l).
Proof. unfold py_last. destruct (last l); intros s H; exact H. Qed.

Lemma keeps_take_indices {A} (P : State -> Prop) (arr : list A) (Ps : list nat) :
  keeps P (take_indices arr Ps).
Proof.
  induction Ps as [|p Ps IH]; simpl.
  - apply keeps_ret.
  - destruct (arr !! p); [|apply keeps_raise].
    apply keeps_bind; [exact IH|intros xs; apply keeps_ret].
Qed.

Lemma keeps_read_local {A} (P : State -> Prop) (name : string) (b : option A) :
  keeps P (read_local name b).
Proof. destruct b; intros s H; exact H. Qed.

(** Splits a goal [keeps P m] along the structure of [m]; what remains are
    the assignments, as goals [forall s, P s -> P (f s)]. *)
Ltac head_of t :=
  lazymatch t with
  | ?f _ => head_of f
  | _ => t
  end.

Ltac keeps_step :=
  lazymatch goal with
  | |- keeps _ (bind _ _) => apply keeps_bind; [|intros ?]
  | |- keeps _ (ret _) => apply keeps_ret
  | |- keeps _ (raise _) => apply keeps_raise
  | |- keeps _ (get _) => apply keeps_get
  | |- keeps _ (load _ _) => apply keeps_load
  | |- keeps _ (modify _) => apply keeps_modify
  | |- keeps _ (store _ _ _ _) => apply keeps_store
  | |- keeps _ (when _ _) => apply keeps_when
  | |- keeps _ (for_each _ _) => apply keeps_for_each; intros ?
  | |- keeps _ (for_fold _ _ _) => apply keeps_for_fold; intros ? ?
  | |- keeps _ (py_first _) => apply keeps_py_first
  | |- keeps _ (py_last _) => apply keeps_py_last
  | |- keeps _ (take_indices _ _) => apply keeps_take_indices
  | |- keeps _ (read_local _ _) => apply keeps_read_local
  | |- keeps _ (if ?b then _ else _) => destruct b
  | |- keeps _ (match ?x with _ => _ end) => destruct x
  | |- keeps _ (let _ := _ in _) => cbv zeta
  | |- keeps _ ?m => let h := head_of m in unfold h
  end.

Ltac keeps_split := repeat keeps_step.

(** *** The flag arrays keep their size *)

Lemma put_indices_length {A} (arr : list A) (Ps : list nat) (v : A) :
  length (put_indices arr Ps v) = length arr.
Proof.
  unfold put_indices. revert arr. induction Ps as [|p Ps IH]; intros arr; simpl.
  - reflexivity.
  - rewrite IH. apply length_insert.
Qed.

Ltac flags_sized_tac :=
  lazymatch goal with
  | |- forall s, flags_sized _ s -> flags_sized _ _ =>
      let s := fresh "s" in
      let H1 := fresh "H" in
      let H2 := fresh "H" in
      intros s [H1 H2]; split; simpl; unfold broadcast_pores;
      rewrite ?put_indices_length, ?length_replicate; solve [assumption | reflexivity]
  end.

Section FlagsSized.
Variable net : Network.
Variable sp_sin : Q -> Q.
Variable sp_pi : Q.
Variable linear_solve : State -> list Q -> list Q.

Lemma set_inlets_flags_sized (Ps : list nat) (mode : string) :
  keeps (flags_sized net) (set_inlets net Ps mode).
Proof. keeps_split; flags_sized_tac. Qed.

Lemma set_outlets_flags_sized (Ps : list nat) (mode : string) :
  keeps (flags_sized net) (set_outlets net Ps mode).
Proof. keeps_split; flags_sized_tac. Qed.

Lemma outer_loop_flags_sized (fuel : nat) :
  keeps (flags_sized net) (outer_loop net sp_sin sp_pi linear_solve fuel).
Proof.
  induction fuel as [|fuel IH]; simpl.
  - apply keeps_ret.
  - apply keeps_bind; [|intros b; destruct b; [apply keeps_ret|exact IH]].
    keeps_split; flags_sized_tac.
Qed.

Lemma run_flags_sized (fuel : nat) :
  keeps (flags_sized net) (run net sp_sin sp_pi linear_solve fuel).
Proof.
  unfold run, _do_outer_iteration_stage.
  repeat (first [apply outer_loop_flags_sized | keeps_step]); flags_sized_tac.
Qed.

Lemma restart_flags_sized (max_steps : Z) (fuel : nat) :
  keeps (flags_sized net)
        (restart_simulation net sp_sin sp_pi linear_solve max_steps fuel).
Proof.
  unfold restart_simulation, _do_outer_iteration_stage.
  repeat (first [apply outer_loop_flags_sized | keeps_step]); flags_sized_tac.
Qed.

Lemma configured_flags_sized (s : State) :
  configured net sp_sin sp_pi linear_solve s -> flags_sized net s.
Proof.
  induction 1 as [s inv def rate cond tol ms | s Ps mode _ IH | s Ps mode _ IH
                 | s fuel _ IH | s ms fuel _ IH].
  - split; simpl; apply length_replicate.
  - apply set_inlets_flags_sized, IH.
  - apply set_outlets_flags_sized, IH.
  - apply run_flags_sized, IH.
  - apply restart_flags_sized, IH.
Qed.

End FlagsSized.

(** ** Which exceptions can be raised *)

Lemma ro_ret {A} (E : exn -> Prop) (a : A) : raises_only E (ret a).
Proof. intros s e s' H. discriminate. Qed.

Lemma ro_raise {A} (E : exn -> Prop) (e : exn) : E e -> raises_only E (@raise A e).
Proof. intros He s e' s' H. inversion H. subst. exact He. Qed.

Lemma ro_get {A} (E : exn -> Prop) (proj : State -> A) : raises_only E (get proj).
Proof. intros s e s' H. discriminate. Qed.

Lemma ro_load {A} `{Inhabited A} (E : exn -> Prop) (proj : State -> list A)
    (i : nat) : raises_only E (load proj i).
Proof. intros s e s' Hr. discriminate. Qed.

Lemma ro_modify (E : exn -> Prop) (f : State -> State) : raises_only E (modify f).
Proof. intros s e s' H. discriminate. Qed.

Lemma ro_store {A} (E : exn -> Prop) (proj : State -> list A)
    (upd : list A -> State -> State) (i : nat) (v : A) :
  raises_only E (store proj upd i v).
Proof. intros s e s' H. discriminate. Qed.

Lemma ro_bind {A B} (E : exn -> Prop) (m : M A) (k : A -> M B) :
  raises_only E m -> (forall a, raises_only E (k a)) -> raises_only E (bind m k).
Proof.
  intros Hm Hk s e s' H. unfold bind in H.
  destruct (m s) as [[a|e0] s0] eqn:Em.
  - exact (Hk a s0 e s' H).
  - inversion H. subst. exact (Hm s e s' Em).
Qed.

Lemma ro_when (E : exn -> Prop) (b : bool) (m : M unit) :
  raises_only E m -> raises_only E (when b m).
Proof. intros Hm. destruct b; [exact Hm|apply ro_ret]. Qed.

Lemma ro_for_each {A} (E : exn -> Prop) (l : list A) (body : A -> M unit) :
  (forall x, raises_only E (body x)) -> raises_only E (for_each l body).
Proof.
  intros Hb. induction l as [|x l IH]; simpl.
  - apply ro_ret.
  - apply ro_bind; [apply Hb|intros _; exact IH].
Qed.

Lemma ro_for_fold {A B} (E : exn -> Prop) (l : list A) (acc : B)
    (body : B -> A -> M B) :
  (forall acc x, raises_only E (body acc x)) -> raises_only E (for_fold l acc body).
Proof.
  intros Hb. revert acc. induction l as [|x l IH]; intros acc; simpl.
  - apply ro_ret.
  - apply ro_bind; [apply Hb|intros acc'; apply IH].
Qed.

Lemma ro_py_first {A} (E : exn -> Prop) (l : list A) :
  E IndexError -> raises_only E (py_first l).
Proof. intros He. destruct l; [apply ro_raise, He|apply ro_ret]. Qed.

Lemma ro_py_last {A} (E : exn -> Prop) (l : list A) :
  E IndexError -> raises_only E (py_last l).
Proof.
  intros He. unfold py_last. destruct (last l); [apply ro_ret|apply ro_raise, He].
Qed.

Ltac ro_step :=
  lazymatch goal with
  | |- raises_only _ (bind _ _) => apply ro_bind; [|intros ?]
  | |- raises_only _ (ret _) => apply ro_ret
  | |- raises_only _ (raise _) => apply ro_raise
  | |- raises_only _ (get _) => apply ro_get
  | |- raises_only _ (load _ _) => apply ro_load
  | |- raises_only _ (modify _) => apply ro_modify
  | |- raises_only _ (store _ _ _ _) => apply ro_store
  | |- raises_only _ (when _ _) => apply ro_when
  | |- raises_only _ (for_each _ _) => apply ro_for_each; intros ?
  | |- raises_only _ (for_fold _ _ _) => apply ro_for_fold; intros ? ?
  | |- raises_only _ (py_first _) => apply ro_py_first
  | |- raises_only _ (py_last _) => apply ro_py_last
  | |- raises_only _ (if ?b then _ else _) => destruct b
  | |- raises_only _ (match ?x with _ => _ end) => destruct x
  | |- raises_only _ (let _ := _ in _) => cbv zeta
  | |- raises_only _ ?m => let h := head_of m in unfold h
  end.

(** ** The guards of [run] *)

Section RunGuards.
Variable net : Network.
Variable sp_sin : Q -> Q.
Variable sp_pi : Q.
Variable linear_solve : State -> list Q -> list Q.

Lemma outer_loop_raises (fuel : nat) :
  raises_only not_plain_exception (outer_loop net sp_sin sp_pi linear_solve fuel).
Proof.
  induction fuel as [|fuel IH]; simpl.
  - apply ro_ret.
  - apply ro_bind; [|intros b; destruct b; [apply ro_ret|exact IH]].
    repeat ro_step; intros msg; discriminate.
Qed.

End RunGuards.

(** C10: on a network with at least one pore, once the assignments of
    [setup] have been made, [run] never raises 'Inlet pores have not been
    specified' nor 'Outlet pores have not been specified', whether or not
    [set_inlets] and [set_outlets] were called: both guards look at the
    length of a flag array, which is the number of pores. *)
Theorem run_guards_never_fire :
  forall (net : Network) (sp_sin : Q -> Q) (sp_pi : Q)
         (linear_solve : State -> list Q -> list Q)
         (fuel : nat) (s s' : State) (e : exn),
    configured net sp_sin sp_pi linear_solve s ->
    (0 < Np net)%nat ->
    run net sp_sin sp_pi linear_solve fuel s = (Raise e, s') ->
    e <> Exception "Inlet pores have not been specified"
    /\ e <> Exception "Outlet pores have not been specified".
Proof.
  intros net sp_sin sp_pi linear_solve fuel s s' e Hc Hnp Hrun.
  destruct (configured_flags_sized _ _ _ _ _ Hc) as [Hin Hout].
  assert (He : not_plain_exception e).
  { revert Hrun. unfold run.
    unfold bind at 1. unfold get at 1.
    replace (Nat.eqb (length (pore_inlets s)) 0) with false
      by (symmetry; apply Nat.eqb_neq; lia).
    unfold bind at 1. unfold when at 1, ret at 1.
    unfold bind at 1. unfold get at 1.
    replace (Nat.eqb (length (pore_outlets s)) 0) with false
      by (symmetry; apply Nat.eqb_neq; lia).
    unfold bind at 1. unfold when at 1, ret at 1.
    intros Hrun.
    refine (_ s e s' Hrun).
    change (raises_only not_plain_exception
      (modify (fun s0 => upd_gdef (Some (throat_conductance s0)) s0) ;;
       tot_vol <- get (fun s0 =>
         sp_sum (sp_multiply (pore_volume net) (pore_inv_frac s0))
         + sp_sum (sp_multiply (throat_volume net) (throat_inv_frac s0))) ;;
       modify (fun s0 => upd_total_time (tot_vol / _inj_rate s0) s0) ;;
       _do_outer_iteration_stage net sp_sin sp_pi linear_solve fuel)).
    unfold _do_outer_iteration_stage.
    repeat (first [apply outer_loop_raises | ro_step]). }
  split; apply He.
Qed.

Lemma run_guards_never_fire_witness :
  (0 < Np chain)%nat
  /\ run chain approx_sin approx_pi chain_solve 1 chain_ready
     = (Raise (AttributeError "_outlets"),
        snd (run chain approx_sin approx_pi chain_solve 1 chain_ready))
  /\ AttributeError "_outlets" <> Exception "Inlet pores have not been specified"
  /\ AttributeError "_outlets" <> Exception "Outlet pores have not been specified".
Proof.
  assert (Hnp : (0 < Np chain)%nat) by (simpl; lia).
  assert (Hrun : run chain approx_sin approx_pi chain_solve 1 chain_ready
     = (Raise (AttributeError "_outlets"),
        snd (run chain approx_sin approx_pi chain_solve 1 chain_ready)))
    by (vm_compute; reflexivity).
  split; [exact Hnp|]. split; [exact Hrun|].
  exact (run_guards_never_fire chain approx_sin approx_pi chain_solve 1
           chain_ready _ _
           (configured_setup chain approx_sin approx_pi chain_solve
              blank water water 1 [1; 1] (1 # 1000000) 100%Z)
           Hnp Hrun).
Defined.

(** ** The step bound [dx_max] *)

Lemma last_default {A} (l : list A) (x y : A) :
  List.last (y :: l) x = List.last l y.
Proof.
  revert x y. induction l as [|z l IH]; intros x y; [reflexivity|].
  change (List.last (y :: z :: l) x) with (List.last (z :: l) x).
  rewrite (IH x z), (IH y z). reflexivity.
Qed.

Lemma last_cons_some {A} (x : A) (l : list A) :
  last (x :: l) = Some (List.last l x).
Proof.
  revert x. induction l as [|y l IH]; intros x; [reflexivity|].
  change (last (x :: y :: l)) with (last (y :: l)).
  rewrite IH, last_default. reflexivity.
Qed.

Lemma py_last_cons {A} (x : A) (l : list A) (s : State) :
  py_last (x :: l) s = (Ok (List.last l x), s).
Proof. unfold py_last. rewrite last_cons_some. reflexivity. Qed.

Lemma cap_le_room (bound room : Q) : cap bound room <= room.
Proof.
  unfold cap. destruct (Qgtb bound room) eqn:E; q_reflect; lra.
Qed.

Lemma cap_le_bound (bound room : Q) : cap bound room <= bound.
Proof.
  unfold cap. destruct (Qgtb bound room) eqn:E; q_reflect; lra.
Qed.

(** C6: for a throat with menisci [m_first :: rest], [_set_dx_max] returns
    the bound of section 4.5.1 and changes nothing (on an empty list it raises
    [IndexError]).  The bound is 0.03 by default; with the flow away from the
    reference pore and the far meniscus past 0.50 it is 0.30, or 0.03 when the
    near meniscus is still before 0.50, and never more than the room left
    before position 1; with the flow towards the reference pore and the near
    meniscus before 0.50 it is 0.30, or 0.03 when the far meniscus is past
    0.50, and never more than the room left before position 0. *)
Theorem set_dx_max_policy :
  forall (th : nat) (s : State),
    _set_dx_max th s =
      (match _menisci s !!! th with
       | [] => Raise IndexError
       | m_first :: rest =>
           Ok (dx_max_policy (_th_q s !!! th) m_first (List.last rest m_first))
       end, s)
    /\ (forall m_first rest,
          _menisci s !!! th = m_first :: rest ->
          let q := _th_q s !!! th in
          let m_last := List.last rest m_first in
          let dx_max := dx_max_policy q m_first m_last in
          (q < 0 -> 0.50 < m_last ->
             dx_max == Qmin (if Qltb m_first 0.50 then 0.03 else 0.30) (1 - m_last)
             /\ m_last + dx_max <= 1)
          /\ (0 < q -> m_first < 0.50 ->
             dx_max == Qmin (if Qgtb m_last 0.50 then 0.03 else 0.30) m_first
             /\ 0 <= m_first - dx_max)
          /\ (~ (q < 0 /\ 0.50 < m_last) -> ~ (0 < q /\ m_first < 0.50) ->
             dx_max = 0.03)).
Proof.
  intros th s. split.
  - unfold _set_dx_max, bind, load, get. simpl.
    destruct (_menisci s !!! th) as [|m0 rest] eqn:Emen.
    + destruct (Qltb (_th_q s !!! th) 0); reflexivity.
    + assert (Hx : (if Qltb (_th_q s !!! th) 0
                    then py_last (m0 :: rest) else py_first (m0 :: rest)) s
                   = (Ok (if Qltb (_th_q s !!! th) 0
                          then List.last rest m0 else m0), s)).
      { destruct (Qltb (_th_q s !!! th) 0); [apply py_last_cons|reflexivity]. }
      rewrite Hx. unfold dx_max_policy, cap.
      destruct (Qltb (_th_q s !!! th) 0) eqn:Eq.
      * simpl. destruct (Qgtb (List.last rest m0) 0.50) eqn:Ex; [reflexivity|].
        assert (Hq : Qgtb (_th_q s !!! th) 0 = false)
          by (apply Qgtb_le; q_reflect; lra).
        rewrite Hq. reflexivity.
      * simpl. destruct (Qgtb (_th_q s !!! th) 0) eqn:Eq'; simpl; [|reflexivity].
        destruct (Qltb m0 0.50) eqn:Ex; [|reflexivity].
        rewrite py_last_cons. reflexivity.
  - intros m0 rest Emen q m_last dx_max. subst dx_max. unfold dx_max_policy.
    split; [|split].
    + intros Hq Hm.
      apply Qltb_lt in Hq. rewrite Hq.
      assert (Hm' : Qgtb m_last 0.50 = true) by (apply Qgtb_gt; exact Hm).
      rewrite Hm'. simpl. split.
      * unfold cap.
        destruct (Qgtb (if Qltb m0 0.50 then 0.03 else 0.30) (1 - m_last)) eqn:E;
          q_reflect.
        -- rewrite Q.min_r; [reflexivity|lra].
        -- rewrite Q.min_l; [reflexivity|lra].
      * pose proof (cap_le_room (if Qltb m0 0.50 then 0.03 else 0.30) (1 - m_last)).
        lra.
    + intros Hq Hm.
      assert (Hq1 : Qltb q 0 = false) by (apply Qltb_ge; lra).
      rewrite Hq1. simpl.
      apply Qgtb_gt in Hq. rewrite Hq.
      apply Qltb_lt in Hm. rewrite Hm. simpl. split.
      * unfold cap.
        destruct (Qgtb (if Qgtb m_last 0.50 then 0.03 else 0.30) m0) eqn:E;
          q_reflect.
        -- rewrite Q.min_r; [reflexivity|lra].
        -- rewrite Q.min_l; [reflexivity|lra].
      * pose proof (cap_le_room (if Qgtb m_last 0.50 then 0.03 else 0.30) m0).
        lra.
    + intros H1 H2.
      destruct (Qltb q 0 && Qgtb m_last 0.50) eqn:E1.
      { exfalso. apply H1. apply andb_true_iff in E1. destruct E1.
        q_reflect. split; assumption. }
      destruct (Qgtb q 0 && Qltb m0 0.50) eqn:E2.
      { exfalso. apply H2. apply andb_true_iff in E2. destruct E2.
        q_reflect. split; assumption. }
      reflexivity.
Qed.

(** ** The capillary sum *)

Lemma alternating_sum_sign (sign sign' : Q) (weight : Q -> Q) (ms : list Q) :
  sign == sign' ->
  alternating_sum sign weight ms == alternating_sum sign' weight ms.
Proof.
  revert sign sign'. induction ms as [|m ms IH]; intros sign sign' E; simpl.
  - reflexivity.
  - rewrite (IH (- sign) (- sign')) by (rewrite E; reflexivity).
    rewrite E. reflexivity.
Qed.

Section CapillarySum.
Variable sp_sin : Q -> Q.
Variable sp_pi : Q.

Lemma fpcap_fold (max_pc : Q) (ms : list Q) (acc : Q * Q) :
  fst (fold_left (fpcap_step sp_sin sp_pi max_pc) ms acc)
  == fst acc + alternating_sum (snd acc) (fun m => sp_sin (sp_pi * m) * max_pc) ms.
Proof.
  revert acc. induction ms as [|m ms IH]; intros acc.
  - simpl. lra.
  - change (fold_left (fpcap_step sp_sin sp_pi max_pc) (m :: ms) acc)
      with (fold_left (fpcap_step sp_sin sp_pi max_pc) ms
              (fpcap_step sp_sin sp_pi max_pc acc m)).
    rewrite (IH (fpcap_step sp_sin sp_pi max_pc acc m)).
    unfold fpcap_step, _pc_func. simpl.
    rewrite (alternating_sum_sign (snd acc * -1) (- snd acc)) by lra.
    lra.
Qed.

End CapillarySum.

Lemma alt_succ (n : nat) : alt (S n) = - alt n.
Proof.
  unfold alt. rewrite Nat.even_succ, <- Nat.negb_even.
  destruct (Nat.even n); reflexivity.
Qed.

Lemma alt_square (n : nat) : alt n * alt n == 1.
Proof. unfold alt. destruct (Nat.even n); reflexivity. Qed.

Lemma power_alt (n : nat) : Qpower (-1) (Z.of_nat n) == alt n.
Proof.
  induction n as [|n IH]; [reflexivity|].
  rewrite Nat2Z.inj_succ. unfold Z.succ.
  rewrite Qpower_plus by discriminate. rewrite IH, alt_succ.
  change (Qpower (-1) 1) with (-1). ring.
Qed.

Lemma supply_fact_seen (net : Network) (th ref_pore : nat) (s : State) :
  supply_fact net ref_pore s th == supply_seen_from net th ref_pore s.
Proof.
  unfold supply_fact, supply_seen_from. cbv zeta.
  destruct (Nat.eqb ref_pore (snd (conns net th))); [|reflexivity].
  rewrite power_alt. reflexivity.
Qed.

(** C5: [_sum_fpcap] of a throat and a reference pore is the sum, over the
    menisci walked from the reference pore's end outward, of
    [s_i * sin(pi * m_i) * max_pc[throat]]; the first sign is the opposite
    of the throat's supply factor seen from the reference pore (the stored
    sign from the lower-indexed pore; from the other pore the stored sign
    for an even number of menisci and its opposite for an odd number), and
    every later sign is the opposite of the one before. *)
Theorem sum_fpcap_alternates :
  forall (net : Network) (sp_sin : Q -> Q) (sp_pi : Q)
         (th ref_pore : nat) (s : State),
    _sum_fpcap net sp_sin sp_pi th ref_pore s
    == alternating_sum (first_sign net th ref_pore s)
         (fun m => sp_sin (sp_pi * m) * (_max_pc s !!! th))
         (walk_from net th ref_pore s).
Proof.
  intros net sp_sin sp_pi th ref_pore s.
  unfold _sum_fpcap. rewrite fpcap_fold.
  unfold walk_from, first_sign, _get_supply_facts. simpl.
  unfold conns.
  rewrite (alternating_sum_sign (-1 * supply_fact net ref_pore s th)
                                (- supply_seen_from net th ref_pore s))
    by (rewrite supply_fact_seen; ring).
  lra.
Qed.

(** ** The conductance update *)

Lemma upd_throat_conductance_same (s : State) :
  upd_throat_conductance (throat_conductance s) s = s.
Proof. destruct s. reflexivity. Qed.

Lemma update_conductance_run (net : Network) (gdef : list Q) (th : nat)
    (s : State) :
  _gdef s = Some gdef ->
  update_conductance net th s
  = (Ok tt,
     upd_throat_conductance
       (<[th := stored_conductance net gdef s th]> (throat_conductance s)) s).
Proof.
  intros Hg.
  cbv beta iota zeta delta [update_conductance read_gdef bind load store get
                            modify ret].
  rewrite Hg. reflexivity.
Qed.

Lemma update_conductance_loop (net : Network) (gdef : list Q) (s : State)
    (l : list nat) :
  _gdef s = Some gdef ->
  forall c : list Q,
    for_each l (update_conductance net) (upd_throat_conductance c s)
    = (Ok tt,
       upd_throat_conductance
         (fold_left (fun c th => <[th := stored_conductance net gdef s th]> c) l c)
         s).
Proof.
  intros Hg. induction l as [|th l IH]; intros c.
  - reflexivity.
  - simpl. unfold bind at 1.
    rewrite (update_conductance_run net gdef th (upd_throat_conductance c s))
      by exact Hg.
    apply IH.
Qed.

Lemma fold_insert_lookup (v : nat -> Q) (l : list nat) :
  forall (c : list Q) (th : nat),
    (th < length c)%nat ->
    fold_left (fun c th => <[th := v th]> c) l c !!! th
    = if in_dec Nat.eq_dec th l then v th else c !!! th.
Proof.
  induction l as [|x l IH]; intros c th Hlen.
  - reflexivity.
  - simpl fold_left. rewrite IH by (rewrite length_insert; exact Hlen).
    destruct (in_dec Nat.eq_dec th l) as [Hin|Hnin];
      destruct (in_dec Nat.eq_dec th (x :: l)) as [Hin'|Hnin'].
    + reflexivity.
    + exfalso. apply Hnin'. right. exact Hin.
    + destruct Hin' as [->|Hin']; [|contradiction].
      apply list_lookup_total_insert_eq. exact Hlen.
    + apply list_lookup_total_insert_ne. intros ->. apply Hnin'. left. reflexivity.
Qed.

(** C4: during a run ([self._gdef] holds the base conductances [gdef] that
    [run] captured at line 220, one for the throat at least),
    [_update_coefficient_matrix] returns, and afterwards the conductance of
    every throat is [base * (1 - f + f*M)], with [base] the throat's entry of
    [gdef], [f] the throat's [inv_frac] and [M] the ratio of the defending
    to the invading viscosity, each the mean over the two endpoint pores
    (the invading mean not being zero); at [f = 0] this is [base] and at
    [f = 1] it is [base * M].  Nothing but the conductance array changes. *)
Theorem conductance_is_mixed :
  forall (net : Network) (th : nat) (s : State) (gdef : list Q),
    _gdef s = Some gdef ->
    (th < Nt net)%nat ->
    (th < length gdef)%nat ->
    (th < length (throat_conductance s))%nat ->
    ~ endpoint_mean net (pore_viscosity (_inv_phase s)) th == 0 ->
    let base := gdef !!! th in
    let f := throat_inv_frac s !!! th in
    let M := endpoint_mean net (pore_viscosity (_def_phase s)) th
             / endpoint_mean net (pore_viscosity (_inv_phase s)) th in
    exists conductance,
      _update_coefficient_matrix net s
        = (Ok tt, upd_throat_conductance conductance s)
      /\ conductance !!! th == mixed_conductance base f M
      /\ (f == 0 -> conductance !!! th == base)
      /\ (f == 1 -> conductance !!! th == base * M).
Proof.
  intros net th s gdef Hg Hth _ Hlen Hvisc base f M.
  exists (fold_left (fun c th => <[th := stored_conductance net gdef s th]> c)
                    (seq 0 (Nt net)) (throat_conductance s)).
  assert (Hval : fold_left
                   (fun c th => <[th := stored_conductance net gdef s th]> c)
                   (seq 0 (Nt net)) (throat_conductance s) !!! th
                 = stored_conductance net gdef s th).
  { rewrite fold_insert_lookup by exact Hlen.
    destruct (in_dec Nat.eq_dec th (seq 0 (Nt net))) as [_|Hn]; [reflexivity|].
    exfalso. apply Hn. apply in_seq. lia. }
  assert (Hmix : stored_conductance net gdef s th == mixed_conductance base f M).
  { unfold stored_conductance, mixed_conductance, viscosity_ratio, average2,
      endpoint_mean. subst base f M. unfold endpoint_mean. ring. }
  split; [|split; [|split]].
  - unfold _update_coefficient_matrix.
    rewrite <- (upd_throat_conductance_same s) at 1.
    apply update_conductance_loop. exact Hg.
  - rewrite Hval. exact Hmix.
  - intros Hf. rewrite Hval, Hmix. unfold mixed_conductance. rewrite Hf. ring.
  - intros Hf. rewrite Hval, Hmix. unfold mixed_conductance. rewrite Hf. ring.
Qed.

(** On the chain with its first throat half invaded by a phase twice as
    viscous as the defending one there ([M = 1/2]) and a base conductance of
    2, the update stores [2 * (1 - 1/2 + 1/2 * 1/2) = 3/2]. *)
Lemma conductance_is_mixed_witness :
  exists conductance,
    _update_coefficient_matrix chain chain_mixing
      = (Ok tt, upd_throat_conductance conductance chain_mixing)
    /\ conductance !!! 0%nat == mixed_conductance 2 (1 # 2) (1 / 2)
    /\ conductance !!! 0%nat == 3 # 2.
Proof.
  assert (H1 : (0 < Nt chain)%nat) by (simpl; lia).
  assert (H2 : (0 < length [2; 3])%nat) by (simpl; lia).
  assert (H3 : (0 < length (throat_conductance chain_mixing))%nat)
    by (simpl; lia).
  assert (H4 : ~ endpoint_mean chain (pore_viscosity (_inv_phase chain_mixing)) 0
                 == 0)
    by (vm_compute; discriminate).
  destruct (conductance_is_mixed chain 0 chain_mixing [2; 3] eq_refl H1 H2 H3 H4)
    as (c & Hrun & Hmix & _).
  exists c. split; [exact Hrun|].
  assert (E : mixed_conductance ([2; 3] !!! 0%nat)
                (throat_inv_frac chain_mixing !!! 0%nat)
                (endpoint_mean chain (pore_viscosity (_def_phase chain_mixing)) 0
                 / endpoint_mean chain (pore_viscosity (_inv_phase chain_mixing)) 0)
              == mixed_conductance 2 (1 # 2) (1 / 2))
    by (vm_compute; reflexivity).
  split; [rewrite Hmix; exact E|].
  rewrite Hmix, E. vm_compute. reflexivity.
Defined.

(** ** Breakthrough is recorded once *)



Section Breakthrough.
Variable net : Network.
Variable sp_sin : Q -> Q.
Variable sp_pi : Q.
Variable linear_solve : State -> list Q -> list Q.






(** The decision to leave the loop (lines 288-293). *)
Lemma outer_iteration_exit (s s' : State) (done : bool) :
  outer_iteration net sp_sin sp_pi linear_solve s = (Ok done, s') ->
  exists s1,
    (step_physics net sp_sin sp_pi linear_solve ;; record_break_through) s
      = (Ok tt, s1)
    /\ done = steady_state s1 || max_steps_reached s1
    /\ s' = if done then s1 else upd_ts_num (_ts_num s1 + 1)%Z s1.
Proof.
  unfold outer_iteration, bind.
  destruct (step_physics net sp_sin sp_pi linear_solve s) as [[[]|e] s0];
    [|discriminate].
  destruct (record_break_through s0) as [[[]|e] s1]; [|discriminate].
  unfold get, modify, ret.
  destruct (steady_state s1) eqn:Es; [|destruct (max_steps_reached s1) eqn:Em];
    intros H; injection H as <- <-; exists s1; rewrite ?Es, ?Em; auto.
Qed.

End Breakthrough.

(** ** Meniscus ordering through the advance step *)

(** Projections through the field updates. *)
Ltac record_simpl :=
  cbn [pore_inlets pore_outlets throat_entry_pressure pore_inv_frac
       throat_inv_frac pore_contested throat_contested pore_invaded
       throat_conductance pore_pressure _phase _inv_phase _def_phase
       _inj_rate _th_q _pore_qsum _max_pc _menisci _throat_sup_fact _sat_tol
       _max_steps _ts_num _total_time break_through_time break_through_steps
       _net_vol _total_def_out _total_inv_out _def_out_rate _inv_out_rate
       _def_out _inv_out _gdef _outlets _zero_dt upd_pore_inlets
       upd_pore_outlets upd_throat_entry_pressure upd_pore_inv_frac
       upd_throat_inv_frac upd_pore_contested upd_throat_contested
       upd_pore_invaded upd_throat_conductance upd_pore_pressure
       upd_inv_phase upd_def_phase upd_inj_rate upd_th_q upd_pore_qsum
       upd_max_pc upd_menisci upd_throat_sup_fact upd_sat_tol upd_max_steps
       upd_ts_num upd_total_time upd_break_through_time
       upd_break_through_steps upd_net_vol upd_total_def_out
       upd_total_inv_out upd_def_out_rate upd_inv_out_rate upd_def_out
       upd_inv_out upd_gdef upd_outlets upd_zero_dt].

(** Runs the straight-line part of a monadic term. *)
Ltac msimpl := cbv beta iota zeta delta [bind load store get modify ret when]; record_simpl.

Lemma advance_zero_vol_throat_run (net : Network) (th : nat) (s : State) :
  _advance_zero_vol_throat net th s =
    (Ok tt,
     if Qltb (_th_q s !!! th) 0 return State then
       upd_throat_inv_frac
         (<[th := if (pore_invaded s !!! fst (conns net th) : bool) then 1 else 0]>
            (throat_inv_frac s))
         (upd_menisci (<[th := [1]]> (_menisci s)) s)
     else
       upd_throat_inv_frac
         (<[th := if (pore_invaded s !!! snd (conns net th) : bool) then 1 else 0]>
            (throat_inv_frac s))
         (upd_menisci (<[th := [0]]> (_menisci s)) s)).
Proof.
  unfold _advance_zero_vol_throat. msimpl.
  destruct (Qltb (_th_q s !!! th) 0); msimpl.
  - destruct (pore_invaded s !!! fst (conns net th)); reflexivity.
  - destruct (pore_invaded s !!! snd (conns net th)); reflexivity.
Qed.

Lemma bind_load {A B} `{Inhabited A} (proj : State -> list A) (i : nat)
    (k : A -> M B) (s : State) :
  bind (load proj i) k s = k (proj s !!! i) s.
Proof. reflexivity. Qed.

Lemma bind_get {A B} (proj : State -> A) (k : A -> M B) (s : State) :
  bind (get proj) k s = k (proj s) s.
Proof. reflexivity. Qed.

Lemma bind_store {A B} (proj : State -> list A) (upd : list A -> State -> State)
    (i : nat) (v : A) (k : unit -> M B) (s : State) :
  bind (store proj upd i v) k s = k tt (upd (<[i:=v]> (proj s)) s).
Proof. reflexivity. Qed.

Lemma keeps_for_each_in {A} (P : State -> Prop) (l : list A) (body : A -> M unit) :
  (forall x, In x l -> keeps P (body x)) -> keeps P (for_each l body).
Proof.
  induction l as [|x l IH]; intros Hb; simpl.
  - apply keeps_ret.
  - apply keeps_bind; [apply Hb; left; reflexivity|].
    intros _. apply IH. intros y Hy. apply Hb. right. exact Hy.
Qed.

Lemma ordered_for_one (q : Q) : ordered_for q [1].
Proof.
  repeat split; intros; repeat constructor; discriminate.
Qed.

Lemma ordered_for_zero (q : Q) : ordered_for q [0].
Proof.
  repeat split; intros; repeat constructor; discriminate.
Qed.

Lemma ordered_for_shift (q dx : Q) (l : list Q) :
  (q <= 0 -> 0 <= dx) -> (0 <= q -> dx <= 0) ->
  ordered_for q l -> ordered_for q (map (fun m => m + dx) l).
Proof.
  intros Hup Hdown [Hs [Hlo Hhi]]. split; [|split].
  - clear Hlo Hhi. induction Hs as [|m l Hs IH Hm]; simpl; constructor.
    + exact IH.
    + rewrite Forall_map. eapply Forall_impl; [exact Hm|].
      intros x Hx. simpl. lra.
  - intros Hq. specialize (Hlo Hq). specialize (Hup Hq).
    rewrite Forall_map. eapply Forall_impl; [exact Hlo|].
    intros x Hx. simpl in *. lra.
  - intros Hq. specialize (Hhi Hq). specialize (Hdown Hq).
    rewrite Forall_map. eapply Forall_impl; [exact Hhi|].
    intros x Hx. simpl in *. lra.
Qed.

Lemma Forall_removelast {A} (P : A -> Prop) (l : list A) :
  Forall P l -> Forall P (removelast l).
Proof.
  induction 1 as [|x l Hx Hl IH]; simpl; [constructor|].
  destruct l; [constructor|]. constructor; assumption.
Qed.

Lemma StronglySorted_removelast (l : list Q) :
  StronglySorted Qle l -> StronglySorted Qle (removelast l).
Proof.
  induction 1 as [|x l Hs IH Hx]; simpl; [constructor|].
  destruct l as [|y l]; [constructor|].
  constructor; [exact IH|].
  apply (Forall_removelast _ (y :: l)). exact Hx.
Qed.

Lemma ordered_for_del_last (q : Q) (l : list Q) :
  ordered_for q l -> ordered_for q (del_last l).
Proof.
  intros [Hs [Hlo Hhi]]. unfold del_last. split; [|split].
  - apply StronglySorted_removelast, Hs.
  - intros Hq. apply Forall_removelast, Hlo, Hq.
  - intros Hq. apply Forall_removelast, Hhi, Hq.
Qed.

Lemma ordered_for_del_first (q : Q) (l : list Q) :
  ordered_for q l -> ordered_for q (del_first l).
Proof.
  intros [Hs [Hlo Hhi]]. unfold del_first.
  destruct l as [|x l]; simpl; [repeat split; intros; constructor|].
  split; [|split].
  - inversion Hs; assumption.
  - intros Hq. specialize (Hlo Hq). inversion Hlo; assumption.
  - intros Hq. specialize (Hhi Hq). inversion Hhi; assumption.
Qed.

Lemma StronglySorted_snoc (l : list Q) (x : Q) :
  StronglySorted Qle l -> Forall (fun m => m <= x) l ->
  StronglySorted Qle (l ++ [x]).
Proof.
  induction 1 as [|y l Hs IH Hy]; intros Hall; simpl.
  - repeat constructor.
  - inversion Hall as [|? ? Hyx Hrest]; subst.
    constructor; [apply IH, Hrest|].
    apply Forall_app. split; [exact Hy|]. repeat constructor. exact Hyx.
Qed.

Lemma ordered_for_append (q : Q) (l : list Q) :
  0 <= q -> ordered_for q l -> ordered_for q (l ++ [1]).
Proof.
  intros Hq [Hs [Hlo Hhi]]. split; [|split].
  - apply StronglySorted_snoc; [exact Hs|apply Hhi, Hq].
  - intros Hq'. apply Forall_app. split; [apply Hlo, Hq'|].
    repeat constructor. discriminate.
  - intros _. apply Forall_app. split; [apply Hhi, Hq|].
    repeat constructor. discriminate.
Qed.

Lemma ordered_for_push (q : Q) (l : list Q) :
  q <= 0 -> ordered_for q l -> ordered_for q (0 :: l).
Proof.
  intros Hq [Hs [Hlo Hhi]]. split; [|split].
  - constructor; [exact Hs|apply Hlo, Hq].
  - intros _. constructor; [discriminate|apply Hlo, Hq].
  - intros Hq'. constructor; [discriminate|apply Hhi, Hq'].
Qed.

Lemma ordered_store (s : State) (th : nat) (l : list Q) :
  ordered s -> ordered_for (_th_q s !!! th) l ->
  ordered (upd_menisci (<[th:=l]> (_menisci s)) s).
Proof.
  intros Hs Hl th'. record_simpl.
  destruct (decide (th = th')) as [->|Hne].
  - destruct (decide (th' < length (_menisci s))%nat) as [Hlt|Hge].
    + rewrite list_lookup_total_insert_eq by exact Hlt. exact Hl.
    + rewrite list_insert_ge by lia. apply Hs.
  - rewrite list_lookup_total_insert_ne by exact Hne. apply Hs.
Qed.

Lemma shift_sign (q area len dt : Q) :
  0 < area -> 0 < len -> 0 <= dt ->
  (q <= 0 -> 0 <= (- (q / area) * dt) / len) /\
  (0 <= q -> (- (q / area) * dt) / len <= 0).
Proof.
  intros Ha Hl Hdt. split; intros Hq.
  - apply Qle_shift_div_l; [exact Hl|]. rewrite Qmult_0_l.
    apply Qmult_le_0_compat; [|exact Hdt].
    assert (q / area <= 0); [|lra].
    apply Qle_shift_div_r; [exact Ha|]. lra.
  - apply Qle_shift_div_r; [exact Hl|]. rewrite Qmult_0_l.
    assert (0 <= q / area).
    { apply Qle_shift_div_l; [exact Ha|]. lra. }
    assert (0 <= (q / area) * dt) by (apply Qmult_le_0_compat; assumption).
    lra.
Qed.

Section Ordering.
Variable net : Network.

Lemma round_to_pore_ordered (th : nat) (v : Q) :
  keeps ordered (round_to_pore net th v).
Proof.
  intros s Hs. unfold round_to_pore.
  rewrite bind_load, bind_get, bind_load.
  unfold py_last. destruct (last (_menisci s !!! th)) as [m_last|]; [|exact Hs].
  unfold bind at 1. unfold ret at 1.
  destruct (Qgtb m_last (1 - _sat_tol s) && Qltb v 0).
  - rewrite bind_store. simpl.
    apply ordered_store; [exact Hs|]. apply ordered_for_del_last, Hs.
  - unfold py_first. destruct (_menisci s !!! th) as [|m_first rest] eqn:Hmen;
      [exact Hs|].
    unfold bind at 1. unfold ret at 1.
    destruct (Qltb m_first (_sat_tol s) && Qgtb v 0); [|exact Hs].
    rewrite bind_store, bind_store. simpl.
    apply (ordered_store s th rest); [exact Hs|].
    specialize (Hs th). rewrite Hmen in Hs.
    apply (ordered_for_del_first _ (m_first :: rest)), Hs.
Qed.

Lemma advance_zero_vol_throat_ordered (th : nat) :
  keeps ordered (_advance_zero_vol_throat net th).
Proof.
  intros s Hs. rewrite advance_zero_vol_throat_run. simpl.
  destruct (Qltb (_th_q s !!! th) 0).
  - apply (ordered_store s th [1]); [exact Hs|apply ordered_for_one].
  - apply (ordered_store s th [0]); [exact Hs|apply ordered_for_zero].
Qed.

Lemma advance_throat_ordered (dt : Q) (th : nat) :
  0 <= dt -> 0 < throat_area net !!! th -> 0 < throat_length net !!! th ->
  keeps ordered (advance_throat net dt th).
Proof.
  intros Hdt Ha Hl s Hs. unfold advance_throat.
  rewrite bind_load. cbv zeta. rewrite bind_load, bind_store.
  match goal with
  | |- ordered (snd (?m ?st)) => cut (keeps ordered m); [intros Hk; apply Hk|]
  end.
  - apply ordered_store; [exact Hs|].
    destruct (shift_sign (_th_q s !!! th) _ _ dt Ha Hl Hdt) as [Hup Hdown].
    apply ordered_for_shift; [exact Hup|exact Hdown|apply Hs].
  - repeat first [ apply round_to_pore_ordered
                 | apply advance_zero_vol_throat_ordered
                 | keeps_step ]; intros; assumption.
Qed.

Lemma set_menisci_ordered (base_pore : nat) (Ts : list nat) :
  keeps ordered (_set_menisci net base_pore Ts).
Proof.
  unfold _set_menisci. apply keeps_for_each. intros th s Hs.
  cbv zeta. rewrite bind_load.
  destruct (Nat.eqb base_pore (snd (conns net th))).
  - destruct (Qltb (_th_q s !!! th) 0) eqn:Hq; [exact Hs|].
    rewrite bind_load, bind_store. simpl.
    apply (ordered_store s th); [exact Hs|].
    apply ordered_for_append; [|apply Hs].
    apply Qltb_ge in Hq. exact Hq.
  - destruct (Qgtb (_th_q s !!! th) 0) eqn:Hq; [exact Hs|].
    rewrite bind_load, bind_store, bind_load, bind_store. simpl.
    apply (ordered_store s th); [exact Hs|].
    apply ordered_for_push; [|apply Hs].
    apply Qgtb_le in Hq. exact Hq.
Qed.

Lemma fill_pore_ordered (pore : nat) : keeps ordered (_fill_pore net pore).
Proof.
  unfold _fill_pore.
  repeat first [ apply set_menisci_ordered | keeps_step ]; intros; assumption.
Qed.

Lemma advance_pore_ordered (dt : Q) (p : nat) :
  keeps ordered (advance_pore net dt p).
Proof.
  unfold advance_pore.
  repeat first [ apply fill_pore_ordered | keeps_step ]; intros; assumption.
Qed.

End Ordering.

Lemma within_ordered (s : State) :
  (forall th, ascending (_menisci s !!! th)) ->
  (forall th, within_throat (_menisci s !!! th)) ->
  ordered s.
Proof.
  intros Hs Hr th. split; [|split].
  - apply Sorted_StronglySorted; [|exact (Hs th)]. intros x y z. apply Qle_trans.
  - intros _. eapply Forall_impl; [exact (Hr th)|]. intros x [H _]. exact H.
  - intros _. eapply Forall_impl; [exact (Hr th)|]. intros x [_ H]. exact H.
Qed.

(** C8: when the time step is not negative, the contested throats have
    positive area and length, and every meniscus list is ascending with
    positions between 0 and 1, every meniscus list is ascending in the state
    [_advance_interface] leaves behind, whether it returns or raises. *)
Theorem advance_keeps_menisci_sorted (net : Network) (dt : Q) (s : State) :
  0 <= dt ->
  (forall th, In th (sp_where (throat_contested s)) ->
     0 < throat_area net !!! th /\ 0 < throat_length net !!! th) ->
  (forall th, ascending (_menisci s !!! th)) ->
  (forall th, within_throat (_menisci s !!! th)) ->
  forall th, ascending (_menisci (snd (_advance_interface net dt s)) !!! th).
Proof.
  intros Hdt Hnet Hs Hr th.
  assert (Hk : ordered (snd (_advance_interface net dt s))).
  { unfold _advance_interface. rewrite bind_get, bind_get.
    match goal with
    | |- ordered (snd (?m ?st)) => cut (keeps ordered m); [intros Hk; apply Hk|]
    end.
    - apply within_ordered; assumption.
    - apply keeps_bind.
      + apply keeps_for_each_in. intros x Hx.
        destruct (Hnet x Hx) as [Ha Hl].
        apply advance_throat_ordered; assumption.
      + intros _. apply keeps_for_each. intros p. apply advance_pore_ordered. }
  apply StronglySorted_Sorted, Hk.
Qed.

(** On the crowded chain a step of 0.03 shifts every meniscus by 0.03
    towards the outlet.  In the first throat the meniscus at 0.99 crosses the
    far end and is deleted; the middle pore fills up and puts a new meniscus
    at the near end of the second throat.  Both lists are still sorted. *)
Lemma advance_keeps_menisci_sorted_witness :
  Forall2 (Forall2 Qeq)
    (_menisci (snd (_advance_interface chain 0.03 chain_crowded)))
    [[0.23; 0.73]; [0; 0.04; 0.53]]
  /\ ascending (_menisci (snd (_advance_interface chain 0.03 chain_crowded)) !!! 0%nat)
  /\ ascending (_menisci (snd (_advance_interface chain 0.03 chain_crowded)) !!! 1%nat).
Proof.
  assert (Hdt : 0 <= 0.03) by discriminate.
  assert (Hgeo : forall th, In th (sp_where (throat_contested chain_crowded)) ->
                   0 < throat_area chain !!! th /\ 0 < throat_length chain !!! th).
  { intros th Hth. vm_compute in Hth. destruct Hth as [<-|[<-|[]]];
      split; reflexivity. }
  assert (Hasc : forall th, ascending (_menisci chain_crowded !!! th)).
  { intros [|[|th]]; vm_compute; repeat constructor; discriminate. }
  assert (Hin : forall th, within_throat (_menisci chain_crowded !!! th)).
  { intros [|[|th]]; vm_compute; repeat constructor; discriminate. }
  split; [vm_compute; repeat constructor|].
  split; apply (advance_keeps_menisci_sorted chain 0.03 chain_crowded Hdt Hgeo Hasc Hin).
Defined.

(** ** The zero-volume throat rule *)

Lemma runs_ret {A} (a : A) (s : State) (R : A -> State -> Prop) :
  R a s -> runs_to (ret a) s R.
Proof. intros H. exists a, s. split; [reflexivity|exact H]. Qed.

Lemma runs_get {A} (proj : State -> A) (s : State) (R : A -> State -> Prop) :
  R (proj s) s -> runs_to (get proj) s R.
Proof. intros H. exists (proj s), s. split; [reflexivity|exact H]. Qed.

Lemma runs_load {A} `{Inhabited A} (proj : State -> list A) (i : nat) (s : State)
    (R : A -> State -> Prop) :
  R (proj s !!! i) s -> runs_to (load proj i) s R.
Proof. intros HR. exists (proj s !!! i), s. split; [reflexivity|exact HR]. Qed.

Lemma runs_modify (f : State -> State) (s : State) (R : unit -> State -> Prop) :
  R tt (f s) -> runs_to (modify f) s R.
Proof. intros H. exists tt, (f s). split; [reflexivity|exact H]. Qed.

Lemma runs_store {A} (proj : State -> list A) (upd : list A -> State -> State)
    (i : nat) (v : A) (s : State) (R : unit -> State -> Prop) :
  R tt (upd (<[i:=v]> (proj s)) s) -> runs_to (store proj upd i v) s R.
Proof. intros H. eexists tt, _. split; [reflexivity|exact H]. Qed.

Lemma runs_bind {A B} (m : M A) (k : A -> M B) (s : State)
    (R : B -> State -> Prop) :
  runs_to m s (fun a s' => runs_to (k a) s' R) -> runs_to (bind m k) s R.
Proof.
  intros (a & s' & Hm & b & s'' & Hk & HR). exists b, s''.
  split; [|exact HR]. unfold bind. rewrite Hm. exact Hk.
Qed.

Lemma runs_mono {A} (m : M A) (s : State) (R R' : A -> State -> Prop) :
  runs_to m s R -> (forall a s', R a s' -> R' a s') -> runs_to m s R'.
Proof. intros (a & s' & Hm & HR) Himp. exists a, s'. split; [exact Hm|apply Himp, HR]. Qed.

Lemma runs_py_first {A} (l : list A) (x : A) (rest : list A) (s : State)
    (R : A -> State -> Prop) :
  l = x :: rest -> R x s -> runs_to (py_first l) s R.
Proof. intros -> H. exists x, s. split; [reflexivity|exact H]. Qed.

Lemma runs_py_last {A} (l : list A) (x : A) (rest : list A) (s : State)
    (R : A -> State -> Prop) :
  l = x :: rest -> R (List.last rest x) s -> runs_to (py_last l) s R.
Proof.
  intros -> H. exists (List.last rest x), s. split; [apply py_last_cons|exact H].
Qed.

Lemma runs_keeps {A} (P : State -> Prop) (m : M A) (s : State)
    (R : A -> State -> Prop) :
  keeps P m -> P s -> runs_to m s R -> runs_to m s (fun a s' => R a s' /\ P s').
Proof.
  intros Hk HP (a & s' & Hm & HR). exists a, s'. split; [exact Hm|].
  split; [exact HR|]. specialize (Hk s HP). rewrite Hm in Hk. exact Hk.
Qed.

Ltac runs_step :=
  lazymatch goal with
  | |- runs_to (bind _ _) _ _ => apply runs_bind
  | |- runs_to (ret _) _ _ => apply runs_ret
  | |- runs_to (get _) _ _ => apply runs_get
  | |- runs_to (load _ _) _ _ => apply runs_load
  | |- runs_to (modify _) _ _ => apply runs_modify
  | |- runs_to (store _ _ _ _) _ _ => apply runs_store
  | |- runs_to (let _ := _ in _) _ _ => cbv zeta
  end; cbv beta; record_simpl.

Ltac runs_line := repeat runs_step.




Lemma runs_advance_zero_vol_throat (net : Network) (th : nat) (s : State)
    (R : unit -> State -> Prop) :
  R tt (upd_throat_inv_frac
          (<[th := if (pore_invaded s !!! upstream_pore net th s : bool)
                   then 1 else 0]> (throat_inv_frac s))
          (upd_menisci (<[th := [far_boundary th s]]> (_menisci s)) s)) ->
  runs_to (_advance_zero_vol_throat net th) s R.
Proof.
  intros H. eexists tt, _. split; [apply advance_zero_vol_throat_run|].
  unfold upstream_pore, far_boundary in H.
  destruct (Qltb (_th_q s !!! th) 0); exact H.
Qed.

Lemma round_to_pore_run (net : Network) (th : nat) (v : Q) (s : State)
    (m0 : Q) (rest : list Q) :
  _menisci s !!! th = m0 :: rest ->
  round_to_pore net th v s =
    if Qgtb (List.last rest m0) (1 - _sat_tol s) && Qltb v 0 then
      (Ok (Some (snd (conns net th)),
           (1 - List.last rest m0) * (_throat_sup_fact s !!! th)),
       upd_menisci (<[th := del_last (m0 :: rest)]> (_menisci s)) s)
    else if Qltb m0 (_sat_tol s) && Qgtb v 0 then
      (Ok (Some (fst (conns net th)), m0 * (_throat_sup_fact s !!! th)),
       upd_throat_sup_fact
         (<[th := _throat_sup_fact s !!! th * -1]> (_throat_sup_fact s))
         (upd_menisci (<[th := rest]> (_menisci s)) s))
    else (Ok (None, 0), s).
Proof.
  intros Hmen. unfold round_to_pore. msimpl. rewrite Hmen, py_last_cons.
  destruct (Qgtb (List.last rest m0) (1 - _sat_tol s) && Qltb v 0); [reflexivity|].
  simpl.
  destruct (Qltb m0 (_sat_tol s) && Qgtb v 0); reflexivity.
Qed.

Lemma runs_round_to_pore (net : Network) (th : nat) (v : Q) (s : State)
    (m0 : Q) (rest : list Q) (R : option nat * Q -> State -> Prop) :
  _menisci s !!! th = m0 :: rest ->
  (Qgtb (List.last rest m0) (1 - _sat_tol s) && Qltb v 0 = true ->
   R (Some (snd (conns net th)),
      (1 - List.last rest m0) * (_throat_sup_fact s !!! th))
     (upd_menisci (<[th := del_last (m0 :: rest)]> (_menisci s)) s)) ->
  (Qgtb (List.last rest m0) (1 - _sat_tol s) && Qltb v 0 = false ->
   Qltb m0 (_sat_tol s) && Qgtb v 0 = true ->
   R (Some (fst (conns net th)), m0 * (_throat_sup_fact s !!! th))
     (upd_throat_sup_fact
        (<[th := _throat_sup_fact s !!! th * -1]> (_throat_sup_fact s))
        (upd_menisci (<[th := rest]> (_menisci s)) s))) ->
  (Qgtb (List.last rest m0) (1 - _sat_tol s) && Qltb v 0 = false ->
   Qltb m0 (_sat_tol s) && Qgtb v 0 = false ->
   R (None, 0) s) ->
  runs_to (round_to_pore net th v) s R.
Proof.
  intros Hmen H1 H2 H3. unfold runs_to.
  rewrite (round_to_pore_run net th v s m0 rest Hmen).
  destruct (Qgtb (List.last rest m0) (1 - _sat_tol s) && Qltb v 0).
  - eexists _, _. split; [reflexivity|apply H1; reflexivity].
  - destruct (Qltb m0 (_sat_tol s) && Qgtb v 0).
    + eexists _, _. split; [reflexivity|apply H2; reflexivity].
    + eexists _, _. split; [reflexivity|apply H3; reflexivity].
Qed.

Ltac same_slot :=
  rewrite list_lookup_total_insert_eq by (rewrite ?length_insert; assumption).

Ltac split_conds :=
  repeat match goal with
         | H : _ && _ = true |- _ => apply andb_true_iff in H; destruct H
         | H : _ && _ = false |- _ => apply andb_false_iff in H; destruct H
         end;
  q_reflect.

Lemma zero_vol_round (net : Network) (dt : Q) (th : nat) (s : State)
    (m0 : Q) (rest : list Q) :
  (th < length (_menisci s))%nat ->
  (th < length (throat_inv_frac s))%nat ->
  (th < length (throat_contested s))%nat ->
  _menisci s !!! th = m0 :: rest ->
  Qeqb (throat_volume net !!! th) 0 = true ->
  0 < _sat_tol s -> _sat_tol s <= 1 ->
  runs_to (advance_throat net dt th) s (fun _ s' =>
    zero_vol_outcome net dt th m0 s s').
Proof.
  intros Hth Hfr Hco Hmen Evol Htol0 Htol1.
  unfold zero_vol_outcome, zero_vol_phase, at_far_boundary.
  remember (throat_shift net dt th s) as dx eqn:Hdx.
  unfold throat_shift in Hdx.
  unfold advance_throat. runs_line. rewrite <- Hdx. clear Hdx.
  rewrite Evol. runs_line.
  rewrite (list_lookup_total_insert_eq (_menisci s)) by exact Hth.
  rewrite Hmen. simpl map.
  eapply runs_py_first; [reflexivity|]. cbv beta.
  runs_step. apply runs_advance_zero_vol_throat.
  unfold upstream_pore, far_boundary. record_simpl.
  destruct (Qltb (_th_q s !!! th) 0) eqn:Hq.
  - runs_line. same_slot.
    eapply runs_py_first; [reflexivity|]. cbv beta. runs_line.
    eapply runs_round_to_pore.
    + record_simpl. same_slot. reflexivity.
    + record_simpl. simpl List.last. intros Hc.
      cbn [fst snd]. runs_line. repeat same_slot. simpl length. simpl Nat.eqb.
      unfold when. runs_line. repeat same_slot.
      split; [|split].
      * destruct (pore_invaded s !!! (conns net th).1); ring.
      * intros Hat. exfalso. split_conds. lra.
      * intros _. split; reflexivity.
    + record_simpl. simpl List.last. intros _ Hc. exfalso. split_conds. lra.
    + record_simpl. simpl List.last. intros Hc _.
      cbn [fst snd]. runs_line. repeat same_slot. simpl length. simpl Nat.eqb.
      unfold when. runs_line. repeat same_slot.
      split; [reflexivity|split].
      * intros _. split; reflexivity.
      * intros Hat. exfalso. apply Hat. split_conds; lra.
  - runs_line. same_slot.
    eapply runs_py_first; [reflexivity|]. cbv beta. runs_line.
    eapply runs_round_to_pore.
    + record_simpl. same_slot. reflexivity.
    + record_simpl. simpl List.last. intros Hc. exfalso. split_conds. lra.
    + record_simpl. simpl List.last. intros _ Hc.
      cbn [fst snd]. runs_line. repeat same_slot. simpl length. simpl Nat.eqb.
      unfold when. runs_line. repeat same_slot.
      split; [|split].
      * destruct (pore_invaded s !!! (conns net th).2); ring.
      * intros Hat. exfalso. split_conds. lra.
      * intros _. split; reflexivity.
    + record_simpl. simpl List.last. intros _ Hc.
      cbn [fst snd]. runs_line. repeat same_slot. simpl length. simpl Nat.eqb.
      unfold when. runs_line. repeat same_slot.
      split; [reflexivity|split].
      * intros _. split; reflexivity.
      * intros Hat. exfalso. apply Hat. split_conds; lra.
Qed.

(** Frames *)

Lemma throats_frame_refl (touched : nat -> Prop) (s : State) :
  throats_frame touched s s.
Proof. repeat split; reflexivity. Qed.

Lemma throats_frame_trans (P Q R : nat -> Prop) (a b c : State) :
  (forall u, P u -> R u) -> (forall u, Q u -> R u) ->
  throats_frame P a b -> throats_frame Q b c -> throats_frame R a c.
Proof.
  intros HP HQ (A1 & A2 & A3 & A4 & A5 & A6 & A7) (B1 & B2 & B3 & B4 & B5 & B6 & B7).
  split; [congruence|]. split; [congruence|]. split; [congruence|].
  split; [congruence|]. split; [congruence|]. split; [congruence|].
  intros u Hu.
  destruct (A7 u (fun H => Hu (HP u H))) as (A8 & A9 & A10).
  destruct (B7 u (fun H => Hu (HQ u H))) as (B8 & B9 & B10).
  repeat split; congruence.
Qed.

Lemma throats_frame_menisci (t : nat) (s0 s : State) (v : list Q) :
  throats_frame (eq t) s0 s ->
  throats_frame (eq t) s0 (upd_menisci (<[t:=v]> (_menisci s)) s).
Proof.
  intros (A1 & A2 & A3 & A4 & A5 & A6 & A7). unfold throats_frame. record_simpl.
  rewrite length_insert. repeat (split; [assumption|]).
  intros u Hu. rewrite list_lookup_total_insert_ne by exact Hu. apply A7, Hu.
Qed.

Lemma throats_frame_inv_frac (t : nat) (s0 s : State) (v : Q) :
  throats_frame (eq t) s0 s ->
  throats_frame (eq t) s0 (upd_throat_inv_frac (<[t:=v]> (throat_inv_frac s)) s).
Proof.
  intros (A1 & A2 & A3 & A4 & A5 & A6 & A7). unfold throats_frame. record_simpl.
  rewrite length_insert. repeat (split; [assumption|]).
  intros u Hu. rewrite list_lookup_total_insert_ne by exact Hu. apply A7, Hu.
Qed.

Lemma throats_frame_contested (t : nat) (s0 s : State) (v : bool) :
  throats_frame (eq t) s0 s ->
  throats_frame (eq t) s0 (upd_throat_contested (<[t:=v]> (throat_contested s)) s).
Proof.
  intros (A1 & A2 & A3 & A4 & A5 & A6 & A7). unfold throats_frame. record_simpl.
  rewrite length_insert. repeat (split; [assumption|]).
  intros u Hu. rewrite list_lookup_total_insert_ne by exact Hu. apply A7, Hu.
Qed.

Ltac frame_goal :=
  let σ := fresh "s" in
  let H := fresh "H" in
  intros σ H;
  first [ exact H
        | apply throats_frame_menisci, H
        | apply throats_frame_inv_frac, H
        | apply throats_frame_contested, H ].

Lemma advance_throat_frame (net : Network) (dt : Q) (t : nat) (s0 : State) :
  keeps (throats_frame (eq t) s0) (advance_throat net dt t).
Proof. unfold advance_throat. keeps_split; frame_goal. Qed.

Lemma advance_throat_returns (net : Network) (dt : Q) (t : nat) (s : State) :
  (t < length (_menisci s))%nat -> _menisci s !!! t <> [] ->
  runs_to (advance_throat net dt t) s (fun _ _ => True).
Proof.
  intros Hth Hne.
  destruct (_menisci s !!! t) as [|m0 rest] eqn:Hmen; [contradiction|].
  unfold advance_throat. runs_line. rewrite Hmen. simpl map.
  assert (Htail : forall (rounded : option nat * Q) (σ : State),
    runs_to
      (match rounded.1 with
       | Some pore =>
           frac <- load throat_inv_frac t;;
           store throat_inv_frac upd_throat_inv_frac t (frac + rounded.2);;
           pfrac <- load pore_inv_frac pore;;
           store pore_inv_frac upd_pore_inv_frac pore (pfrac + - rounded.2);;
           store pore_contested upd_pore_contested pore true
       | None => ret ()
       end;;
       men <- load _menisci t;;
       when (length men =? 0)%nat
         (store throat_contested upd_throat_contested t false))
      σ (fun _ _ => True)).
  { intros [[pore|] adj] σ; cbn [fst snd]; runs_line; unfold when;
      match goal with
      | |- context [(?a =? ?b)%nat] => destruct (a =? b)%nat
      end; runs_line; exact I. }
  destruct (Qeqb (throat_volume net !!! t) 0).
  - runs_line. same_slot.
    eapply runs_py_first; [reflexivity|]. cbv beta.
    runs_step. apply runs_advance_zero_vol_throat. record_simpl.
    runs_line. same_slot.
    eapply runs_py_first; [reflexivity|]. cbv beta. runs_line.
    eapply runs_round_to_pore;
      [record_simpl; same_slot; reflexivity|..]; intros; apply Htail.
  - runs_line.
    eapply runs_round_to_pore;
      [record_simpl; same_slot; reflexivity|..]; intros; apply Htail.
Qed.

(** sp_where *)

Lemma where_from_bounds (flags : list bool) (i x : nat) :
  In x (where_from i flags) -> (i <= x < i + length flags)%nat.
Proof.
  revert i. induction flags as [|b flags IH]; intros i; simpl; [intros []|].
  destruct b.
  - intros [<-|H]; [lia|]. apply IH in H. lia.
  - intros H. apply IH in H. lia.
Qed.

Lemma where_from_NoDup (flags : list bool) (i : nat) :
  List.NoDup (where_from i flags).
Proof.
  revert i. induction flags as [|b flags IH]; intros i; simpl; [constructor|].
  destruct b; [|apply IH].
  constructor; [|apply IH]. intros H. apply where_from_bounds in H. lia.
Qed.

Lemma where_from_set (flags : list bool) (i x : nat) :
  In x (where_from i flags) -> flags !!! (x - i)%nat = true.
Proof.
  revert i. induction flags as [|b flags IH]; intros i; simpl; [intros []|].
  destruct b.
  - intros [<-|H]; [rewrite Nat.sub_diag; reflexivity|].
    pose proof (where_from_bounds _ _ _ H) as Hb. apply IH in H.
    replace (x - i)%nat with (S (x - S i)) by lia. exact H.
  - intros H. pose proof (where_from_bounds _ _ _ H) as Hb. apply IH in H.
    replace (x - i)%nat with (S (x - S i)) by lia. exact H.
Qed.

Lemma sp_where_set (flags : list bool) (x : nat) :
  In x (sp_where flags) -> flags !!! x = true.
Proof.
  intros H. apply where_from_set in H. rewrite Nat.sub_0_r in H. exact H.
Qed.

Lemma sp_where_bound (flags : list bool) (x : nat) :
  In x (sp_where flags) -> (x < length flags)%nat.
Proof. intros H. apply where_from_bounds in H. lia. Qed.

(** The throat loop *)

Section ThroatLoop.
Variable net : Network.
Variable dt : Q.

Lemma ready_frame (l : list nat) (t : nat) (s s1 : State) :
  ~ In t l -> ready (t :: l) s -> throats_frame (eq t) s s1 -> ready l s1.
Proof.
  intros Hnot Hready (_ & _ & _ & Hlen & _ & _ & Hsame) u Hu.
  destruct (Hready u (or_intror Hu)) as [H1 H2].
  assert (Hne : t <> u) by (intros ->; contradiction).
  destruct (Hsame u Hne) as (Hm & _ & _).
  rewrite Hlen, Hm. split; assumption.
Qed.

Lemma throat_loop_runs (l : list nat) (s : State) :
  List.NoDup l -> ready l s ->
  runs_to (for_each l (advance_throat net dt)) s
    (fun _ s' => throats_frame (fun u => In u l) s s').
Proof.
  revert s. induction l as [|t l IH]; intros s Hnd Hready; simpl.
  - apply runs_ret, throats_frame_refl.
  - inversion Hnd as [|? ? Hnot Hnd']; subst.
    apply runs_bind.
    destruct (Hready t (or_introl eq_refl)) as [Hlt Hne].
    eapply runs_mono.
    + apply (runs_keeps (throats_frame (eq t) s));
        [apply advance_throat_frame|apply throats_frame_refl|].
      apply advance_throat_returns; assumption.
    + intros ? s1 [_ Hframe]. cbv beta.
      eapply runs_mono; [apply IH; [exact Hnd'|]|].
      * eapply ready_frame; eassumption.
      * intros ? s' Hrest. cbv beta.
        eapply throats_frame_trans; [| |exact Hframe|exact Hrest].
        -- intros u Hu. left. exact Hu.
        -- intros u Hu. right. exact Hu.
Qed.

Lemma zero_vol_outcome_frame (th : nat) (m0 : Q) (s s1 s' : State)
    (P : nat -> Prop) :
  ~ P th -> throats_frame P s s1 ->
  zero_vol_outcome net dt th m0 s1 s' -> zero_vol_outcome net dt th m0 s s'.
Proof.
  intros Hth (A1 & A2 & A3 & A4 & A5 & A6 & A7).
  destruct (A7 th Hth) as (B1 & B2 & B3).
  unfold zero_vol_outcome, zero_vol_phase, upstream_pore, at_far_boundary,
    far_boundary, throat_shift.
  rewrite A1, A2, B3. intros H. exact H.
Qed.

Lemma zero_vol_outcome_kept (th : nat) (m0 : Q) (s s1 s' : State)
    (P : nat -> Prop) :
  ~ P th -> throats_frame P s1 s' ->
  zero_vol_outcome net dt th m0 s s1 -> zero_vol_outcome net dt th m0 s s'.
Proof.
  intros Hth (A1 & A2 & A3 & A4 & A5 & A6 & A7).
  destruct (A7 th Hth) as (B1 & B2 & B3).
  unfold zero_vol_outcome. rewrite B1, B2, B3. intros H. exact H.
Qed.

Lemma throat_loop_zero_vol (th : nat) (m0 : Q) (rest : list Q) (l : list nat)
    (s : State) :
  List.NoDup l -> In th l -> ready l s ->
  (th < length (throat_inv_frac s))%nat ->
  (th < length (throat_contested s))%nat ->
  _menisci s !!! th = m0 :: rest ->
  Qeqb (throat_volume net !!! th) 0 = true ->
  0 < _sat_tol s -> _sat_tol s <= 1 ->
  runs_to (for_each l (advance_throat net dt)) s
    (fun _ s' => zero_vol_outcome net dt th m0 s s').
Proof.
  intros Hnd Hin Hready Hfr Hco Hmen Evol Htol0 Htol1.
  revert s Hin Hready Hfr Hco Hmen Htol0 Htol1.
  induction l as [|t l IH]; intros s Hin Hready Hfr Hco Hmen Htol0 Htol1;
    [destruct Hin|].
  inversion Hnd as [|? ? Hnot Hnd']; subst.
  simpl. apply runs_bind.
  destruct (Hready t (or_introl eq_refl)) as [Hlt Hne].
  destruct (Nat.eq_dec t th) as [->|Hneq].
  - eapply runs_mono.
    + apply (runs_keeps (throats_frame (eq th) s));
        [apply advance_throat_frame|apply throats_frame_refl|].
      apply (zero_vol_round net dt th s m0 rest); assumption.
    + intros ? s1 [Hout Hframe]. cbv beta.
      eapply runs_mono.
      * apply throat_loop_runs; [exact Hnd'|].
        eapply ready_frame; eassumption.
      * intros ? s' Hrest. cbv beta.
        exact (zero_vol_outcome_kept th m0 s s1 s' (fun u => In u l) Hnot Hrest Hout).
  - destruct Hin as [Heq|Hin]; [contradiction|].
    eapply runs_mono.
    + apply (runs_keeps (throats_frame (eq t) s));
        [apply advance_throat_frame|apply throats_frame_refl|].
      apply advance_throat_returns; assumption.
    + intros ? s1 [_ Hframe]. cbv beta.
      pose proof Hframe as (A1 & A2 & A3 & A4 & A5 & A6 & A7).
      destruct (A7 th Hneq) as (B1 & B2 & B3).
      eapply runs_mono.
      * apply (IH Hnd' s1 Hin).
        -- eapply ready_frame; eassumption.
        -- rewrite A5. exact Hfr.
        -- rewrite A6. exact Hco.
        -- rewrite B1. exact Hmen.
        -- rewrite A3. exact Htol0.
        -- rewrite A3. exact Htol1.
      * intros ? s' Hout. cbv beta.
        exact (zero_vol_outcome_frame th m0 s s1 s' (eq t) Hneq Hframe Hout).
Qed.

End ThroatLoop.

(** The pore loop leaves the throat fractions alone *)

Lemma advance_pore_inv_frac (net : Network) (dt : Q) (p th : nat) (c : Q) :
  keeps (fun s => throat_inv_frac s !!! th == c) (advance_pore net dt p).
Proof.
  unfold advance_pore. keeps_split; intros ? H; exact H.
Qed.

(** The time step *)

Lemma for_fold_ok_inv {A B} (I : B -> Prop) (l : list A) (body : B -> A -> M B) :
  (forall acc x s r s', I acc -> body acc x s = (Ok r, s') -> I r) ->
  forall acc s r s', I acc -> for_fold l acc body s = (Ok r, s') -> I r.
Proof.
  intros Hbody. induction l as [|x l IH]; intros acc s r s' Hacc Hrun; simpl in Hrun.
  - injection Hrun as <- _. exact Hacc.
  - unfold bind in Hrun.
    destruct (body acc x s) as [[r1|e] s1] eqn:E; [|discriminate].
    eapply IH; [|exact Hrun]. eapply Hbody; eassumption.
Qed.

Section TimeStep.
Variable net : Network.
Variable sp_sin : Q -> Q.
Variable sp_pi : Q.

Lemma throat_flow_loop (l : list nat) (acc : Q) (s s' : State) (r : Q) :
  for_fold l acc (dt_throat_flow net sp_sin sp_pi) s = (Ok r, s') ->
  acc <= 0 \/ (exists th, In th l /\ Qeqb (throat_volume net !!! th) 0 = true) ->
  r <= 0.
Proof.
  revert acc s. induction l as [|x l IH]; intros acc s Hrun Hcase; simpl in Hrun.
  - injection Hrun as <- _. destruct Hcase as [H|(th & [] & _)]. exact H.
  - unfold bind in Hrun.
    change (dt_throat_flow net sp_sin sp_pi acc x s)
      with (Ok (if Qeqb (throat_volume net !!! x) 0 then 0 else acc),
            upd_th_q (<[x := throat_flow net sp_sin sp_pi x s]> (_th_q s)) s)
      in Hrun.
    eapply IH; [exact Hrun|].
    destruct Hcase as [H|(th & [<-|Hin] & Hvol)].
    + left. destruct (Qeqb (throat_volume net !!! x) 0); [discriminate|exact H].
    + left. rewrite Hvol. discriminate.
    + right. exists th. split; assumption.
Qed.

Lemma dt_throat_travel_le (dt : Q) (th : nat) (s s' : State) (r : Q) :
  dt_throat_travel net dt th s = (Ok r, s') -> r <= dt.
Proof.
  unfold dt_throat_travel, bind. intros H.
  destruct (_set_dx_max th s) as [[dx|e] s1]; [|discriminate].
  unfold load, get, ret in H.
  destruct (Qeqb (_th_q s1 !!! th / throat_area net !!! th) 0).
  - injection H as <- _. apply Qle_refl.
  - match type of H with
    | context [Qltb ?a ?b] => destruct (Qltb a b) eqn:E
    end; injection H as <- _; q_reflect;
      [apply Qlt_le_weak; exact E|apply Qle_refl].
Qed.

Lemma dt_pore_fill_le (dt : Q) (p : nat) (s s' : State) (r : Q) :
  dt_pore_fill net sp_sin sp_pi dt p s = (Ok r, s') -> dt <= 0 -> r <= 0.
Proof.
  unfold dt_pore_fill. cbv zeta. rewrite bind_get. unfold bind at 1. intros H Hdt.
  match type of H with
  | context [for_fold ?l ?a ?b ?σ] => destruct (for_fold l a b σ) as [[qsum|e] s1]
  end; [|discriminate].
  rewrite bind_store, bind_get in H. unfold ret in H.
  assert (Hd : (if Qeqb (pore_volume net !!! p) 0 then 0 else dt) <= 0)
    by (destruct (Qeqb (pore_volume net !!! p) 0); [discriminate|exact Hdt]).
  destruct (Qeqb qsum 0).
  - injection H as <- _. exact Hd.
  - match type of H with
    | context [Qltb ?a ?b] => destruct (Qltb a b) eqn:E
    end; injection H as <- _; q_reflect; [|exact Hd].
    eapply Qle_trans; [apply Qlt_le_weak; exact E|exact Hd].
Qed.

Lemma calculate_dt_zero_vol (th : nat) (s s1 : State) (dt : Q) :
  In th (sp_where (throat_contested s)) ->
  Qeqb (throat_volume net !!! th) 0 = true ->
  _calculate_dt net sp_sin sp_pi s = (Ok dt, s1) -> dt <= 0.
Proof.
  intros Hin Hvol. unfold _calculate_dt.
  rewrite bind_get, bind_get. cbv zeta. unfold bind at 1. unfold modify at 1.
  unfold bind at 1. unfold modify at 1. rewrite bind_get. record_simpl.
  unfold bind at 1.
  match goal with
  | |- context [for_fold ?l ?a ?b ?σ] =>
      destruct (for_fold l a b σ) as [[d1|e] σ1] eqn:E1
  end; [|discriminate].
  rewrite bind_get. unfold bind at 1.
  match goal with
  | |- context [for_fold ?l d1 ?b ?σ] =>
      destruct (for_fold l d1 b σ) as [[d2|e] σ2] eqn:E2
  end; [|discriminate].
  rewrite bind_get. intros E3.
  assert (H1 : d1 <= 0).
  { eapply throat_flow_loop; [exact E1|]. right. exists th. split; assumption. }
  assert (H2 : d2 <= 0).
  { eapply (for_fold_ok_inv (fun d => d <= 0)); [|exact H1|exact E2].
    intros acc x σ r σ' Hacc Hrun. apply dt_throat_travel_le in Hrun. lra. }
  eapply (for_fold_ok_inv (fun d => d <= 0)); [|exact H2|exact E3].
  intros acc x σ r σ' Hacc Hrun. eapply dt_pore_fill_le; eassumption.
Qed.

End TimeStep.

(** * Further properties of the algorithm *)

(** ** The volume step bound *)

(** X1: for a pore whose fraction lies between 0 and 1, the bound that
    [_set_dv_max] returns lies between 0 and 0.25, and a change of the
    fraction by that much in the direction of the net flow neither overfills
    nor underfills the pore. *)
Theorem set_dv_max_never_overfills (pore : nat) (q : Q) (s : State) :
  0 <= pore_inv_frac s !!! pore -> pore_inv_frac s !!! pore <= 1 ->
  0 <= _set_dv_max pore q s /\ _set_dv_max pore q s <= 0.25
  /\ (0 < q -> pore_inv_frac s !!! pore + _set_dv_max pore q s <= 1)
  /\ (q < 0 -> 0 <= pore_inv_frac s !!! pore - _set_dv_max pore q s).
Proof.
  intros H0 H1. unfold _set_dv_max.
  destruct (Qgtb q 0 && Qltb (1 - pore_inv_frac s !!! pore) 0.25) eqn:E1.
  - split_conds. repeat split; intros; lra.
  - destruct (Qltb q 0 && Qltb (pore_inv_frac s !!! pore) 0.25) eqn:E2.
    + split_conds; repeat split; intros; lra.
    + split_conds; repeat split; intros; lra.
Qed.

Lemma set_dv_max_never_overfills_witness :
  0 <= _set_dv_max 1 1 (upd_pore_inv_frac [1; 0.9; 0] chain_in_out)
  /\ _set_dv_max 1 1 (upd_pore_inv_frac [1; 0.9; 0] chain_in_out) <= 0.25
  /\ (0 < 1 ->
      pore_inv_frac (upd_pore_inv_frac [1; 0.9; 0] chain_in_out) !!! 1%nat
      + _set_dv_max 1 1 (upd_pore_inv_frac [1; 0.9; 0] chain_in_out) <= 1)
  /\ (1 < 0 ->
      0 <= pore_inv_frac (upd_pore_inv_frac [1; 0.9; 0] chain_in_out) !!! 1%nat
           - _set_dv_max 1 1 (upd_pore_inv_frac [1; 0.9; 0] chain_in_out)).
Proof.
  apply set_dv_max_never_overfills; vm_compute; discriminate.
Defined.

(** ** Filling a pore *)

Lemma bind_bind {A B C} (m : M A) (k1 : A -> M B) (k2 : B -> M C) (s : State) :
  bind (bind m k1) k2 s = bind m (fun a => bind (k1 a) k2) s.
Proof. unfold bind. destruct (m s) as [[a|e] s']; reflexivity. Qed.

Lemma bind_ret {A B} (a : A) (k : A -> M B) (s : State) :
  bind (ret a) k s = k a s.
Proof. reflexivity. Qed.

Lemma py_round_near_one (x : Q) : (1 # 2) < x -> x < (3 # 2) -> py_round x = 1%Z.
Proof.
  intros Hlo Hhi. unfold py_round.
  pose proof (Qfloor_le x) as Hle. pose proof (Qlt_floor x) as Hlt.
  assert (Hf : (0 <= Qfloor x <= 1)%Z).
  { split.
    - assert (H : (1 # 2) < inject_Z (Qfloor x + 1)) by lra.
      unfold Qlt in H. simpl in H. lia.
    - assert (H : inject_Z (Qfloor x) < (3 # 2)) by lra.
      unfold Qlt in H. simpl in H. lia. }
  destruct (Z.eq_dec (Qfloor x) 0%Z) as [E|E].
  - rewrite E in *. change (inject_Z 0) with 0 in *.
    replace (Qltb (x - 0) (1 # 2)) with false
      by (symmetry; apply Qltb_ge; lra).
    replace (Qltb (1 # 2) (x - 0)) with true
      by (symmetry; apply Qltb_lt; lra).
    reflexivity.
  - assert (E1 : Qfloor x = 1%Z) by lia. rewrite E1 in *.
    change (inject_Z 1) with 1 in *.
    replace (Qltb (x - 1) (1 # 2)) with true; [reflexivity|].
    symmetry. apply Qltb_lt. lra.
Qed.

Lemma py_round_near_zero (x : Q) : - (1 # 2) < x -> x < (1 # 2) -> py_round x = 0%Z.
Proof.
  intros Hlo Hhi. unfold py_round.
  pose proof (Qfloor_le x) as Hle. pose proof (Qlt_floor x) as Hlt.
  assert (Hf : (-1 <= Qfloor x <= 0)%Z).
  { split.
    - assert (H : - (1 # 2) < inject_Z (Qfloor x + 1)) by lra.
      unfold Qlt in H. simpl in H. lia.
    - assert (H : inject_Z (Qfloor x) < (1 # 2)) by lra.
      unfold Qlt in H. simpl in H. lia. }
  destruct (Z.eq_dec (Qfloor x) 0%Z) as [E|E].
  - rewrite E in *. change (inject_Z 0) with 0 in *.
    replace (Qltb (x - 0) (1 # 2)) with true; [reflexivity|].
    symmetry. apply Qltb_lt. lra.
  - assert (E1 : Qfloor x = (-1)%Z) by lia. rewrite E1 in *.
    change (inject_Z (-1)) with (-1) in *.
    replace (Qltb (x - -1) (1 # 2)) with false
      by (symmetry; apply Qltb_ge; lra).
    replace (Qltb (1 # 2) (x - -1)) with true
      by (symmetry; apply Qltb_lt; lra).
    reflexivity.
Qed.

Lemma fill_pore_result (net : Network) (pore : nat) (s : State) (z : Z) :
  (pore < length (pore_inv_frac s))%nat ->
  (pore < length (pore_invaded s))%nat ->
  py_round (pore_inv_frac s !!! pore) = z ->
  pore_inv_frac (snd (_fill_pore net pore s)) !!! pore = inject_Z z
  /\ pore_invaded (snd (_fill_pore net pore s)) !!! pore = Z.eqb z 1.
Proof.
  intros Hfr Hin Hz. unfold _fill_pore.
  rewrite bind_load. cbv zeta. rewrite bind_store, Hz.
  set (P := fun σ : State =>
    pore_inv_frac σ !!! pore = inject_Z z
    /\ pore_invaded σ !!! pore = Z.eqb z 1).
  match goal with
  | |- context [snd (bind ?m ?k ?st)] =>
      change (P (snd (bind m k st)));
      assert (Hk : forall a, keeps P (k a))
  end.
  { intros a. unfold P. keeps_split; intros ? H; exact H. }
  destruct (Z.eqb z 1) eqn:Ez.
  - rewrite bind_bind, bind_store, bind_ret. apply Hk. unfold P. record_simpl.
    split; apply list_lookup_total_insert_eq; assumption.
  - rewrite bind_bind, bind_store, bind_ret. apply Hk. unfold P. record_simpl.
    split; apply list_lookup_total_insert_eq; assumption.
Qed.

(** X2: [_fill_pore] snaps the fraction of the pore to a whole number and
    sets the invaded flag to match, and both survive to the end of the
    call, whether it returns or raises: a fraction strictly between 1/2 and
    3/2 becomes 1 with the flag set, one strictly between -1/2 and 1/2
    becomes 0 with the flag cleared. *)
Theorem fill_pore_snaps (net : Network) (pore : nat) (s : State) :
  (pore < length (pore_inv_frac s))%nat ->
  (pore < length (pore_invaded s))%nat ->
  ((1 # 2) < pore_inv_frac s !!! pore -> pore_inv_frac s !!! pore < (3 # 2) ->
   pore_inv_frac (snd (_fill_pore net pore s)) !!! pore = 1
   /\ pore_invaded (snd (_fill_pore net pore s)) !!! pore = true)
  /\ (- (1 # 2) < pore_inv_frac s !!! pore -> pore_inv_frac s !!! pore < (1 # 2) ->
      pore_inv_frac (snd (_fill_pore net pore s)) !!! pore = 0
      /\ pore_invaded (snd (_fill_pore net pore s)) !!! pore = false).
Proof.
  intros Hfr Hin. split; intros Hlo Hhi.
  - exact (fill_pore_result net pore s 1 Hfr Hin (py_round_near_one _ Hlo Hhi)).
  - exact (fill_pore_result net pore s 0 Hfr Hin (py_round_near_zero _ Hlo Hhi)).
Qed.

Lemma fill_pore_snaps_witness :
  pore_inv_frac
    (snd (_fill_pore chain 1 (upd_pore_inv_frac [1; 0.9999995; 0] chain_in_out)))
    !!! 1%nat = 1
  /\ pore_invaded
       (snd (_fill_pore chain 1 (upd_pore_inv_frac [1; 0.9999995; 0] chain_in_out)))
       !!! 1%nat = true.
Proof.
  apply (fill_pore_snaps chain 1 (upd_pore_inv_frac [1; 0.9999995; 0] chain_in_out)).
  - vm_compute. lia.
  - vm_compute. lia.
  - reflexivity.
  - reflexivity.
Defined.

(** X3: on a pore that no throat touches, [_fill_pore] raises [IndexError]:
    [Ts_sf[0]] of line 680 reads an empty array. *)
Theorem fill_pore_isolated (net : Network) (pore : nat) (s : State) :
  find_neighbor_throats net pore = [] ->
  fst (_fill_pore net pore s) = Raise IndexError.
Proof.
  intros Hnone. unfold _fill_pore. rewrite Hnone.
  rewrite bind_load. cbv zeta. rewrite bind_store.
  destruct (Z.eqb (py_round (pore_inv_frac s !!! pore)) 1);
    rewrite bind_bind, bind_store, bind_ret; reflexivity.
Qed.

Lemma fill_pore_isolated_witness :
  fst (_fill_pore (mkNetwork 1 0 [] [1] [] [] []) 0
         (snd (setup_body (mkNetwork 1 0 [] [1] [] [] []) water water 1 []
                 (1 # 1000000) 100%Z blank)))
  = Raise IndexError.
Proof. apply fill_pore_isolated. reflexivity. Defined.

(** ** The advance step returns *)

Section AdvanceReturns.
Variable net : Network.
Variable dt : Q.





End AdvanceReturns.



(** ** The outer loop ends *)

Section LoopEnds.
Variable net : Network.
Variable sp_sin : Q -> Q.
Variable sp_pi : Q.
Variable linear_solve : State -> list Q -> list Q.

Lemma round_keeps_counters (s0 : State) :
  keeps (fun s => _ts_num s = _ts_num s0 /\ _max_steps s = _max_steps s0)
        (step_physics net sp_sin sp_pi linear_solve ;; record_break_through).
Proof. keeps_split; intros s H; exact H. Qed.

Lemma outer_iteration_counts (s s' : State) :
  outer_iteration net sp_sin sp_pi linear_solve s = (Ok false, s') ->
  (_ts_num s <= _max_steps s)%Z
  /\ _ts_num s' = (_ts_num s + 1)%Z /\ _max_steps s' = _max_steps s.
Proof.
  intros Hrun.
  destruct (outer_iteration_exit _ _ _ _ _ _ _ Hrun) as (s1 & Hphys & Hdone & ->).
  pose proof (round_keeps_counters s s (conj eq_refl eq_refl)) as Hk.
  rewrite Hphys in Hk. simpl in Hk. destruct Hk as [Hts Hmax].
  symmetry in Hdone. apply orb_false_iff in Hdone. destruct Hdone as [_ Hover].
  unfold max_steps_reached in Hover. record_simpl.
  rewrite <- Hts, <- Hmax. repeat split. lia.
Qed.

End LoopEnds.

(** X5: the [while True] loop of [_do_outer_iteration_stage] ends, by a
    [break] or by an exception, within [max_steps - ts_num + 2] rounds: a
    bound on the rounds larger than [max_steps - ts_num + 1] is never what
    stops it. *)
Theorem outer_loop_ends (net : Network) (sp_sin : Q -> Q) (sp_pi : Q)
    (linear_solve : State -> list Q -> list Q) (fuel : nat) (s s' : State) :
  (Z.to_nat (_max_steps s - _ts_num s + 1) < fuel)%nat ->
  outer_loop net sp_sin sp_pi linear_solve fuel s <> (Ok false, s').
Proof.
  revert s. induction fuel as [|fuel IH]; intros s Hfuel; [lia|].
  simpl. unfold bind.
  destruct (outer_iteration net sp_sin sp_pi linear_solve s)
    as [[[|]|e] s1] eqn:Eit; [discriminate| |discriminate].
  destruct (outer_iteration_counts _ _ _ _ _ _ Eit) as (Hle & Hts & Hmax).
  apply IH. rewrite Hts, Hmax. lia.
Qed.

Lemma outer_loop_ends_witness :
  outer_loop chain approx_sin approx_pi chain_solve 102 chain_in_out
    <> (Ok false, chain_in_out).
Proof.
  apply outer_loop_ends. vm_compute. lia.
Defined.

(** ** Registering inlets and outlets *)

Ltac record_simpl_in H := revert H; record_simpl; intros H.


Lemma where_from_complete (flags : list bool) (i x : nat) :
  flags !! x = Some true -> In (i + x)%nat (where_from i flags).
Proof.
  revert i x. induction flags as [|b flags IH]; intros i x Hx; [discriminate|].
  destruct x as [|x]; simpl in *.
  - injection Hx as ->. left. lia.
  - replace (i + S x)%nat with (S i + x)%nat by lia.
    destruct b; [right|]; apply IH, Hx.
Qed.

Lemma sp_where_iff (flags : list bool) (x : nat) :
  In x (sp_where flags) <-> flags !! x = Some true.
Proof.
  split; intros H.
  - pose proof (sp_where_bound _ _ H) as Hlt.
    pose proof (sp_where_set _ _ H) as Hset.
    rewrite <- Hset. apply list_lookup_lookup_total_lt. exact Hlt.
  - exact (where_from_complete flags 0 x H).
Qed.

Lemma lookup_total_insert_cases {A} `{Inhabited A} (l : list A) (i j : nat)
    (x : A) :
  <[i:=x]> l !!! j = x \/ <[i:=x]> l !!! j = l !!! j.
Proof.
  destruct (decide (i = j)) as [->|Hne].
  - destruct (decide (j < length l)%nat) as [Hlt|Hge].
    + left. apply list_lookup_total_insert_eq. exact Hlt.
    + right. rewrite list_insert_ge by lia. reflexivity.
  - right. apply list_lookup_total_insert_ne. exact Hne.
Qed.

Lemma put_indices_stays {A} `{Inhabited A} (arr : list A) (Ps : list nat) (v : A)
    (p : nat) :
  arr !!! p = v -> put_indices arr Ps v !!! p = v.
Proof.
  unfold put_indices. revert arr. induction Ps as [|q Ps IH]; intros arr Hp; simpl.
  - exact Hp.
  - apply IH. destruct (lookup_total_insert_cases arr q p v) as [E|E];
      rewrite E; [reflexivity|exact Hp].
Qed.

Lemma put_indices_sets {A} `{Inhabited A} (arr : list A) (Ps : list nat) (v : A)
    (p : nat) :
  In p Ps -> (p < length arr)%nat -> put_indices arr Ps v !!! p = v.
Proof.
  unfold put_indices. revert arr. induction Ps as [|q Ps IH]; intros arr Hin Hlt;
    [destruct Hin|]. simpl.
  destruct (Nat.eq_dec q p) as [->|Hne].
  - apply (put_indices_stays _ Ps v p).
    apply list_lookup_total_insert_eq. exact Hlt.
  - destruct Hin as [Heq|Hin]; [contradiction|].
    apply IH; [exact Hin|]. rewrite length_insert. exact Hlt.
Qed.

Lemma take_indices_ok {A} (arr : list A) (Ps : list nat) (s s' : State)
    (xs : list A) :
  take_indices arr Ps s = (Ok xs, s') ->
  s' = s /\ Forall (fun p => (p < length arr)%nat) Ps.
Proof.
  revert xs s'. induction Ps as [|p Ps IH]; intros xs s' Hrun; simpl in Hrun.
  - injection Hrun as _ <-. split; [reflexivity|constructor].
  - destruct (arr !! p) as [x|] eqn:Ex; [|discriminate].
    unfold bind in Hrun.
    destruct (take_indices arr Ps s) as [[ys|e] s1]; [|discriminate].
    destruct (IH ys s1 eq_refl) as [-> Hall].
    injection Hrun as _ <-. split; [reflexivity|].
    constructor; [|exact Hall]. apply lookup_lt_is_Some. eauto.
Qed.

Section Registration.
Variable net : Network.

Lemma inlet_menisci_keep_pores (interface : list nat) (X : list bool) (Y : list Q)
    (Z : list bool) :
  keeps (fun σ => pore_inlets σ = X /\ pore_inv_frac σ = Y /\ pore_invaded σ = Z)
        (for_each interface (inlet_meniscus net)).
Proof. keeps_split; intros ? H; exact H. Qed.

Lemma set_inlets_ok (Ps : list nat) (mode : string) (s s' : State) :
  set_inlets net Ps mode s = (Ok tt, s') ->
  let base := if clears mode then broadcast_pores net false else pore_inlets s in
  let flags := put_indices base Ps (if is_remove mode then false else true) in
  Forall (fun p => (p < length (pore_outlets s))%nat) Ps
  /\ pore_inlets s' = flags
  /\ pore_inv_frac s' = put_indices (pore_inv_frac s) (sp_where flags) 1
  /\ pore_invaded s' = put_indices (pore_invaded s) (sp_where flags) true.
Proof.
  unfold set_inlets. intros Hrun. cbv zeta.
  unfold bind at 1 in Hrun.
  assert (Hwhen : when (clears mode)
            (modify (upd_pore_inlets (broadcast_pores net false))) s
          = (Ok tt, if clears mode return State
                    then upd_pore_inlets (broadcast_pores net false) s else s))
    by (destruct (clears mode); reflexivity).
  rewrite Hwhen in Hrun. clear Hwhen.
  set (s0 := if clears mode return State then _ else s) in Hrun.
  assert (H0 : pore_outlets s0 = pore_outlets s
               /\ pore_inv_frac s0 = pore_inv_frac s
               /\ pore_invaded s0 = pore_invaded s
               /\ pore_inlets s0
                  = if clears mode then broadcast_pores net false else pore_inlets s)
    by (subst s0; destruct (clears mode); repeat split).
  destruct H0 as (Ho & Hf & Hi & Hl). clearbody s0.
  rewrite bind_get in Hrun. unfold bind at 1 in Hrun.
  destruct (take_indices (pore_outlets s0) Ps s0) as [[picked|e] s1] eqn:Et;
    [|discriminate].
  destruct (take_indices_ok _ _ _ _ _ Et) as [-> Hrange].
  unfold bind at 1 in Hrun.
  destruct (Nat.ltb 0 (count_true picked)); [discriminate|].
  unfold when, ret in Hrun.
  unfold bind at 1, modify at 1 in Hrun. rewrite bind_get in Hrun.
  unfold bind at 1, modify at 1 in Hrun.
  unfold bind at 1, modify at 1 in Hrun.
  unfold bind at 1, modify at 1 in Hrun.
  unfold bind at 1, modify at 1 in Hrun.
  record_simpl_in Hrun.
  match type of Hrun with
  | for_each ?l ?b ?st = _ =>
      pose proof (inlet_menisci_keep_pores l _ _ _ st
                    (conj eq_refl (conj eq_refl eq_refl))) as Hk
  end.
  rewrite Hrun in Hk. simpl snd in Hk. record_simpl_in Hk.
  destruct Hk as (K1 & K2 & K3).
  rewrite Ho in Hrange. rewrite Hl, ?Hf, ?Hi in *.
  repeat split; assumption.
Qed.

End Registration.

(** X6: when [set_inlets] returns, every pore flagged as inlet is full of
    invading phase and flagged invaded, and unless the mode is ['remove']
    each requested pore is flagged as inlet. *)
Theorem set_inlets_floods_inlets (net : Network) (Ps : list nat) (mode : string)
    (s s' : State) :
  length (pore_inlets s) = Np net ->
  length (pore_outlets s) = Np net ->
  length (pore_inv_frac s) = Np net ->
  length (pore_invaded s) = Np net ->
  set_inlets net Ps mode s = (Ok tt, s') ->
  (forall p, (p < Np net)%nat -> pore_inlets s' !!! p = true ->
     pore_inv_frac s' !!! p = 1 /\ pore_invaded s' !!! p = true)
  /\ (is_remove mode = false ->
      forall p, In p Ps -> (p < Np net)%nat /\ pore_inlets s' !!! p = true).
Proof.
  intros Hli Hlo Hlf Hlv Hrun.
  destruct (set_inlets_ok net Ps mode s s' Hrun) as (Hrange & Hin & Hfr & Hinv).
  cbv zeta in Hin, Hfr, Hinv.
  assert (Hbase : length (if clears mode then broadcast_pores net false
                          else pore_inlets s) = Np net).
  { destruct (clears mode); [apply length_replicate|exact Hli]. }
  split.
  - intros p Hp Hflag.
    assert (Hmem : In p (sp_where (pore_inlets s'))).
    { apply sp_where_iff. rewrite <- Hflag.
      apply list_lookup_lookup_total_lt.
      rewrite Hin, put_indices_length, Hbase. exact Hp. }
    rewrite Hin in Hmem. rewrite Hfr, Hinv.
    split; apply put_indices_sets; try exact Hmem; lia.
  - intros Hmode p Hp.
    assert (Hlt : (p < Np net)%nat).
    { rewrite <- Hlo. rewrite Forall_forall in Hrange. apply Hrange.
      apply list_elem_of_In. exact Hp. }
    split; [exact Hlt|]. rewrite Hin, Hmode.
    apply put_indices_sets; [exact Hp|]. rewrite Hbase. exact Hlt.
Qed.

Lemma set_inlets_floods_inlets_witness :
  (forall p, (p < Np chain)%nat ->
     pore_inlets (snd (set_inlets chain [0%nat] "add" chain_ready)) !!! p = true ->
     pore_inv_frac (snd (set_inlets chain [0%nat] "add" chain_ready)) !!! p = 1
     /\ pore_invaded (snd (set_inlets chain [0%nat] "add" chain_ready)) !!! p = true)
  /\ pore_inlets (snd (set_inlets chain [0%nat] "add" chain_ready)) !!! 0%nat = true.
Proof.
  destruct (set_inlets_floods_inlets chain [0%nat] "add" chain_ready
              (snd (set_inlets chain [0%nat] "add" chain_ready))
              eq_refl eq_refl eq_refl eq_refl ltac:(vm_compute; reflexivity))
    as [Hfull Hflag].
  split; [exact Hfull|].
  exact (proj2 (Hflag eq_refl 0%nat (or_introl eq_refl))).
Defined.

(** X7: when [set_outlets] returns, [self._outlets] lists the pores flagged
    as outlets, each once; unless the mode is ['remove'] it holds every
    requested pore. *)
Theorem set_outlets_lists_outlets (net : Network) (Ps : list nat) (mode : string)
    (s s' : State) :
  length (pore_inlets s) = Np net ->
  length (pore_outlets s) = Np net ->
  set_outlets net Ps mode s = (Ok tt, s') ->
  exists outlets,
    _outlets s' = Some outlets
    /\ List.NoDup outlets
    /\ (forall p, In p outlets <-> pore_outlets s' !! p = Some true)
    /\ (is_remove mode = false -> forall p, In p Ps -> In p outlets).
Proof.
  intros Hli Hlo. unfold set_outlets. intros Hrun.
  unfold bind at 1 in Hrun.
  assert (Hwhen : when (clears mode)
            (modify (upd_pore_outlets (broadcast_pores net false))) s
          = (Ok tt, if clears mode return State
                    then upd_pore_outlets (broadcast_pores net false) s else s))
    by (destruct (clears mode); reflexivity).
  rewrite Hwhen in Hrun. clear Hwhen.
  set (s0 := if clears mode return State then _ else s) in Hrun.
  assert (H0 : pore_inlets s0 = pore_inlets s
               /\ length (pore_outlets s0) = Np net).
  { subst s0. destruct (clears mode); split; try reflexivity; try exact Hlo.
    apply length_replicate. }
  destruct H0 as (Hi & Ho). clearbody s0.
  rewrite bind_get in Hrun. unfold bind at 1 in Hrun.
  destruct (take_indices (pore_inlets s0) Ps s0) as [[picked|e] s1] eqn:Et;
    [|discriminate].
  destruct (take_indices_ok _ _ _ _ _ Et) as [-> Hrange].
  unfold bind at 1 in Hrun.
  destruct (Nat.ltb 0 (count_true picked)); [discriminate|].
  unfold when, ret in Hrun. cbv zeta in Hrun.
  unfold bind, modify in Hrun. injection Hrun as <-. record_simpl.
  eexists. split; [reflexivity|]. split; [apply where_from_NoDup|].
  split; [intros p; apply sp_where_iff|].
  intros Hmode p Hp. apply sp_where_iff. rewrite Hmode.
  assert (Hlt : (p < length (pore_outlets s0))%nat).
  { rewrite Ho, <- Hli, <- Hi. rewrite Forall_forall in Hrange. apply Hrange.
    apply list_elem_of_In. exact Hp. }
  rewrite list_lookup_lookup_total_lt
    by (rewrite put_indices_length; exact Hlt).
  f_equal. apply put_indices_sets; assumption.
Qed.

Lemma set_outlets_lists_outlets_witness :
  exists outlets,
    _outlets (snd (set_outlets chain [2%nat] "overwrite"
                     (snd (set_inlets chain [0%nat] "add" chain_ready))))
      = Some outlets
    /\ In 2%nat outlets.
Proof.
  destruct (set_outlets_lists_outlets chain [2%nat] "overwrite"
              (snd (set_inlets chain [0%nat] "add" chain_ready))
              (snd (set_outlets chain [2%nat] "overwrite"
                      (snd (set_inlets chain [0%nat] "add" chain_ready)))))
    as (outlets & H1 & _ & _ & H4).
  - reflexivity.
  - reflexivity.
  - vm_compute. reflexivity.
  - exists outlets. split; [exact H1|].
    apply H4; [reflexivity|left; reflexivity].
Defined.

(** ** Outflow accounting *)

Section Outflow.
Variable net : Network.
Variable sp_sin : Q -> Q.
Variable sp_pi : Q.

Lemma outlet_loop_keeps_totals (outlets : list nat) (rate : Q) (a b : Q) :
  keeps (fun σ => _total_inv_out σ = a /\ _total_def_out σ = b)
    (for_fold outlets rate (fun rate p =>
       for_fold (find_neighbor_throats net p) rate
         (fluid_out_throat net sp_sin sp_pi p))).
Proof. keeps_split; intros ? H; exact H. Qed.

End Outflow.

(** X8: without registered outlets [_calc_fluid_out] raises
    [AttributeError]; when it returns, each cumulative outflow has grown by
    exactly the outflow it reports for this step, and the invading outflow of
    the step is the rate it has summed times the time step. *)
Theorem calc_fluid_out_accounts (net : Network) (sp_sin : Q -> Q) (sp_pi : Q)
    (dt : Q) (s : State) :
  (_outlets s = None ->
   fst (_calc_fluid_out net sp_sin sp_pi dt s) = Raise (AttributeError "_outlets"))
  /\ (forall s', _calc_fluid_out net sp_sin sp_pi dt s = (Ok tt, s') ->
        _total_inv_out s' = _total_inv_out s + _inv_out s'
        /\ _total_def_out s' = _total_def_out s + _def_out s'
        /\ _inv_out s' = _inv_out_rate s' * dt).
Proof.
  unfold _calc_fluid_out, read_outlets. split.
  - intros Hnone. unfold bind, modify, get. record_simpl. rewrite Hnone.
    reflexivity.
  - intros s'. cbv zeta.
    unfold bind at 1, modify at 1. unfold bind at 1, modify at 1.
    unfold bind at 1, modify at 1. unfold bind at 1. rewrite bind_get.
    record_simpl.
    destruct (_outlets s) as [outlets|]; [|discriminate].
    unfold ret at 1. unfold bind at 1.
    match goal with
    | |- context [for_fold outlets ?r ?b ?st] =>
        pose proof (outlet_loop_keeps_totals net sp_sin sp_pi outlets r _ _ st
                      (conj eq_refl eq_refl)) as Hk;
        destruct (for_fold outlets r b st) as [[rate|e] σ]
    end; [|discriminate].
    simpl snd in Hk. record_simpl_in Hk. destruct Hk as [Hi Hd].
    unfold bind, modify. intros Hrun. injection Hrun as <-. record_simpl.
    rewrite Hi, Hd. repeat split.
Qed.

(** ** The time step keeps the interface inside the network *)

Lemma for_fold_prefix {A B} (I : list A -> B -> State -> Prop) (l : list A)
    (body : B -> A -> M B) :
  (forall done x rest acc s r s',
     l = done ++ x :: rest -> I done acc s -> body acc x s = (Ok r, s') ->
     I (done ++ [x]) r s') ->
  forall acc s r s', I [] acc s -> for_fold l acc body s = (Ok r, s') -> I l r s'.
Proof.
  intros Hbody.
  assert (Hgen : forall rest done acc s r s',
    l = done ++ rest -> I done acc s ->
    for_fold rest acc body s = (Ok r, s') -> I l r s').
  { induction rest as [|x rest IH]; intros done acc s r s' Hl Hacc Hrun;
      simpl in Hrun.
    - injection Hrun as <- <-. rewrite Hl, app_nil_r. exact Hacc.
    - unfold bind in Hrun.
      destruct (body acc x s) as [[r1|e] s1] eqn:E; [|discriminate].
      apply (IH (done ++ [x]) r1 s1 r s'); [|eapply Hbody; eassumption|exact Hrun].
      rewrite <- app_assoc. exact Hl. }
  intros acc s r s'. apply (Hgen l []). reflexivity.
Qed.

Lemma flows_of_start (s : State) (q qs : list Q) :
  flows_of s (upd_pore_qsum qs (upd_th_q q s)).
Proof. exists q, qs. reflexivity. Qed.

Lemma flows_of_th_q (s0 s : State) (q : list Q) :
  flows_of s0 s -> flows_of s0 (upd_th_q q s).
Proof. intros (q0 & qs & ->). exists q, qs. reflexivity. Qed.

Lemma flows_of_pore_qsum (s0 s : State) (qs : list Q) :
  flows_of s0 s -> flows_of s0 (upd_pore_qsum qs s).
Proof. intros (q0 & qs0 & ->). exists q0, qs. reflexivity. Qed.

Section TimeStepSafe.
Variable net : Network.
Variable sp_sin : Q -> Q.
Variable sp_pi : Q.

Lemma flows_of_throat_flow (s0 s : State) (th : nat) :
  flows_of s0 s ->
  throat_flow net sp_sin sp_pi th s = throat_flow net sp_sin sp_pi th s0.
Proof. intros (q & qs & ->). reflexivity. Qed.


Lemma flows_set_store (s0 s : State) (ths : list nat) (x : nat) :
  flows_set net sp_sin sp_pi s0 ths s ->
  flows_set net sp_sin sp_pi s0 ths
    (upd_th_q (<[x := throat_flow net sp_sin sp_pi x s]> (_th_q s)) s).
Proof.
  intros (Hf & Hlen & Hq). split; [apply flows_of_th_q, Hf|].
  record_simpl. split; [rewrite length_insert; exact Hlen|].
  intros th Hth.
  destruct (decide (x = th)) as [->|Hne].
  - destruct (decide (th < length (_th_q s))%nat) as [Hlt|Hge].
    + rewrite list_lookup_total_insert_eq by exact Hlt.
      apply flows_of_throat_flow, Hf.
    + rewrite list_insert_ge by lia. apply Hq, Hth.
  - rewrite list_lookup_total_insert_ne by exact Hne. apply Hq, Hth.
Qed.

Lemma flow_loop_sets (s0 : State) (ths : list nat) (d0 : Q) (s s' : State) (r : Q) :
  0 <= d0 ->
  (forall th, In th ths -> (th < Nt net)%nat) ->
  flows_set net sp_sin sp_pi s0 [] s ->
  for_fold ths d0 (dt_throat_flow net sp_sin sp_pi) s = (Ok r, s') ->
  flows_set net sp_sin sp_pi s0 ths s' /\ 0 <= r /\ r <= d0.
Proof.
  intros Hd0 Hrange Hs Hrun.
  apply (for_fold_prefix
           (fun done d σ => flows_set net sp_sin sp_pi s0 done σ /\ 0 <= d /\ d <= d0)
           ths (dt_throat_flow net sp_sin sp_pi)) with (acc := d0) (s := s);
    [|split; [exact Hs|lra]|exact Hrun].
  intros done x rest acc σ r1 σ1 Hl (Hset & Hacc0 & Hacc1) Hbody.
  change (dt_throat_flow net sp_sin sp_pi acc x σ)
    with (Ok (if Qeqb (throat_volume net !!! x) 0 then 0 else acc),
          upd_th_q (<[x := throat_flow net sp_sin sp_pi x σ]> (_th_q σ)) σ)
    in Hbody.
  injection Hbody as <- <-.
  split.
  - destruct Hset as (Hf & Hlen & Hq).
    split; [apply flows_of_th_q, Hf|]. record_simpl.
    split; [rewrite length_insert; exact Hlen|].
    intros th Hth. apply in_app_or in Hth.
    assert (Hx : (x < length (_th_q σ))%nat).
    { rewrite Hlen. apply Hrange. rewrite Hl. apply in_or_app. right. left.
      reflexivity. }
    destruct (decide (x = th)) as [->|Hne].
    + rewrite list_lookup_total_insert_eq by exact Hx.
      apply flows_of_throat_flow, Hf.
    + rewrite list_lookup_total_insert_ne by exact Hne.
      destruct Hth as [Hth|[Hth|[]]]; [apply Hq, Hth|contradiction].
  - destruct (Qeqb (throat_volume net !!! x) 0); split; lra.
Qed.


(** The travel bound *)

Lemma set_dx_max_run (th : nat) (s : State) (m0 : Q) (rest : list Q) :
  _menisci s !!! th = m0 :: rest ->
  _set_dx_max th s
  = (Ok (dx_max_policy (_th_q s !!! th) m0 (List.last rest m0)), s).
Proof.
  intros Emen. unfold _set_dx_max, bind, load, get. simpl. rewrite Emen.
  assert (Hx : (if Qltb (_th_q s !!! th) 0
                then py_last (m0 :: rest) else py_first (m0 :: rest)) s
               = (Ok (if Qltb (_th_q s !!! th) 0
                      then List.last rest m0 else m0), s)).
  { destruct (Qltb (_th_q s !!! th) 0); [apply py_last_cons|reflexivity]. }
  rewrite Hx. unfold dx_max_policy, cap.
  destruct (Qltb (_th_q s !!! th) 0) eqn:Eq.
  - simpl. destruct (Qgtb (List.last rest m0) 0.50) eqn:Ex; [reflexivity|].
    assert (Hq : Qgtb (_th_q s !!! th) 0 = false)
      by (apply Qgtb_le; q_reflect; lra).
    rewrite Hq. reflexivity.
  - simpl. destruct (Qgtb (_th_q s !!! th) 0) eqn:Eq'; simpl; [|reflexivity].
    destruct (Qltb m0 0.50) eqn:Ex; [|reflexivity].
    rewrite py_last_cons. reflexivity.
Qed.

Lemma set_dx_max_empty (th : nat) (s : State) (r : Q) (s' : State) :
  _menisci s !!! th = [] -> _set_dx_max th s <> (Ok r, s').
Proof.
  intros Emen. unfold _set_dx_max, bind, load, get. simpl. rewrite Emen.
  destruct (Qltb (_th_q s !!! th) 0); discriminate.
Qed.

Lemma dx_max_policy_safe (q m0 ml : Q) :
  0 <= m0 -> m0 <= ml -> ml <= 1 ->
  0 <= dx_max_policy q m0 ml
  /\ (q < 0 -> ml + dx_max_policy q m0 ml <= 1)
  /\ (0 < q -> 0 <= m0 - dx_max_policy q m0 ml).
Proof.
  intros H0 H1 H2. unfold dx_max_policy, cap.
  destruct (Qltb q 0 && Qgtb ml 0.50) eqn:E1.
  - destruct (Qltb m0 0.50);
      match goal with
      | |- context [Qgtb ?a ?b] => destruct (Qgtb a b) eqn:E
      end; split_conds; repeat split; intros; lra.
  - destruct (Qgtb q 0 && Qltb m0 0.50) eqn:E2.
    + destruct (Qgtb ml 0.50);
        match goal with
        | |- context [Qgtb ?a m0] => destruct (Qgtb a m0) eqn:E
        end; split_conds; repeat split; intros; lra.
    + split_conds; repeat split; intros; lra.
Qed.

Lemma last_in {A} (l : list A) (x d : A) : In (List.last (x :: l) d) (x :: l).
Proof.
  revert x. induction l as [|y l IH]; intros x; [left; reflexivity|].
  right. exact (IH y).
Qed.

Lemma sorted_bounds (m0 : Q) (rest : list Q) :
  Sorted Qle (m0 :: rest) ->
  m0 <= List.last rest m0
  /\ Forall (fun m => m0 <= m /\ m <= List.last rest m0) (m0 :: rest).
Proof.
  intros Hs. apply Sorted_StronglySorted in Hs; [|intros x y z; apply Qle_trans].
  assert (Hgen : forall l x, StronglySorted Qle (x :: l) ->
            Forall (fun m => x <= m /\ m <= List.last l x) (x :: l)).
  { induction l as [|y l IH]; intros x Hx.
    - repeat constructor; apply Qle_refl.
    - inversion Hx as [|? ? Hl Hall]; subst.
      specialize (IH y Hl). rewrite last_default.
      assert (Hxy : x <= y) by (inversion Hall; assumption).
      assert (Hyl : y <= List.last l y)
        by (inversion IH as [|? ? [_ H] _]; exact H).
      constructor; [split; [apply Qle_refl|lra]|].
      rewrite Forall_forall in IH, Hall |- *.
      intros m Hm. split; [apply Hall, Hm|apply IH, Hm]. }
  specialize (Hgen rest m0 Hs). split; [|exact Hgen].
  inversion Hgen as [|? ? [_ H] _]; subst. exact H.
Qed.

Lemma dt_throat_travel_run (acc : Q) (x : nat) (s s' : State) (r : Q) :
  dt_throat_travel net acc x s = (Ok r, s') ->
  exists m0 rest,
    _menisci s !!! x = m0 :: rest /\ s' = s
    /\ r = (if Qeqb (_th_q s !!! x / throat_area net !!! x) 0 then acc
            else if Qltb (dx_max_policy (_th_q s !!! x) m0 (List.last rest m0)
                            * throat_length net !!! x
                            / Qabs (_th_q s !!! x / throat_area net !!! x)) acc
                 then dx_max_policy (_th_q s !!! x) m0 (List.last rest m0)
                        * throat_length net !!! x
                        / Qabs (_th_q s !!! x / throat_area net !!! x)
                 else acc).
Proof.
  unfold dt_throat_travel. unfold bind at 1.
  destruct (_menisci s !!! x) as [|m0 rest] eqn:Emen.
  - destruct (_set_dx_max x s) as [[dx|e] s1] eqn:E; [|discriminate].
    exfalso. exact (set_dx_max_empty x s dx s1 Emen E).
  - rewrite (set_dx_max_run x s m0 rest Emen). rewrite bind_load. cbv zeta.
    intros H. exists m0, rest. split; [reflexivity|].
    destruct (Qeqb (_th_q s !!! x / throat_area net !!! x) 0);
      [injection H as <- <-; split; reflexivity|].
    unfold ret in H. injection H as <- <-. split; reflexivity.
Qed.

Lemma quotient_nonneg (a b : Q) : 0 <= a -> 0 < b -> 0 <= a / b.
Proof.
  intros Ha Hb. apply Qle_shift_div_l; [exact Hb|]. lra.
Qed.

Lemma Qabs_nonzero_pos (v : Q) : ~ v == 0 -> 0 < Qabs v.
Proof.
  intros Hv. destruct (Qlt_le_dec 0 (Qabs v)) as [H|H]; [exact H|].
  exfalso. apply Hv. pose proof (Qabs_nonneg v).
  assert (E : Qabs v == 0) by lra.
  destruct (Qlt_le_dec v 0) as [Hn|Hp].
  - rewrite Qabs_neg in E by lra. lra.
  - rewrite Qabs_pos in E by exact Hp. exact E.
Qed.

Lemma travel_loop (s0 : State) (ths : list nat) (d1 : Q) (s s' : State) (r : Q) :
  0 <= d1 ->
  (forall th, In th ths ->
     0 < throat_length net !!! th
     /\ ascending (_menisci s !!! th) /\ within_throat (_menisci s !!! th)) ->
  for_fold ths d1 (dt_throat_travel net) s = (Ok r, s') ->
  s' = s /\ 0 <= r /\ r <= d1
  /\ forall th, In th ths ->
       travel_bounded net th (_th_q s !!! th) (_menisci s !!! th) r.
Proof.
  intros Hd1 Hths Hrun.
  apply (for_fold_prefix
           (fun done d σ => σ = s /\ 0 <= d /\ d <= d1
              /\ forall th, In th done ->
                   travel_bounded net th (_th_q s !!! th) (_menisci s !!! th) d)
           ths (dt_throat_travel net)) with (acc := d1) (s := s);
    [|repeat split; try lra; intros th []|exact Hrun].
  intros done x rest acc σ r1 σ1 Hl (-> & Hacc0 & Hacc1 & Hb) Hbody.
  destruct (dt_throat_travel_run _ _ _ _ _ Hbody) as (m0 & tl & Emen & -> & Hr).
  assert (Hx : In x ths) by (rewrite Hl; apply in_or_app; right; left; reflexivity).
  destruct (Hths x Hx) as (Hlen & Hsort & Hwithin).
  rewrite Emen in Hsort, Hwithin.
  destruct (sorted_bounds m0 tl Hsort) as [Hml Hall].
  assert (H0 : 0 <= m0) by (inversion Hwithin as [|? ? [H _] _]; exact H).
  assert (H1 : List.last tl m0 <= 1).
  { unfold within_throat in Hwithin. rewrite Forall_forall in Hwithin.
    pose proof (last_in tl m0 m0) as Hin. rewrite last_default in Hin.
    apply list_elem_of_In in Hin. destruct (Hwithin _ Hin) as [_ H]. exact H. }
  destruct (dx_max_policy_safe (_th_q s !!! x) m0 (List.last tl m0) H0 Hml H1)
    as (Hdx0 & _ & _).
  split; [reflexivity|].
  destruct (Qeqb (_th_q s !!! x / throat_area net !!! x) 0) eqn:Ev.
  - subst r1. split; [exact Hacc0|]. split; [exact Hacc1|].
    intros th Hth. apply in_app_or in Hth. destruct Hth as [Hth|[<-|[]]].
    + apply Hb, Hth.
    + intros m0' rest' _ Hv. exfalso. apply Hv. apply Qeqb_eq. exact Ev.
  - apply Qeqb_neq in Ev. pose proof (Qabs_nonzero_pos _ Ev) as Hpos.
    set (dn := dx_max_policy (_th_q s !!! x) m0 (List.last tl m0)
               * throat_length net !!! x
               / Qabs (_th_q s !!! x / throat_area net !!! x)) in *.
    assert (Hdn : 0 <= dn).
    { apply quotient_nonneg; [|exact Hpos].
      apply Qmult_le_0_compat; [exact Hdx0|lra]. }
    assert (Hr1 : r1 <= acc /\ r1 <= dn /\ 0 <= r1).
    { subst r1. destruct (Qltb dn acc) eqn:E; q_reflect; repeat split; lra. }
    destruct Hr1 as (Hra & Hrd & Hr0).
    split; [exact Hr0|]. split; [lra|].
    intros th Hth. apply in_app_or in Hth. destruct Hth as [Hth|[<-|[]]].
    + intros m0' rest' E' Hv. pose proof (Hb th Hth m0' rest' E' Hv). lra.
    + intros m0' rest' E' _. rewrite Emen in E'. injection E' as <- <-.
      exact Hrd.
Qed.


(** The fill bound *)

Lemma set_dv_max_safe (p : nat) (q : Q) (s : State) :
  0 <= pore_inv_frac s !!! p -> pore_inv_frac s !!! p <= 1 ->
  0 <= _set_dv_max p q s
  /\ (0 < q -> pore_inv_frac s !!! p + _set_dv_max p q s <= 1)
  /\ (q < 0 -> 0 <= pore_inv_frac s !!! p - _set_dv_max p q s).
Proof.
  intros H0 H1. unfold _set_dv_max.
  destruct (Qgtb q 0 && Qltb (1 - pore_inv_frac s !!! p) 0.25) eqn:E1.
  - split_conds. repeat split; intros; lra.
  - destruct (Qltb q 0 && Qltb (pore_inv_frac s !!! p) 0.25) eqn:E2;
      split_conds; repeat split; intros; lra.
Qed.

Lemma supply_loop (s0 : State) (ths : list nat) (p : nat) (l : list (nat * Q))
    (acc : Q) (s s' : State) (r : Q) :
  flows_set net sp_sin sp_pi s0 ths s ->
  for_fold l acc (dt_pore_supply net sp_sin sp_pi p) s = (Ok r, s') ->
  flows_set net sp_sin sp_pi s0 ths s' /\ _pore_qsum s' = _pore_qsum s.
Proof.
  intros Hs Hrun.
  apply (for_fold_prefix
           (fun _ (_ : Q) σ => flows_set net sp_sin sp_pi s0 ths σ /\ _pore_qsum σ = _pore_qsum s)
           l (dt_pore_supply net sp_sin sp_pi p)) with (acc := acc) (s := s)
           (r := r); [|split; [exact Hs|reflexivity]|exact Hrun].
  intros done x rest a σ r1 σ1 _ (Hset & Hq) Hbody.
  unfold dt_pore_supply in Hbody. cbv zeta in Hbody.
  rewrite bind_get, bind_store in Hbody. unfold ret in Hbody.
  injection Hbody as _ <-. split; [apply flows_set_store, Hset|exact Hq].
Qed.

Lemma dt_pore_fill_run (s0 : State) (ths : list nat) (acc : Q) (p : nat)
    (s s' : State) (r : Q) :
  flows_set net sp_sin sp_pi s0 ths s ->
  (p < length (_pore_qsum s))%nat ->
  0 <= acc ->
  0 <= pore_volume net !!! p ->
  0 <= pore_inv_frac s !!! p -> pore_inv_frac s !!! p <= 1 ->
  dt_pore_fill net sp_sin sp_pi acc p s = (Ok r, s') ->
  flows_set net sp_sin sp_pi s0 ths s' /\ 0 <= r /\ r <= acc
  /\ fill_bounded net p s' r
  /\ length (_pore_qsum s') = length (_pore_qsum s)
  /\ forall p', p' <> p -> _pore_qsum s' !!! p' = _pore_qsum s !!! p'.
Proof.
  intros Hs Hp Hacc Hvol Hf0 Hf1. unfold dt_pore_fill. cbv zeta.
  rewrite bind_get. unfold bind at 1.
  destruct (for_fold _ 0 (dt_pore_supply net sp_sin sp_pi p) s)
    as [[qsum|e] s1] eqn:Eloop; [|discriminate].
  destruct (supply_loop s0 ths p _ _ _ _ _ Hs Eloop) as [Hs1 Hq1].
  rewrite bind_store, bind_get. record_simpl.
  set (s2 := upd_pore_qsum (<[p:=qsum]> (_pore_qsum s1)) s1).
  assert (Hs2 : flows_set net sp_sin sp_pi s0 ths s2).
  { destruct Hs1 as (Hfl & Hlen & Hq). split; [apply flows_of_pore_qsum, Hfl|].
    split; assumption. }
  assert (Hfrac : pore_inv_frac s2 = pore_inv_frac s).
  { destruct Hs as ((q & qs & ->) & _). destruct Hs1 as ((q' & qs' & E) & _).
    subst s2. rewrite E. reflexivity. }
  assert (Hqs : _pore_qsum s2 !!! p = qsum).
  { subst s2. record_simpl. apply list_lookup_total_insert_eq.
    rewrite Hq1. exact Hp. }
  set (d' := if Qeqb (pore_volume net !!! p) 0 then 0 else acc).
  assert (Hd' : 0 <= d' /\ d' <= acc
                /\ (Qeqb (pore_volume net !!! p) 0 = true -> d' <= 0)).
  { subst d'. destruct (Qeqb (pore_volume net !!! p) 0);
      repeat split; try lra; discriminate. }
  destruct Hd' as (Hd0 & Hd1 & Hdz).
  assert (Hdv : 0 <= _set_dv_max p qsum s2).
  { apply set_dv_max_safe; rewrite Hfrac; assumption. }
  intros Hrun.
  assert (Hr : 0 <= r /\ r <= d'
               /\ (~ qsum == 0 ->
                   r <= _set_dv_max p qsum s2 * pore_volume net !!! p / Qabs qsum)
               /\ s' = s2).
  { destruct (Qeqb qsum 0) eqn:Eq.
    - injection Hrun as <- <-. repeat split; try lra.
      intros Hne. exfalso. apply Hne. apply Qeqb_eq. exact Eq.
    - apply Qeqb_neq in Eq. pose proof (Qabs_nonzero_pos _ Eq) as Hpos.
      unfold ret in Hrun. injection Hrun as <- <-.
      set (dn := _set_dv_max p qsum s2 * pore_volume net !!! p / Qabs qsum).
      assert (Hdn : 0 <= dn).
      { apply quotient_nonneg; [|exact Hpos].
        apply Qmult_le_0_compat; assumption. }
      destruct (Qltb dn d') eqn:E; q_reflect; repeat split; try lra;
        intros _; lra. }
  destruct Hr as (Hr0 & Hr1 & Hr2 & ->).
  split; [exact Hs2|]. split; [exact Hr0|]. split; [lra|].
  split; [|split].
  - split; [intros Hz; specialize (Hdz Hz); lra|].
    rewrite Hqs. exact Hr2.
  - subst s2. record_simpl. rewrite length_insert, Hq1. reflexivity.
  - intros p' Hne. subst s2. record_simpl.
    rewrite list_lookup_total_insert_ne by (intros E; apply Hne; symmetry; exact E).
    rewrite Hq1. reflexivity.
Qed.

Lemma fill_loop (s0 : State) (ths ps : list nat) (d2 : Q) (s s' : State) (r : Q) :
  List.NoDup ps ->
  flows_set net sp_sin sp_pi s0 ths s ->
  length (_pore_qsum s) = Np net ->
  0 <= d2 ->
  (forall p, In p ps ->
     (p < Np net)%nat /\ 0 <= pore_volume net !!! p
     /\ 0 <= pore_inv_frac s0 !!! p /\ pore_inv_frac s0 !!! p <= 1) ->
  for_fold ps d2 (dt_pore_fill net sp_sin sp_pi) s = (Ok r, s') ->
  flows_set net sp_sin sp_pi s0 ths s' /\ 0 <= r /\ r <= d2
  /\ forall p, In p ps -> fill_bounded net p s' r.
Proof.
  intros Hnd Hs Hlen Hd2 Hps Hrun.
  assert (Hfrac : forall σ, flows_of s0 σ -> pore_inv_frac σ = pore_inv_frac s0).
  { intros σ (q & qs & ->). reflexivity. }
  assert (H : flows_set net sp_sin sp_pi s0 ths s' /\ length (_pore_qsum s') = Np net
              /\ 0 <= r /\ r <= d2
              /\ forall p, In p ps -> fill_bounded net p s' r).
  { apply (for_fold_prefix
             (fun done d σ =>
                flows_set net sp_sin sp_pi s0 ths σ /\ length (_pore_qsum σ) = Np net
                /\ 0 <= d /\ d <= d2
                /\ forall p, In p done -> fill_bounded net p σ d)
             ps (dt_pore_fill net sp_sin sp_pi)) with (acc := d2) (s := s);
      [|split; [exact Hs|]; split; [exact Hlen|]; split; [exact Hd2|];
        split; [lra|intros p []]|exact Hrun].
    intros done x rest acc σ r1 σ1 Hl (Hset & Hqlen & Hacc0 & Hacc1 & Hb) Hbody.
    assert (Hx : In x ps)
      by (rewrite Hl; apply in_or_app; right; left; reflexivity).
    assert (Hnot : ~ In x done).
    { rewrite Hl in Hnd. apply NoDup_remove_2 in Hnd. intros Hin. apply Hnd.
      apply in_or_app. left. exact Hin. }
    destruct (Hps x Hx) as (Hxlt & Hvol & Hf0 & Hf1).
    pose proof (Hfrac σ (proj1 Hset)) as Eσ.
    destruct (dt_pore_fill_run s0 ths acc x σ σ1 r1 Hset) as
      (Hset1 & Hr0 & Hr1 & Hfb & Hlen1 & Hsame); try assumption;
      try (rewrite Eσ; assumption); [rewrite Hqlen; exact Hxlt|].
    split; [exact Hset1|]. split; [rewrite Hlen1; exact Hqlen|].
    split; [exact Hr0|]. split; [lra|].
    intros p Hp. apply in_app_or in Hp. destruct Hp as [Hp|[<-|[]]];
      [|exact Hfb].
    assert (Hne : p <> x) by (intros ->; contradiction).
    destruct (Hb p Hp) as [Hz Hq]. unfold fill_bounded.
    rewrite (Hsame p Hne).
    replace (_set_dv_max p (_pore_qsum σ !!! p) σ1)
      with (_set_dv_max p (_pore_qsum σ !!! p) σ)
      by (unfold _set_dv_max; rewrite Eσ, (Hfrac σ1 (proj1 Hset1)); reflexivity).
    split; [intros E; specialize (Hz E); lra|].
    intros E. specialize (Hq E). lra. }
  destruct H as (H1 & _ & H2 & H3 & H4).
  split; [exact H1|]. split; [exact H2|]. split; [exact H3|exact H4].
Qed.

(** The whole computation *)

Lemma calculate_dt_safe (s s1 : State) (dt : Q) :
  step_ready net s ->
  _calculate_dt net sp_sin sp_pi s = (Ok dt, s1) ->
  flows_set net sp_sin sp_pi s (sp_where (throat_contested s)) s1
  /\ 0 <= dt /\ dt <= initial_dt s
  /\ (forall th, In th (sp_where (throat_contested s)) ->
        travel_bounded net th (_th_q s1 !!! th) (_menisci s1 !!! th) dt)
  /\ (forall p, In p (sp_where (pore_contested s)) -> fill_bounded net p s1 dt).
Proof.
  intros (Hinit & Hnt & Hnp & Hths & Hps). unfold _calculate_dt.
  rewrite bind_get, bind_get. cbv zeta. unfold bind at 1. unfold modify at 1.
  unfold bind at 1. unfold modify at 1. rewrite bind_get. record_simpl.
  set (sa := upd_pore_qsum (sp_zeros (Np net)) (upd_th_q (sp_zeros (Nt net)) s)).
  assert (Hsa : flows_set net sp_sin sp_pi s [] sa).
  { split; [apply flows_of_start|]. split; [apply length_replicate|intros th []]. }
  unfold bind at 1.
  destruct (for_fold _ _ (dt_throat_flow net sp_sin sp_pi) sa)
    as [[d1|e] σ1] eqn:E1; [|discriminate].
  destruct (flow_loop_sets s (sp_where (throat_contested s)) (initial_dt s)
              sa σ1 d1 Hinit) as (Hσ1 & Hd10 & Hd11);
    [|exact Hsa|exact E1|].
  { intros th Hth. rewrite <- Hnt. apply sp_where_bound, Hth. }
  assert (Hfl1 : forall σ, flows_of s σ ->
            throat_contested σ = throat_contested s
            /\ pore_contested σ = pore_contested s
            /\ _menisci σ = _menisci s /\ pore_inv_frac σ = pore_inv_frac s).
  { intros σ (q & qs & ->). repeat split. }
  destruct (Hfl1 σ1 (proj1 Hσ1)) as (Ec1 & Ep1 & Em1 & Ef1).
  rewrite bind_get, Ec1. unfold bind at 1.
  destruct (for_fold _ d1 (dt_throat_travel net) σ1)
    as [[d2|e] σ2] eqn:E2; [|discriminate].
  destruct (travel_loop σ1 (sp_where (throat_contested s)) d1 σ1 σ2 d2 Hd10)
    as (-> & Hd20 & Hd21 & Hb2);
    [|exact E2|].
  { intros th Hth. rewrite Em1. destruct (Hths th Hth) as (_ & H2 & H3 & H4).
    repeat split; assumption. }
  rewrite bind_get, Ep1. intros E3.
  assert (Hlen1 : length (_pore_qsum σ1) = Np net).
  { destruct Hσ1 as ((q & qs & E) & _).
    assert (Hsaq : _pore_qsum sa = sp_zeros (Np net)) by reflexivity.
    clear - E1 Hsaq.
    assert (Hk : keeps (fun σ => _pore_qsum σ = sp_zeros (Np net))
                   (for_fold (sp_where (throat_contested s))
                      (_net_vol s / _inj_rate s * 0.01)
                      (dt_throat_flow net sp_sin sp_pi)))
      by (keeps_split; intros ? H; exact H).
    specialize (Hk sa Hsaq). rewrite E1 in Hk. simpl in Hk. rewrite Hk.
    apply length_replicate. }
  destruct (fill_loop s (sp_where (throat_contested s))
              (sp_where (pore_contested s)) d2 σ1 s1 dt
              (where_from_NoDup _ _) Hσ1 Hlen1 Hd20)
    as (Hs1 & Hdt0 & Hdt1 & Hb3); [|exact E3|].
  { intros p Hp. destruct (Hps p Hp) as (H1 & H2 & H3).
    split; [rewrite <- Hnp; apply sp_where_bound, Hp|]. repeat split; assumption. }
  split; [exact Hs1|]. split; [exact Hdt0|].
  split; [lra|]. split; [|exact Hb3].
  intros th Hth. destruct (Hfl1 s1 (proj1 Hs1)) as (_ & _ & Em & _).
  destruct Hs1 as (_ & _ & Hq1). destruct Hσ1 as (_ & _ & Hqσ).
  rewrite (Hq1 th Hth), Em, <- (Hqσ th Hth), <- Em1.
  intros m0 rest E Hv. pose proof (Hb2 th Hth m0 rest E Hv). lra.
Qed.

End TimeStepSafe.

Lemma shift_within (q area len dt : Q) (men : list Q) :
  0 < area -> 0 < len -> 0 <= dt ->
  Sorted Qle men -> within_throat men ->
  (forall m0 rest, men = m0 :: rest -> ~ q / area == 0 ->
     dt <= dx_max_policy q m0 (List.last rest m0) * len / Qabs (q / area)) ->
  within_throat (map (fun m => m + (- (q / area) * dt) / len) men).
Proof.
  intros Ha Hl Hdt Hsort Hwithin Hbound.
  destruct men as [|m0 rest]; [constructor|].
  destruct (sorted_bounds m0 rest Hsort) as [Hml Hall].
  assert (H0 : 0 <= m0) by (inversion Hwithin as [|? ? [H _] _]; exact H).
  assert (H1 : List.last rest m0 <= 1).
  { unfold within_throat in Hwithin. rewrite Forall_forall in Hwithin.
    pose proof (last_in rest m0 m0) as Hin. rewrite last_default in Hin.
    apply list_elem_of_In in Hin. destruct (Hwithin _ Hin) as [_ H]. exact H. }
  destruct (dx_max_policy_safe q m0 (List.last rest m0) H0 Hml H1)
    as (Hdx0 & Hup & Hdown).
  destruct (shift_sign q area len dt Ha Hl Hdt) as [Hpos Hneg].
  set (dx := (- (q / area) * dt) / len) in *.
  set (dxm := dx_max_policy q m0 (List.last rest m0)) in *.
  assert (Hdx : (q < 0 -> 0 <= dx /\ dx <= dxm)
                /\ (0 < q -> - dxm <= dx /\ dx <= 0)
                /\ (q == 0 -> dx == 0)).
  { destruct (Qeq_dec (q / area) 0) as [Hv|Hv].
    - assert (E : dx == 0) by (subst dx; rewrite Hv; unfold Qdiv; ring).
      repeat split; intros; lra.
    - specialize (Hbound m0 rest eq_refl Hv). fold dxm in Hbound.
      pose proof (Qabs_nonzero_pos _ Hv) as Habs.
      assert (Hmul : dt * Qabs (q / area) <= dxm * len).
      { apply Qle_trans with (dxm * len / Qabs (q / area) * Qabs (q / area)).
        - apply Qmult_le_compat_r; [exact Hbound|lra].
        - assert (E : dxm * len / Qabs (q / area) * Qabs (q / area) == dxm * len)
            by (field; lra).
          rewrite E. apply Qle_refl. }
      assert (Hv1 : (q / area) * dt <= dt * Qabs (q / area)).
      { rewrite (Qmult_comm dt). apply Qmult_le_compat_r; [apply Qle_Qabs|exact Hdt]. }
      assert (Hv2 : - (q / area) * dt <= dt * Qabs (q / area)).
      { rewrite (Qmult_comm dt). apply Qmult_le_compat_r; [|exact Hdt].
        rewrite <- Qabs_opp. apply Qle_Qabs. }
      assert (Hhi : dx <= dxm).
      { subst dx. apply Qle_shift_div_r; [exact Hl|]. lra. }
      assert (Hlo : - dxm <= dx).
      { subst dx. apply Qle_shift_div_l; [exact Hl|]. lra. }
      repeat split; intros; lra. }
  destruct Hdx as (Hd1 & Hd2 & Hd3).
  unfold within_throat. rewrite Forall_map.
  unfold within_throat in Hwithin.
  rewrite Forall_forall in Hall, Hwithin |- *.
  intros m Hm. destruct (Hall m Hm) as [Hm0 Hm1].
  destruct (Hwithin m Hm) as [Hw0 Hw1]. simpl.
  destruct (Q_dec q 0) as [[Hq|Hq]|Hq].
  - destruct (Hd1 Hq). specialize (Hup Hq). split; lra.
  - destruct (Hd2 Hq). specialize (Hdown Hq). split; lra.
  - specialize (Hd3 Hq). split; lra.
Qed.


(** X9: from a state whose contested throats have positive area and
    length and ascending menisci between 0 and 1, whose contested pores have
    a volume that is not negative and a fraction between 0 and 1, and whose
    first guess is not negative, a time step that [_calculate_dt] returns is
    not negative and at most the first guess, the time to inject 1% of the
    network volume. *)
Theorem calculate_dt_in_range (net : Network) (sp_sin : Q -> Q) (sp_pi : Q)
    (s s1 : State) (dt : Q) :
  step_ready net s ->
  _calculate_dt net sp_sin sp_pi s = (Ok dt, s1) ->
  0 <= dt /\ dt <= initial_dt s.
Proof.
  intros Hready Hrun.
  destruct (calculate_dt_safe net sp_sin sp_pi s s1 dt Hready Hrun)
    as (_ & H0 & H1 & _).
  split; assumption.
Qed.

(** X10: from such a state, the time step that [_calculate_dt] returns
    moves no meniscus out of its throat: for every contested throat, the
    positions shifted by the [dx] of line 431 are still between 0 and 1. *)
Theorem calculate_dt_keeps_menisci_inside (net : Network) (sp_sin : Q -> Q)
    (sp_pi : Q) (s s1 : State) (dt : Q) :
  step_ready net s ->
  _calculate_dt net sp_sin sp_pi s = (Ok dt, s1) ->
  forall th, In th (sp_where (throat_contested s1)) ->
    within_throat (map (fun m => m + throat_shift net dt th s1) (_menisci s1 !!! th)).
Proof.
  intros Hready Hrun th Hth.
  destruct (calculate_dt_safe net sp_sin sp_pi s s1 dt Hready Hrun)
    as (((q & qs & E) & _) & H0 & _ & Hb & _).
  assert (Em : _menisci s1 = _menisci s) by (rewrite E; reflexivity).
  assert (Ec : throat_contested s1 = throat_contested s) by (rewrite E; reflexivity).
  rewrite Ec in Hth.
  destruct Hready as (_ & _ & _ & Hths & _).
  destruct (Hths th Hth) as (Ha & Hl & Hsort & Hwithin).
  unfold throat_shift. apply shift_within; try assumption.
  - rewrite Em. exact Hsort.
  - rewrite Em. exact Hwithin.
  - exact (Hb th Hth).
Qed.


Lemma chain_solved_ready : step_ready chain chain_solved.
Proof.
  split; [vm_compute; discriminate|]. split; [reflexivity|].
  split; [reflexivity|]. split.
  - intros th Hth. vm_compute in Hth. destruct Hth as [<-|[]].
    split; [reflexivity|]. split; [reflexivity|].
    split; vm_compute; repeat constructor; discriminate.
  - intros p Hp. vm_compute in Hp. destruct Hp.
Qed.

Lemma chain_filling_ready : step_ready chain chain_filling.
Proof.
  split; [vm_compute; discriminate|]. split; [reflexivity|].
  split; [reflexivity|]. split.
  - intros th Hth. vm_compute in Hth. destruct Hth.
  - intros p Hp. vm_compute in Hp. destruct Hp as [<-|[]].
    repeat split; vm_compute; discriminate.
Qed.

Lemma calculate_dt_in_range_witness :
  0 <= chain_filling_dt /\ chain_filling_dt <= initial_dt chain_filling.
Proof.
  apply (calculate_dt_in_range chain approx_sin approx_pi chain_filling
           chain_filling_timed chain_filling_dt chain_filling_ready).
  vm_compute. reflexivity.
Defined.

Lemma calculate_dt_keeps_menisci_inside_witness :
  within_throat
    (map (fun m => m + throat_shift chain chain_dt 0 chain_timed)
       (_menisci chain_timed !!! 0%nat)).
Proof.
  apply (calculate_dt_keeps_menisci_inside chain approx_sin approx_pi
           chain_solved chain_timed chain_dt chain_solved_ready).
  - vm_compute. reflexivity.
  - vm_compute. left. reflexivity.
Defined.


(** ** The time step is computed *)

Lemma runs_for_fold {A B} (I : State -> Prop) (l : list A) (body : B -> A -> M B) :
  (forall acc x s, In x l -> I s -> runs_to (body acc x) s (fun _ s' => I s')) ->
  forall acc s, I s -> runs_to (for_fold l acc body) s (fun _ s' => I s').
Proof.
  induction l as [|x l IH]; intros Hbody acc s Hs; simpl.
  - apply runs_ret. exact Hs.
  - apply runs_bind. eapply runs_mono.
    + apply Hbody; [left; reflexivity|exact Hs].
    + intros acc' s' Hs'. cbv beta. apply IH; [|exact Hs'].
      intros a y σ Hy. apply Hbody. right. exact Hy.
Qed.

Section TimeStepReturns.
Variable net : Network.
Variable sp_sin : Q -> Q.
Variable sp_pi : Q.

Lemma calculate_dt_returns (s : State) :
  ready (sp_where (throat_contested s)) s ->
  exists dt s1, _calculate_dt net sp_sin sp_pi s = (Ok dt, s1).
Proof.
  intros Hready.
  assert (H : runs_to (_calculate_dt net sp_sin sp_pi) s (fun _ _ => True)).
  { unfold _calculate_dt. runs_line.
    set (Inv := fun σ : State => _menisci σ = _menisci s
                               /\ throat_contested σ = throat_contested s).
    eapply runs_mono.
    - apply (runs_for_fold Inv); [|split; reflexivity].
      intros acc x σ _ Hσ. unfold dt_throat_flow. runs_line. exact Hσ.
    - intros d1 σ1 [Hm1 Hc1]. cbv beta. runs_line. rewrite Hc1.
      eapply runs_mono.
      + apply (runs_for_fold Inv); [|split; assumption].
        intros acc x σ Hx [Hm Hc]. unfold dt_throat_travel.
        destruct (Hready x Hx) as [_ Hne].
        destruct (_menisci s !!! x) as [|m0 rest] eqn:Emen; [contradiction|].
        apply runs_bind.
        exists (dx_max_policy (_th_q σ !!! x) m0 (List.last rest m0)), σ.
        split; [apply set_dx_max_run; rewrite Hm; exact Emen|].
        runs_line.
        match goal with
        | |- runs_to (if ?b then _ else _) _ _ => destruct b
        end; runs_line; split; assumption.
      + intros d2 σ2 _. cbv beta. runs_line.
        eapply runs_mono.
        * apply (runs_for_fold (fun _ => True)); [|exact I].
          intros acc p σ _ _. unfold dt_pore_fill. runs_line.
          eapply runs_mono.
          -- apply (runs_for_fold (fun _ => True)); [|exact I].
             intros a ts σ' _ _. unfold dt_pore_supply. runs_line. exact I.
          -- intros q σ' _. cbv beta. runs_line.
             match goal with
             | |- runs_to (if ?b then _ else _) _ _ => destruct b
             end; runs_line; exact I.
        * intros; exact I. }
  destruct H as (dt & s1 & Hrun & _). exists dt, s1. exact Hrun.
Qed.

End TimeStepReturns.

(** ** The zero-volume throat rule, concluded *)

(** C3, amended: for a throat of zero volume (area and length not zero),
    (1) whenever it is contested, a time step that [_calculate_dt] returns is
    0 when the state is ready for a step (contested throats with positive
    area and length and sorted menisci between 0 and 1, contested pores with
    a fraction between 0 and 1, an initial step that is not negative), and
    at most 0 from any state; from a state that is ready for a step and in
    which every contested throat holds a meniscus, [_calculate_dt] does
    return, and what it returns is 0; (2) when every contested throat holds a
    meniscus and [0 < sat_tol <= 1], the throat loop of [_advance_interface]
    returns, and after it the fraction of the throat is 1 if the upstream
    pore is flagged invaded and 0 otherwise; the meniscus list is the single
    position at the far end if the first meniscus, shifted by [dx], already
    lay there, and the throat stays contested; otherwise the boundary check
    of the same round has deleted that meniscus again: the list is empty and
    the throat no longer contested; (3) the fraction is still that value
    when [_advance_interface] is done. *)
Theorem zero_volume_throat_step (net : Network) (sp_sin : Q -> Q) (sp_pi : Q)
    (th : nat) :
  throat_volume net !!! th == 0 ->
  ~ throat_area net !!! th == 0 ->
  ~ throat_length net !!! th == 0 ->
  (forall s dt s1,
     In th (sp_where (throat_contested s)) ->
     _calculate_dt net sp_sin sp_pi s = (Ok dt, s1) ->
     dt <= 0 /\ (step_ready net s -> dt == 0))
  /\
  (forall s,
     In th (sp_where (throat_contested s)) ->
     ready (sp_where (throat_contested s)) s ->
     step_ready net s ->
     exists dt s1, _calculate_dt net sp_sin sp_pi s = (Ok dt, s1) /\ dt == 0)
  /\
  (forall dt s m0 rest,
     In th (sp_where (throat_contested s)) ->
     ready (sp_where (throat_contested s)) s ->
     _menisci s !!! th = m0 :: rest ->
     (th < length (throat_inv_frac s))%nat ->
     0 < _sat_tol s -> _sat_tol s <= 1 ->
     exists s2,
       for_each (sp_where (throat_contested s)) (advance_throat net dt) s
         = (Ok tt, s2)
       /\ throat_inv_frac s2 !!! th == zero_vol_phase net th s
       /\ (at_far_boundary th s (m0 + throat_shift net dt th s) ->
           _menisci s2 !!! th = [far_boundary th s]
           /\ throat_contested s2 !!! th = true)
       /\ (~ at_far_boundary th s (m0 + throat_shift net dt th s) ->
           _menisci s2 !!! th = [] /\ throat_contested s2 !!! th = false)
       /\ throat_inv_frac (snd (_advance_interface net dt s)) !!! th
          == zero_vol_phase net th s).
Proof.
  intros Hvol _ _. apply Qeqb_eq in Hvol.
  assert (Hdt : forall s dt s1,
            In th (sp_where (throat_contested s)) ->
            _calculate_dt net sp_sin sp_pi s = (Ok dt, s1) ->
            dt <= 0 /\ (step_ready net s -> dt == 0)).
  { intros s dt s1 Hin Hrun.
    assert (H0 : dt <= 0) by (eapply calculate_dt_zero_vol; eassumption).
    split; [exact H0|]. intros Hready.
    destruct (calculate_dt_safe net sp_sin sp_pi s s1 dt Hready Hrun)
      as (_ & H1 & _).
    lra. }
  split; [exact Hdt|]. split.
  - intros s Hin Hmen Hready.
    destruct (calculate_dt_returns net sp_sin sp_pi s Hmen) as (dt & s1 & Hrun).
    exists dt, s1. split; [exact Hrun|].
    exact (proj2 (Hdt s dt s1 Hin Hrun) Hready).
  - intros dt s m0 rest Hin Hready Hmen Hfr Htol0 Htol1.
    pose proof (sp_where_bound _ _ Hin) as Hco.
    destruct (throat_loop_zero_vol net dt th m0 rest _ s
                (where_from_NoDup _ _) Hin Hready Hfr Hco Hmen Hvol Htol0 Htol1)
      as ([] & s2 & Hloop & Hphase & Hat & Hnot).
    exists s2. split; [exact Hloop|]. split; [exact Hphase|].
    split; [|split; [exact Hnot|]].
    + intros H. destruct (Hat H) as [H1 H2]. split; [exact H1|].
      rewrite H2. apply sp_where_set, Hin.
    + unfold _advance_interface. rewrite bind_get, bind_get.
      unfold bind. unfold sp_where in Hloop |- *. rewrite Hloop.
      apply (keeps_for_each (fun σ => throat_inv_frac σ !!! th
                                      == zero_vol_phase net th s)).
      * intros p. apply advance_pore_inv_frac.
      * exact Hphase.
Qed.

(** On the chain with a zero-volume first throat, the first step computes a
    flow from pore 0 to pore 1 and a time step of 0, and the advance phase
    leaves the throat without any meniscus: the position 1 that the
    zero-volume rule stored is deleted by the boundary check that follows. *)
Lemma zero_volume_meniscus_is_deleted :
  In 0%nat (sp_where (throat_contested thin_solved))
  /\ throat_volume chain_thin !!! 0%nat == 0
  /\ _calculate_dt chain_thin approx_sin approx_pi thin_solved = (Ok 0, thin_timed)
  /\ _th_q thin_timed !!! 0%nat < 0
  /\ _menisci (snd (_advance_interface chain_thin 0 thin_timed)) !!! 0%nat = []
  /\ _menisci (snd (step_physics chain_thin approx_sin approx_pi chain_solve
                      thin_start)) !!! 0%nat = [].
Proof.
  split; [vm_compute; left; reflexivity|].
  split; [reflexivity|].
  split; [vm_compute; reflexivity|].
  split; [reflexivity|].
  split; vm_compute; reflexivity.
Qed.

Lemma thin_solved_ready : step_ready chain_thin thin_solved.
Proof.
  split; [vm_compute; discriminate|]. split; [reflexivity|].
  split; [reflexivity|]. split.
  - intros th Hth. vm_compute in Hth. destruct Hth as [<-|[]].
    split; [reflexivity|]. split; [reflexivity|].
    split; vm_compute; repeat constructor; discriminate.
  - intros p Hp. vm_compute in Hp. destruct Hp.
Qed.

Lemma zero_volume_throat_step_witness :
  (exists dt s1,
     _calculate_dt chain_thin approx_sin approx_pi thin_solved = (Ok dt, s1)
     /\ dt == 0)
  /\ exists s2,
       for_each (sp_where (throat_contested thin_timed))
         (advance_throat chain_thin 0) thin_timed = (Ok tt, s2)
       /\ throat_inv_frac s2 !!! 0%nat == zero_vol_phase chain_thin 0 thin_timed
       /\ _menisci s2 !!! 0%nat = []
       /\ throat_contested s2 !!! 0%nat = false
       /\ throat_inv_frac (snd (_advance_interface chain_thin 0 thin_timed)) !!! 0%nat
          == zero_vol_phase chain_thin 0 thin_timed.
Proof.
  destruct (zero_volume_throat_step chain_thin approx_sin approx_pi 0%nat)
    as (_ & Hdt & Hadv).
  - reflexivity.
  - intros H. vm_compute in H. discriminate H.
  - intros H. vm_compute in H. discriminate H.
  - split.
    + apply (Hdt thin_solved);
        [vm_compute; left; reflexivity| |exact thin_solved_ready].
      intros u Hu. vm_compute in Hu. destruct Hu as [<-|[]].
      split; [vm_compute; lia|vm_compute; discriminate].
    + destruct (Hadv 0 thin_timed 0 []) as (s2 & H1 & H2 & H3 & H4 & H5).
      * vm_compute. left. reflexivity.
      * intros u Hu. vm_compute in Hu. destruct Hu as [<-|[]].
        split; [vm_compute; lia|vm_compute; discriminate].
      * reflexivity.
      * vm_compute. lia.
      * reflexivity.
      * vm_compute. discriminate.
      * exists s2. split; [exact H1|]. split; [exact H2|].
        assert (Hnot : ~ at_far_boundary 0 thin_timed
                         (0 + throat_shift chain_thin 0 0 thin_timed)).
        { intros Hat. vm_compute in Hat. apply Hat. reflexivity. }
        destruct (H4 Hnot) as [H6 H7].
        split; [exact H6|]. split; [exact H7|exact H5].
Defined.

(** ** The contested flags *)

Section ContestedFlags.
Variable net : Network.
Variable dt : Q.

Lemma advance_throat_flag (t : nat) (s : State) :
  (t < length (_menisci s))%nat ->
  (t < length (throat_contested s))%nat ->
  _menisci s !!! t <> [] ->
  throat_contested s !!! t = true ->
  runs_to (advance_throat net dt t) s (fun _ s' =>
    throat_contested s' !!! t = negb (Nat.eqb (length (_menisci s' !!! t)) 0)).
Proof.
  intros Hth Hco Hne Hflag.
  destruct (_menisci s !!! t) as [|m0 rest] eqn:Hmen; [contradiction|].
  unfold advance_throat. runs_line. rewrite Hmen. simpl map.
  assert (Htail : forall (rounded : option nat * Q) (σ : State),
    (t < length (throat_contested σ))%nat ->
    throat_contested σ !!! t = true ->
    runs_to
      (match rounded.1 with
       | Some pore =>
           frac <- load throat_inv_frac t;;
           store throat_inv_frac upd_throat_inv_frac t (frac + rounded.2);;
           pfrac <- load pore_inv_frac pore;;
           store pore_inv_frac upd_pore_inv_frac pore (pfrac + - rounded.2);;
           store pore_contested upd_pore_contested pore true
       | None => ret ()
       end;;
       men <- load _menisci t;;
       when (length men =? 0)%nat
         (store throat_contested upd_throat_contested t false))
      σ (fun _ s' =>
           throat_contested s' !!! t
           = negb (Nat.eqb (length (_menisci s' !!! t)) 0))).
  { intros [[pore|] adj] σ Hlt Hσ; cbn [fst snd]; runs_line; unfold when;
      destruct (length (_menisci σ !!! t) =? 0)%nat eqn:E; runs_line;
      rewrite E; simpl negb;
      first [apply list_lookup_total_insert_eq; exact Hlt|exact Hσ]. }
  destruct (Qeqb (throat_volume net !!! t) 0).
  - runs_line. same_slot.
    eapply runs_py_first; [reflexivity|]. cbv beta.
    runs_step. apply runs_advance_zero_vol_throat. record_simpl.
    runs_line. same_slot.
    eapply runs_py_first; [reflexivity|]. cbv beta. runs_line.
    eapply runs_round_to_pore;
      [record_simpl; same_slot; reflexivity|..]; intros; apply Htail;
      record_simpl; assumption.
  - runs_line.
    eapply runs_round_to_pore;
      [record_simpl; same_slot; reflexivity|..]; intros; apply Htail;
      record_simpl; assumption.
Qed.

Lemma flagged_after_round (t : nat) (s s' : State) :
  menisci_flagged s ->
  throats_frame (eq t) s s' ->
  throat_contested s' !!! t = negb (Nat.eqb (length (_menisci s' !!! t)) 0) ->
  menisci_flagged s'.
Proof.
  intros [Hlen Hall] (_ & _ & _ & A4 & _ & A6 & A7) Hflag. split; [congruence|].
  intros u Hu. destruct (Nat.eq_dec t u) as [<-|Hne].
  - rewrite Hflag. destruct (_menisci s' !!! t); simpl; split; congruence.
  - destruct (A7 u Hne) as (B1 & _ & B3). rewrite B1, B3. apply Hall.
    rewrite <- A4. exact Hu.
Qed.

Lemma throat_loop_flagged (l : list nat) (s : State) :
  List.NoDup l ->
  menisci_flagged s ->
  (forall u, In u l ->
     (u < length (throat_contested s))%nat /\ throat_contested s !!! u = true) ->
  runs_to (for_each l (advance_throat net dt)) s (fun _ s' => menisci_flagged s').
Proof.
  revert s. induction l as [|t l IH]; intros s Hnd Hs Hl; simpl.
  - apply runs_ret. exact Hs.
  - inversion Hnd as [|? ? Hnot Hnd']; subst.
    destruct (Hl t (or_introl eq_refl)) as [Hlt Hflag].
    pose proof Hs as [Hlen Hall].
    assert (Hlt' : (t < length (_menisci s))%nat) by (rewrite <- Hlen; exact Hlt).
    assert (Hne : _menisci s !!! t <> []) by (apply Hall; assumption).
    apply runs_bind. eapply runs_mono.
    + apply (runs_keeps (throats_frame (eq t) s));
        [apply advance_throat_frame|apply throats_frame_refl|].
      apply advance_throat_flag; assumption.
    + intros ? s1 [Hf Hframe]. cbv beta.
      apply IH; [exact Hnd'|exact (flagged_after_round t s s1 Hs Hframe Hf)|].
      intros u Hu. destruct (Hl u (or_intror Hu)) as [Hu1 Hu2].
      destruct Hframe as (_ & _ & _ & _ & _ & A6 & A7).
      assert (Hneq : t <> u) by (intros ->; contradiction).
      destruct (A7 u Hneq) as (_ & _ & B3). rewrite A6, B3. split; assumption.
Qed.

Lemma flagged_new_meniscus (th : nat) (men : list Q) (s : State) :
  men <> [] ->
  menisci_flagged s ->
  menisci_flagged
    (upd_throat_contested (<[th:=true]> (throat_contested s))
       (upd_menisci (<[th:=men]> (_menisci s)) s)).
Proof.
  intros Hmen [Hlen Hall]. split; record_simpl.
  - rewrite !length_insert. exact Hlen.
  - rewrite length_insert. intros u Hu.
    destruct (Nat.eq_dec th u) as [<-|Hne].
    + rewrite !list_lookup_total_insert_eq by (rewrite ?Hlen; exact Hu).
      split; [intros _; exact Hmen|reflexivity].
    + rewrite !list_lookup_total_insert_ne by exact Hne. apply Hall, Hu.
Qed.

Lemma set_menisci_flagged (base_pore : nat) (Ts : list nat) :
  keeps menisci_flagged (_set_menisci net base_pore Ts).
Proof.
  unfold _set_menisci. apply keeps_for_each. intros th s Hs.
  cbv zeta. rewrite bind_load.
  destruct (Nat.eqb base_pore (snd (conns net th))).
  - destruct (Qltb (_th_q s !!! th) 0); [exact Hs|].
    rewrite bind_load, bind_store. simpl.
    apply flagged_new_meniscus; [|exact Hs].
    destruct (_menisci s !!! th); discriminate.
  - destruct (Qgtb (_th_q s !!! th) 0); [exact Hs|].
    rewrite bind_load, bind_store, bind_load, bind_store. simpl.
    apply (flagged_new_meniscus th (0 :: _menisci s !!! th)); [discriminate|exact Hs].
Qed.

Lemma advance_pore_flagged (p : nat) :
  keeps menisci_flagged (advance_pore net dt p).
Proof.
  unfold advance_pore.
  repeat first [ apply set_menisci_flagged | keeps_step ]; intros ? H; exact H.
Qed.

End ContestedFlags.

(** X12: [_advance_interface] keeps the contested flags of the throats in
    step with the meniscus lists: if, before the call, a throat is flagged
    contested exactly when its list holds a meniscus, the same is true of
    the state the call leaves, whether it returns or raises. *)
Theorem advance_keeps_contested_flags (net : Network) (dt : Q) (s : State) :
  menisci_flagged s -> menisci_flagged (snd (_advance_interface net dt s)).
Proof.
  intros Hs. unfold _advance_interface. rewrite bind_get, bind_get.
  destruct (throat_loop_flagged net dt (sp_where (throat_contested s)) s
              (where_from_NoDup _ _) Hs) as ([] & s2 & Hloop & Hs2).
  { intros u Hu. split; [apply sp_where_bound, Hu|apply sp_where_set, Hu]. }
  unfold bind. rewrite Hloop.
  apply (keeps_for_each menisci_flagged); [|exact Hs2].
  intros p. apply advance_pore_flagged.
Qed.

Lemma advance_keeps_contested_flags_witness :
  menisci_flagged
    (snd (_advance_interface chain chain_filling_dt chain_filling_timed)).
Proof.
  apply (advance_keeps_contested_flags chain chain_filling_dt chain_filling_timed).
  split; [reflexivity|]. intros th Hth.
  destruct th as [|[|th]]; [| |cbn in Hth; lia];
    (split; [discriminate|intros H; contradiction H; reflexivity]).
Defined.

(** ** Pores of zero volume *)

Section PoreStall.
Variable net : Network.
Variable sp_sin : Q -> Q.
Variable sp_pi : Q.

Lemma dt_pore_fill_zero_vol (dt : Q) (p : nat) (s s' : State) (r : Q) :
  Qeqb (pore_volume net !!! p) 0 = true ->
  dt_pore_fill net sp_sin sp_pi dt p s = (Ok r, s') -> r <= 0.
Proof.
  intros Hvol. unfold dt_pore_fill. cbv zeta. rewrite bind_get. unfold bind at 1.
  intros H.
  match type of H with
  | context [for_fold ?l ?a ?b ?σ] => destruct (for_fold l a b σ) as [[qsum|e] s1]
  end; [|discriminate].
  rewrite bind_store, bind_get in H. unfold ret in H. rewrite Hvol in H.
  destruct (Qeqb qsum 0).
  - injection H as <- _. apply Qle_refl.
  - match type of H with
    | context [Qltb ?a ?b] => destruct (Qltb a b) eqn:E
    end; injection H as <- _; q_reflect; [|apply Qle_refl].
    apply Qlt_le_weak; exact E.
Qed.

Lemma pore_fill_loop (l : list nat) (acc : Q) (s s' : State) (r : Q) :
  for_fold l acc (dt_pore_fill net sp_sin sp_pi) s = (Ok r, s') ->
  acc <= 0 \/ (exists p, In p l /\ Qeqb (pore_volume net !!! p) 0 = true) ->
  r <= 0.
Proof.
  revert acc s. induction l as [|x l IH]; intros acc s Hrun Hcase; simpl in Hrun.
  - injection Hrun as <- _. destruct Hcase as [H|(p & [] & _)]. exact H.
  - unfold bind in Hrun.
    destruct (dt_pore_fill net sp_sin sp_pi acc x s) as [[r1|e] s1] eqn:E;
      [|discriminate].
    eapply IH; [exact Hrun|].
    destruct Hcase as [H|(p & [<-|Hin] & Hvol)].
    + left. eapply dt_pore_fill_le; eassumption.
    + left. eapply dt_pore_fill_zero_vol; eassumption.
    + right. exists p. split; assumption.
Qed.

Lemma throat_loops_keep_pore_flags (c : list bool) (l1 l2 : list nat) (d1 d2 : Q) :
  keeps (fun σ => pore_contested σ = c)
    (for_fold l1 d1 (dt_throat_flow net sp_sin sp_pi))
  /\ keeps (fun σ => pore_contested σ = c) (for_fold l2 d2 (dt_throat_travel net)).
Proof.
  split; keeps_split; intros ? H; exact H.
Qed.

Lemma calculate_dt_zero_vol_pore (p : nat) (s s1 : State) (dt : Q) :
  In p (sp_where (pore_contested s)) ->
  Qeqb (pore_volume net !!! p) 0 = true ->
  _calculate_dt net sp_sin sp_pi s = (Ok dt, s1) -> dt <= 0.
Proof.
  intros Hin Hvol. unfold _calculate_dt.
  rewrite bind_get, bind_get. cbv zeta. unfold bind at 1. unfold modify at 1.
  unfold bind at 1. unfold modify at 1. rewrite bind_get. record_simpl.
  unfold bind at 1.
  match goal with
  | |- context [for_fold ?l ?a ?b ?σ] =>
      pose proof (proj1 (throat_loops_keep_pore_flags (pore_contested s) l [] a a)
                    σ eq_refl) as K1;
      destruct (for_fold l a b σ) as [[d1|e] σ1] eqn:E1
  end; [|discriminate].
  simpl in K1.
  rewrite bind_get. unfold bind at 1.
  match goal with
  | |- context [for_fold ?l d1 ?b ?σ] =>
      pose proof (proj2 (throat_loops_keep_pore_flags (pore_contested s) [] l d1 d1)
                    σ K1) as K2;
      destruct (for_fold l d1 b σ) as [[d2|e] σ2] eqn:E2
  end; [|discriminate].
  simpl in K2.
  rewrite bind_get, K2. intros E3.
  eapply pore_fill_loop; [exact E3|]. right. exists p. split; assumption.
Qed.

End PoreStall.

(** X13: a contested pore of zero volume stalls the clock: a time step that
    [_calculate_dt] returns is at most 0, and it is 0 when the state is
    ready for a step (line 386 sets it to 0, and no later pore raises it). *)
Theorem zero_volume_pore_stalls (net : Network) (sp_sin : Q -> Q) (sp_pi : Q)
    (p : nat) (s s1 : State) (dt : Q) :
  pore_volume net !!! p == 0 ->
  In p (sp_where (pore_contested s)) ->
  _calculate_dt net sp_sin sp_pi s = (Ok dt, s1) ->
  dt <= 0 /\ (step_ready net s -> dt == 0).
Proof.
  intros Hvol Hin Hrun.
  assert (H0 : dt <= 0).
  { eapply calculate_dt_zero_vol_pore; [exact Hin| |exact Hrun].
    apply Qeq_bool_iff. exact Hvol. }
  split; [exact H0|]. intros Hready.
  destruct (calculate_dt_safe net sp_sin sp_pi s s1 dt Hready Hrun) as (_ & H1 & _).
  lra.
Qed.

Lemma chain_point_ready : step_ready chain_point chain_filling.
Proof.
  split; [vm_compute; discriminate|]. split; [reflexivity|].
  split; [reflexivity|]. split.
  - intros th Hth. vm_compute in Hth. destruct Hth.
  - intros p Hp. vm_compute in Hp. destruct Hp as [<-|[]].
    repeat split; vm_compute; discriminate.
Qed.

Lemma zero_volume_pore_stalls_witness :
  chain_point_dt <= 0 /\ chain_point_dt == 0.
Proof.
  destruct (zero_volume_pore_stalls chain_point approx_sin approx_pi 1
              chain_filling chain_point_timed chain_point_dt) as [H1 H2].
  - reflexivity.
  - vm_compute. left. reflexivity.
  - vm_compute. reflexivity.
  - split; [exact H1|exact (H2 chain_point_ready)].
Defined.

(** ** The start of a run *)

(** X14: [run] enters its loop balanced.  With inlets and outlets set, an
    injection rate and a network volume that are not 0 and no invading
    fluid counted out yet, the run that is cut off before its first round
    returns; the start time of line 225 makes the mass-balance residual of
    line 302 zero, [_gdef] holds a copy of the conductances and the counter
    of zero steps is 0. *)
Theorem run_starts_balanced (net : Network) (sp_sin : Q -> Q) (sp_pi : Q)
    (solver : State -> list Q -> list Q) (s : State) :
  pore_inlets s <> [] ->
  pore_outlets s <> [] ->
  ~ _inj_rate s == 0 ->
  ~ _net_vol s == 0 ->
  _total_inv_out s == 0 ->
  exists s', run net sp_sin sp_pi solver 0 s = (Ok false, s')
    /\ mass_balance net s' == 0
    /\ _gdef s' = Some (throat_conductance s)
    /\ _zero_dt s' = 0%Z.
Proof.
  intros Hin Hout Hrate Hvol Hzero.
  assert (H : runs_to (run net sp_sin sp_pi solver 0) s (fun a s' =>
            a = false /\ mass_balance net s' == 0
            /\ _gdef s' = Some (throat_conductance s) /\ _zero_dt s' = 0%Z)).
  { unfold run, _do_outer_iteration_stage. runs_step. runs_step.
    destruct (pore_inlets s) as [|i0 ins]; [contradiction|].
    cbn [length Nat.eqb when]. runs_step. runs_step. runs_step. runs_step.
    destruct (pore_outlets s) as [|o0 outs]; [contradiction|].
    cbn [length Nat.eqb when]. runs_line. simpl outer_loop.
    runs_line. split; [reflexivity|]. split; [|split; reflexivity].
    unfold mass_balance. record_simpl. rewrite Hzero.
    field. split; assumption. }
  destruct H as (a & s' & Hrun & -> & H). exists s'. split; assumption.
Qed.

Lemma run_starts_balanced_witness :
  exists s', run chain approx_sin approx_pi chain_solve 0 chain_in_out = (Ok false, s')
    /\ mass_balance chain s' == 0
    /\ _gdef s' = Some (throat_conductance chain_in_out)
    /\ _zero_dt s' = 0%Z.
Proof.
  apply (run_starts_balanced chain approx_sin approx_pi chain_solve chain_in_out);
    vm_compute; first [reflexivity|discriminate].
Defined.

(** ** The clock of a round *)

Lemma bind_ok_inv {A B} (m : M A) (k : A -> M B) (s s' : State) (b : B) :
  bind m k s = (Ok b, s') ->
  exists a s1, m s = (Ok a, s1) /\ k a s1 = (Ok b, s').
Proof.
  unfold bind. destruct (m s) as [[a|e] s1]; [|discriminate].
  intros H. exists a, s1. split; [reflexivity|exact H].
Qed.

Section Clock.
Variable net : Network.
Variable sp_sin : Q -> Q.
Variable sp_pi : Q.
Variable linear_solve : State -> list Q -> list Q.


Lemma solve_keeps_clock (s0 : State) :
  keeps (clock_at net s0) (_update_coefficient_matrix net)
  /\ keeps (clock_at net s0) (_update_rhs net sp_sin sp_pi)
  /\ forall b, keeps (clock_at net s0) (solve linear_solve b).
Proof.
  (split; [|split; [|intros b]]); keeps_split; intros ? HP; exact HP.
Qed.

Lemma advance_keeps_clock (dt t : Q) (z : Z) :
  keeps (fun s => _total_time s = t /\ _zero_dt s = z) (_advance_interface net dt)
  /\ keeps (fun s => _total_time s = t /\ _zero_dt s = z)
       (_calc_fluid_out net sp_sin sp_pi dt).
Proof.
  split; keeps_split; intros ? HP; exact HP.
Qed.

Lemma step_physics_clock (s s' : State) :
  step_ready net s ->
  step_physics net sp_sin sp_pi linear_solve s = (Ok tt, s') ->
  exists dt, 0 <= dt /\ dt <= initial_dt s
    /\ _total_time s' = _total_time s + dt
    /\ _zero_dt s' = (if Qeqb dt 0 then _zero_dt s + 1 else _zero_dt s)%Z.
Proof.
  intros Hready Hrun. unfold step_physics in Hrun.
  destruct (solve_keeps_clock s) as (K1 & K2 & K3).
  assert (H0 : clock_at net s s) by (split; [exact Hready|repeat split]).
  apply bind_ok_inv in Hrun. destruct Hrun as ([] & s1 & E1 & Hrun).
  pose proof (K1 s H0) as H1. rewrite E1 in H1. simpl in H1.
  apply bind_ok_inv in Hrun. destruct Hrun as (b & s2 & E2 & Hrun).
  pose proof (K2 s1 H1) as H2. rewrite E2 in H2. simpl in H2.
  apply bind_ok_inv in Hrun. destruct Hrun as ([] & s3 & E3 & Hrun).
  pose proof (K3 b s2 H2) as H3. rewrite E3 in H3. simpl in H3.
  apply bind_ok_inv in Hrun. destruct Hrun as (dt & s4 & E4 & Hrun).
  destruct H3 as (Hr3 & Hi3 & Ht3 & Hz3).
  destruct (calculate_dt_safe net sp_sin sp_pi s3 s4 dt Hr3 E4)
    as (((q & qs & ->) & _) & Hd0 & Hd1 & _).
  exists dt. split; [exact Hd0|]. split; [rewrite <- Hi3; exact Hd1|].
  apply bind_ok_inv in Hrun. destruct Hrun as ([] & s5 & E5 & Hrun).
  apply bind_ok_inv in Hrun. destruct Hrun as ([] & s6 & E6 & Hrun).
  apply bind_ok_inv in Hrun. destruct Hrun as ([] & s7 & E7 & Hrun).
  set (z := (if Qeqb dt 0 then _zero_dt s + 1 else _zero_dt s)%Z).
  assert (H5 : _total_time s5 = _total_time s /\ _zero_dt s5 = z).
  { unfold when in E5. subst z. destruct (Qeqb dt 0).
    - unfold modify in E5. injection E5 as <-. record_simpl.
      split; [exact Ht3|]. rewrite Hz3. reflexivity.
    - injection E5 as <-. record_simpl. split; assumption. }
  destruct (advance_keeps_clock dt (_total_time s) z) as [K6 _].
  pose proof (K6 s5 H5) as H6. rewrite E6 in H6. simpl in H6.
  unfold modify in E7. injection E7 as <-.
  destruct (advance_keeps_clock dt (_total_time s + dt) z) as [_ K8].
  assert (H7 : _total_time (upd_total_time (_total_time s6 + dt) s6)
               = _total_time s + dt
               /\ _zero_dt (upd_total_time (_total_time s6 + dt) s6) = z).
  { record_simpl. destruct H6 as [-> ->]. split; reflexivity. }
  pose proof (K8 _ H7) as H8. rewrite Hrun in H8. exact H8.
Qed.
End Clock.

(** X15: a round never turns the clock back.  From a state that is ready
    for a step, the physics of a round (lines 255-280), when it returns,
    leaves a total time between the old one and the old one plus the
    initial step of line 355; the counter of zero steps goes up by one when
    the time stood still, and stays when the time moved on. *)
Theorem round_advances_clock (net : Network) (sp_sin : Q -> Q) (sp_pi : Q)
    (linear_solve : State -> list Q -> list Q) (s s' : State) :
  step_ready net s ->
  step_physics net sp_sin sp_pi linear_solve s = (Ok tt, s') ->
  _total_time s <= _total_time s'
  /\ _total_time s' <= _total_time s + initial_dt s
  /\ (_total_time s' == _total_time s -> _zero_dt s' = (_zero_dt s + 1)%Z)
  /\ (_total_time s < _total_time s' -> _zero_dt s' = _zero_dt s).
Proof.
  intros Hready Hrun.
  destruct (step_physics_clock net sp_sin sp_pi linear_solve s s' Hready Hrun)
    as (dt & H0 & H1 & -> & ->).
  split; [lra|]. split; [lra|]. split; intros H.
  - assert (E : Qeqb dt 0 = true) by (apply Qeq_bool_iff; lra).
    rewrite E. reflexivity.
  - destruct (Qeqb dt 0) eqn:E; [|reflexivity].
    apply Qeq_bool_iff in E. lra.
Qed.

Lemma round_advances_clock_witness :
  _total_time chain_solved <= _total_time chain_stepped
  /\ _total_time chain_stepped <= _total_time chain_solved + initial_dt chain_solved
  /\ (_total_time chain_stepped == _total_time chain_solved ->
      _zero_dt chain_stepped = (_zero_dt chain_solved + 1)%Z)
  /\ (_total_time chain_solved < _total_time chain_stepped ->
      _zero_dt chain_stepped = _zero_dt chain_solved).
Proof.
  apply (round_advances_clock chain approx_sin approx_pi chain_solve
           chain_solved chain_stepped chain_solved_ready).
  vm_compute. reflexivity.
Defined.

(** ** Breakthrough is recorded once, concluded *)



Section RecordedOnce.
Variable net : Network.
Variable sp_sin : Q -> Q.
Variable sp_pi : Q.
Variable linear_solve : State -> list Q -> list Q.






End RecordedOnce.




(** ** The capillary terms of the right-hand side *)

Lemma sum_from (l : list Q) (a : Q) : fold_left Qplus l a == a + sp_sum l.
Proof.
  unfold sp_sum. revert a. induction l as [|x l IH]; intros a; simpl.
  - ring.
  - rewrite (IH (a + x)), (IH (0 + x)). ring.
Qed.

Lemma sum_cons (x : Q) (l : list Q) : sp_sum (x :: l) == x + sp_sum l.
Proof.
  unfold sp_sum at 1. simpl. rewrite sum_from. ring.
Qed.

Lemma alternating_sum_scale (c sign : Q) (weight : Q -> Q) (ms : list Q) :
  alternating_sum (c * sign) weight ms == c * alternating_sum sign weight ms.
Proof.
  revert sign. induction ms as [|m ms IH]; intros sign; simpl.
  - ring.
  - rewrite (alternating_sum_sign (- (c * sign)) (c * - sign)) by ring.
    rewrite IH. ring.
Qed.

Lemma alternating_sum_snoc (sign : Q) (weight : Q -> Q) (ms : list Q) (x : Q) :
  alternating_sum sign weight (ms ++ [x])
  == alternating_sum sign weight ms + alt (length ms) * sign * weight x.
Proof.
  revert sign. induction ms as [|m ms IH]; intros sign.
  - simpl. unfold alt. simpl. ring.
  - simpl app. simpl alternating_sum. rewrite IH. simpl length. rewrite alt_succ. ring.
Qed.

Lemma alternating_sum_rev (sign : Q) (weight : Q -> Q) (ms : list Q) :
  alternating_sum sign weight (rev ms)
  == - alt (length ms) * alternating_sum sign weight ms.
Proof.
  induction ms as [|m ms IH].
  - simpl. ring.
  - simpl rev. rewrite alternating_sum_snoc, IH, length_rev.
    simpl length. rewrite alt_succ. simpl alternating_sum.
    rewrite (alternating_sum_sign (- sign) (-1 * sign)) by ring.
    rewrite alternating_sum_scale. ring.
Qed.

Section Sources.
Variable net : Network.
Variable sp_sin : Q -> Q.
Variable sp_pi : Q.

Lemma sum_fpcap_opposite (th : nat) (s : State) :
  fst (conns net th) <> snd (conns net th) ->
  _sum_fpcap net sp_sin sp_pi th (snd (conns net th)) s
  == - _sum_fpcap net sp_sin sp_pi th (fst (conns net th)) s.
Proof.
  intros Hne. unfold _sum_fpcap. cbv zeta. rewrite !fpcap_fold.
  unfold _get_supply_facts. simpl map.
  change (([?x] : list Q) !!! 0%nat) with x.
  unfold supply_fact. cbv zeta.
  rewrite Nat.eqb_refl. apply Nat.eqb_neq in Hne. rewrite Hne. cbn [fst snd].
  rewrite alternating_sum_rev.
  set (sf := _throat_sup_fact s !!! th).
  set (n := length (_menisci s !!! th)).
  rewrite (alternating_sum_sign (-1 * (sf * (-1) ^ Z.of_nat n)) (alt n * (-1 * sf)))
    by (rewrite power_alt; ring).
  rewrite alternating_sum_scale.
  set (A := alternating_sum _ _ _).
  assert (E : 0 + - alt n * (alt n * A) == - (alt n * alt n) * A) by ring.
  rewrite E, alt_square. ring.
Qed.

Lemma sum_insert_add (l : list Q) (i : nat) (d : Q) :
  (i < length l)%nat ->
  sp_sum (<[i := l !!! i + d]> l) == sp_sum l + d.
Proof.
  revert i. induction l as [|x l IH]; intros i Hi; simpl in Hi; [lia|].
  destruct i as [|i].
  - simpl. rewrite !sum_cons. ring.
  - change (<[S i := (x :: l) !!! S i + d]> (x :: l))
      with (x :: <[i := l !!! i + d]> l).
    rewrite !sum_cons, IH by lia. ring.
Qed.

Lemma sum_zeros (n : nat) : sp_sum (sp_zeros n) == 0.
Proof.
  unfold sp_zeros. induction n as [|n IH]; [reflexivity|].
  simpl replicate. rewrite sum_cons, IH. ring.
Qed.

Lemma rhs_loop (s : State) (ths : list nat) (rhs : list Q) :
  length rhs = Np net ->
  (forall th, In th ths ->
     fst (conns net th) <> snd (conns net th)
     /\ (fst (conns net th) < Np net)%nat /\ (snd (conns net th) < Np net)%nat) ->
  exists b,
    for_fold ths rhs (fun rhs th =>
      for_fold [fst (conns net th); snd (conns net th)] rhs (fun rhs pore =>
        g <- load throat_conductance th ;;
        fpc <- get (_sum_fpcap net sp_sin sp_pi th pore) ;;
        ret (<[pore := rhs !!! pore + g * fpc]> rhs))) s = (Ok b, s)
    /\ length b = Np net /\ sp_sum b == sp_sum rhs.
Proof.
  revert rhs. induction ths as [|th ths IH]; intros rhs Hlen Hths.
  - exists rhs. split; [reflexivity|]. split; [exact Hlen|reflexivity].
  - destruct (Hths th (or_introl eq_refl)) as (Hne & H1 & H2).
    set (p1 := fst (conns net th)) in *. set (p2 := snd (conns net th)) in *.
    set (g := throat_conductance s !!! th).
    set (r1 := <[p1 := rhs !!! p1 + g * _sum_fpcap net sp_sin sp_pi th p1 s]> rhs).
    set (r2 := <[p2 := r1 !!! p2 + g * _sum_fpcap net sp_sin sp_pi th p2 s]> r1).
    destruct (IH r2) as (b & Hb & Hlb & Hsum).
    { subst r2 r1. rewrite !length_insert. exact Hlen. }
    { intros u Hu. apply Hths. right. exact Hu. }
    exists b. split; [exact Hb|]. split; [exact Hlb|].
    rewrite Hsum. subst r2.
    rewrite sum_insert_add by (subst r1; rewrite length_insert, Hlen; exact H2).
    subst r1. rewrite sum_insert_add by (rewrite Hlen; exact H1).
    subst p1 p2. rewrite (sum_fpcap_opposite th s Hne). ring.
Qed.

End Sources.

(** X16: the capillary terms of the right-hand side cancel.  When every
    contested throat joins two different pores of the network,
    [_update_rhs] returns, changes nothing, and the array of capillary terms
    it has built (the one line 345 hands to the parent's right-hand-side
    builder) has one entry per pore and sums to 0: what a throat adds to
    one of its pores it takes from the other. *)
Theorem rhs_capillary_terms_cancel (net : Network) (sp_sin : Q -> Q) (sp_pi : Q)
    (s : State) :
  (forall th, In th (sp_where (throat_contested s)) ->
     fst (conns net th) <> snd (conns net th)
     /\ (fst (conns net th) < Np net)%nat /\ (snd (conns net th) < Np net)%nat) ->
  exists b, _update_rhs net sp_sin sp_pi s = (Ok b, s)
    /\ length b = Np net /\ sp_sum b == 0.
Proof.
  intros Hths. unfold _update_rhs. cbv zeta. rewrite bind_get.
  destruct (rhs_loop net sp_sin sp_pi s (sp_where (throat_contested s))
              (sp_zeros (Np net)) (length_replicate _ _) Hths)
    as (b & Hb & Hlen & Hsum).
  exists b. split; [exact Hb|]. split; [exact Hlen|].
  rewrite Hsum. apply sum_zeros.
Qed.

Lemma rhs_capillary_terms_cancel_witness :
  exists b, _update_rhs chain approx_sin approx_pi chain_stepped = (Ok b, chain_stepped)
    /\ length b = Np chain /\ sp_sum b == 0.
Proof.
  apply (rhs_capillary_terms_cancel chain approx_sin approx_pi chain_stepped).
  intros th Hth. vm_compute in Hth. destruct Hth as [<-|[]].
  vm_compute. repeat split; lia.
Defined.

(** ** The conductance update before a run *)

(** X20: the conductance update needs the base conductances that only [run]
    captures (line 220): while [self._gdef] is unassigned and the network
    has a throat, [_update_coefficient_matrix] raises [AttributeError] at the
    first throat and changes nothing; so does a round of the loop, which
    starts with this update. *)
Theorem conductance_update_needs_run (net : Network) (sp_sin : Q -> Q)
    (sp_pi : Q) (linear_solve : State -> list Q -> list Q) (s : State) :
  _gdef s = None ->
  (0 < Nt net)%nat ->
  _update_coefficient_matrix net s = (Raise (AttributeError "_gdef"), s)
  /\ outer_iteration net sp_sin sp_pi linear_solve s
     = (Raise (AttributeError "_gdef"), s).
Proof.
  intros Hg Hnt.
  assert (H : _update_coefficient_matrix net s
              = (Raise (AttributeError "_gdef"), s)).
  { unfold _update_coefficient_matrix.
    destruct (Nt net) as [|n]; [lia|]. simpl seq. simpl for_each.
    cbv beta iota zeta delta [update_conductance read_gdef bind load store get
                              modify ret raise].
    rewrite Hg. reflexivity. }
  split; [exact H|].
  unfold outer_iteration, step_physics. unfold bind at 1. unfold bind at 1.
  rewrite H. reflexivity.
Qed.

Lemma conductance_update_needs_run_witness :
  _update_coefficient_matrix chain chain_in_out
    = (Raise (AttributeError "_gdef"), chain_in_out)
  /\ outer_iteration chain approx_sin approx_pi chain_solve chain_in_out
     = (Raise (AttributeError "_gdef"), chain_in_out).
Proof.
  apply (conductance_update_needs_run chain approx_sin approx_pi chain_solve
           chain_in_out); [reflexivity|simpl; lia].
Defined.

(** ** Throat centroids *)

Lemma count_succ (n : nat) :
  inject_Z (Z.of_nat (S n)) == inject_Z (Z.of_nat n) + 1.
Proof.
  rewrite Nat2Z.inj_succ. unfold Z.succ. rewrite inject_Z_plus. reflexivity.
Qed.

Lemma count_pos {A} (l : list A) : l <> [] -> 0 < inject_Z (Z.of_nat (length l)).
Proof.
  intros H. destruct l as [|x l]; [contradiction|].
  change 0 with (inject_Z 0). rewrite <- Zlt_Qlt. simpl length. lia.
Qed.

Lemma sum_bounds (lo hi : Q) (l : list Q) :
  Forall (fun x => lo <= x /\ x <= hi) l ->
  inject_Z (Z.of_nat (length l)) * lo <= sp_sum l
  /\ sp_sum l <= inject_Z (Z.of_nat (length l)) * hi.
Proof.
  induction 1 as [|x l [Hlo Hhi] _ [IH1 IH2]].
  - unfold sp_sum. cbn [fold_left length Z.of_nat]. change (inject_Z (Z.of_nat 0)) with 0. split; lra.
  - simpl length. rewrite sum_cons, count_succ. lra.
Qed.

Lemma mean_bounds (lo hi : Q) (l : list Q) :
  l <> [] ->
  Forall (fun x => lo <= x /\ x <= hi) l ->
  lo <= throat_centroid.mean l /\ throat_centroid.mean l <= hi.
Proof.
  intros Hne Hall. pose proof (count_pos l Hne) as Hn.
  destruct (sum_bounds lo hi l Hall) as [H1 H2]. unfold throat_centroid.mean. split.
  - apply Qle_shift_div_l; [exact Hn|]. lra.
  - apply Qle_shift_div_r; [exact Hn|]. lra.
Qed.

Lemma sum_shift (d : Q) (l : list Q) :
  sp_sum (map (fun x => x + d) l) == sp_sum l + inject_Z (Z.of_nat (length l)) * d.
Proof.
  induction l as [|x l IH].
  - unfold sp_sum. cbn [map fold_left length]. change (inject_Z (Z.of_nat 0)) with 0. ring.
  - simpl map. simpl length. rewrite !sum_cons, count_succ, IH. ring.
Qed.

Lemma mean_shift (d : Q) (l : list Q) :
  l <> [] ->
  throat_centroid.mean (map (fun x => x + d) l) == throat_centroid.mean l + d.
Proof.
  intros Hne. pose proof (count_pos l Hne) as Hn. unfold throat_centroid.mean.
  rewrite sum_shift, length_map. field. lra.
Qed.

Lemma mean_shift_column {A} (f : A -> Q) (d : Q) (l : list A) :
  l <> [] ->
  throat_centroid.mean (map (fun v => f v + d) l)
  == throat_centroid.mean (map f l) + d.
Proof.
  intros Hne. rewrite <- (map_map f (fun x => x + d)). apply mean_shift.
  destruct l; [contradiction|discriminate].
Qed.

(** X17: the centroid that [voronoi] gives a throat lies in every box that
    holds the throat's vertices (the throat has one vertex at least). *)
Theorem voronoi_centroid_in_box (verts : list (list throat_centroid.vertex))
    (i : nat) (vert : list throat_centroid.vertex) (lo hi : throat_centroid.vertex) :
  verts !! i = Some vert ->
  vert <> [] ->
  Forall (in_box lo hi) vert ->
  exists c, throat_centroid.voronoi verts !! i = Some c /\ in_box lo hi c.
Proof.
  intros Hi Hne Hall. unfold throat_centroid.voronoi.
  rewrite list_lookup_fmap, Hi. eexists. split; [reflexivity|].
  assert (Hlen : forall f : throat_centroid.vertex -> Q, map f vert <> []).
  { intros f. destruct vert; [contradiction|discriminate]. }
  unfold in_box. cbn [fst snd].
  split; [|split]; apply mean_bounds; try apply Hlen;
    apply Forall_map; (eapply Forall_impl; [exact Hall|]);
    intros v (H1 & H2 & H3); assumption.
Qed.

(** X18: moving every vertex by [d] moves every centroid by [d]. *)
Theorem voronoi_follows_translation (verts : list (list throat_centroid.vertex))
    (d : throat_centroid.vertex) :
  Forall (fun vert => vert <> []) verts ->
  Forall2 vertex_eq
    (throat_centroid.voronoi (map (map (translate d)) verts))
    (map (translate d) (throat_centroid.voronoi verts)).
Proof.
  induction 1 as [|vert verts Hne _ IH]; [constructor|].
  simpl. constructor; [|exact IH].
  unfold vertex_eq, translate, throat_centroid.column0, throat_centroid.column1,
    throat_centroid.column2.
  cbn [fst snd]. rewrite !map_map. cbn [fst snd].
  repeat split; apply mean_shift_column; exact Hne.
Qed.

Lemma voronoi_centroid_in_box_witness :
  exists c, throat_centroid.voronoi cube_faces !! 1%nat = Some c
            /\ in_box (0, 0, 0) (0, 1, 1) c.
Proof.
  apply (voronoi_centroid_in_box cube_faces 1
           [(0, 0, 0); (0, 0, 1); (0, 1, 1); (0, 1, 0)]).
  - reflexivity.
  - discriminate.
  - repeat constructor; vm_compute; discriminate.
Defined.

Lemma voronoi_follows_translation_witness :
  Forall2 vertex_eq
    (throat_centroid.voronoi (map (map (translate (1, 2, 3))) cube_faces))
    (map (translate (1, 2, 3)) (throat_centroid.voronoi cube_faces)).
Proof.
  apply (voronoi_follows_translation cube_faces (1, 2, 3)).
  repeat constructor; discriminate.
Defined.

(** ** Labels of the dual network *)

Lemma assign_upto_lookup (Np Npts p : nat) :
  (p < Np)%nat ->
  DelaunayVoronoiDual.assign_upto (replicate Np false) Npts true !!! p = Nat.ltb p Npts.
Proof.
  intros Hp. unfold DelaunayVoronoiDual.assign_upto. rewrite length_replicate, drop_replicate.
  destruct (Nat.ltb_spec p Npts) as [H|H].
  - rewrite lookup_total_app_l by (rewrite length_replicate; lia).
    apply list_lookup_total_correct, lookup_replicate_2. lia.
  - rewrite lookup_total_app_r by (rewrite length_replicate; lia).
    apply list_lookup_total_correct, lookup_replicate_2.
    rewrite length_replicate. lia.
Qed.

Lemma assign_from_lookup (Np Npts p : nat) :
  (p < Np)%nat ->
  DelaunayVoronoiDual.assign_from (replicate Np false) Npts true !!! p = Nat.leb Npts p.
Proof.
  intros Hp. unfold DelaunayVoronoiDual.assign_from. rewrite length_replicate, take_replicate.
  destruct (Nat.leb_spec Npts p) as [H|H].
  - rewrite lookup_total_app_r by (rewrite length_replicate; lia).
    apply list_lookup_total_correct, lookup_replicate_2.
    rewrite length_replicate. lia.
  - rewrite lookup_total_app_l by (rewrite length_replicate; lia).
    apply list_lookup_total_correct, lookup_replicate_2. lia.
Qed.

Lemma assign_mask_lookup (f : nat * nat -> bool) (conns : list (nat * nat))
    (t : nat) (c : nat * nat) :
  conns !! t = Some c ->
  DelaunayVoronoiDual.assign_mask (replicate (length conns) false) (map f conns) true !!! t = f c.
Proof.
  intros Ht. apply list_lookup_total_correct. unfold DelaunayVoronoiDual.assign_mask.
  rewrite lookup_zip_with, list_lookup_fmap, Ht. simpl.
  rewrite lookup_replicate_2 by (apply lookup_lt_Some in Ht; exact Ht).
  simpl. destruct (f c); reflexivity.
Qed.

(** X19: the labels of lines 157-168 agree with each other: a pore carries
    exactly one of the labels delaunay and voronoi, and a throat is labelled
    delaunay (voronoi) exactly when both of its pores are. *)
Theorem labels_agree (Npts Np : nat) (conns : list (nat * nat)) :
  let L := DelaunayVoronoiDual.label_by_type Npts Np conns in
  (forall p, (p < Np)%nat ->
     DelaunayVoronoiDual.pore_voronoi L !!! p
     = negb (DelaunayVoronoiDual.pore_delaunay L !!! p))
  /\ (forall t a b, conns !! t = Some (a, b) -> (a < Np)%nat -> (b < Np)%nat ->
        DelaunayVoronoiDual.throat_delaunay L !!! t
        = DelaunayVoronoiDual.pore_delaunay L !!! a
          && DelaunayVoronoiDual.pore_delaunay L !!! b
        /\ DelaunayVoronoiDual.throat_voronoi L !!! t
           = DelaunayVoronoiDual.pore_voronoi L !!! a
             && DelaunayVoronoiDual.pore_voronoi L !!! b).
Proof.
  cbv zeta. unfold DelaunayVoronoiDual.label_by_type. simpl. split.
  - intros p Hp. rewrite assign_upto_lookup, assign_from_lookup by exact Hp.
    destruct (Nat.leb_spec Npts p), (Nat.ltb_spec p Npts); simpl; try reflexivity; lia.
  - intros t a b Ht Ha Hb.
    rewrite !assign_upto_lookup, !assign_from_lookup by assumption.
    unfold DelaunayVoronoiDual.all_below, DelaunayVoronoiDual.all_from.
    rewrite (assign_mask_lookup _ conns t (a, b) Ht).
    rewrite (assign_mask_lookup _ conns t (a, b) Ht).
    split; reflexivity.
Qed.
